(** * claude-code-discord: per-channel session orchestrator

    A shallow embedding of the parts of the bot that carry logic:

    - [Guard]: [createWorkspaceWriteGuard] of claude/client.ts, with the
      POSIX [resolve]/[normalize] of node:path it calls;
    - [Client]: [sendToClaudeCode] of claude/client.ts: the streaming loop
      with its startup and activity timers, and the exit-code-1 retry;
    - [Bot]: the channel registry, [onMessage], [processMessage] of index.ts,
      the two revisions of [onClaude] and [onClaudeCancel] of
      claude/command.ts, and the /cancel and /new commands of
      core/command-wrappers.ts, as atomic segments between awaits;
    - [Lifecycle]: the session file ([saveSessionState], [loadSessionState])
      of index.ts, /status of core/command-wrappers.ts and
      [abortAllSessions];
    - [Buttons]: core/button-handlers.ts and [handleButton] of
      discord/bot.ts;
    - [Listener]: the message listener of discord/bot.ts and the prompt
      that [onMessage] builds;
    - [Env]: [loadEnvFile] of index.ts. *)

From Stdlib Require Import String Ascii NArith List Bool Lia.
From stdpp Require Import base option list gmap strings.


(** JavaScript truthiness of a string: the empty string is falsy. *)
Definition truthy (s : string) : bool :=
  match s with EmptyString => false | _ => true end.

(** [s.includes(needle)] *)
Definition includes (needle s : string) : bool :=
  match String.index 0 needle s with Some _ => true | None => false end.

(** [s.startsWith(p)] *)
Definition startsWith (p s : string) : bool := String.prefix p s.

(** [lines.join(sep)] *)
Definition join (sep : string) (l : list string) : string := String.concat sep l.

(** The double quote character, for messages that quote a path. *)
Definition dquote : string := String (Ascii.ascii_of_nat 34) EmptyString.

(** The line feed character. *)
Definition nl : string := String (Ascii.ascii_of_nat 10) EmptyString.

(* ===================================================================== *)
(** ** The workspace write guard *)
(* ===================================================================== *)

Module Guard.

(** *** node:path, POSIX flavour

    [resolve] and [normalize] belong to the runtime, not to the repository;
    they are written after the algorithm of node:path (posix): [resolve]
    prepends its arguments from right to left until an absolute path is
    reached, falling back on the process working directory, and both drop
    empty and [.] segments and fold [..] through [normalizeString]. *)

Definition sep : string := "/".

Definition slash : ascii := Ascii.ascii_of_nat 47.

Fixpoint split_sep (s : string) : list string :=
  match s with
  | EmptyString => [EmptyString]
  | String a r =>
      if Ascii.eqb a slash then EmptyString :: split_sep r
      else match split_sep r with
           | [] => [String a EmptyString]
           | h :: t => String a h :: t
           end
  end.

(** One segment of [normalizeString]; [acc] is the result so far, last
    segment first. *)
Definition normalize_step (allowAboveRoot : bool) (acc : list string) (seg : string)
  : list string :=
  if String.eqb seg "" || String.eqb seg "." then acc
  else if String.eqb seg ".." then
    match acc with
    | top :: rest =>
        if String.eqb top ".." then (if allowAboveRoot then seg :: acc else acc)
        else rest
    | [] => if allowAboveRoot then [seg] else []
    end
  else seg :: acc.

Definition normalizeSegments (allowAboveRoot : bool) (p : string) : list string :=
  rev (fold_left (normalize_step allowAboveRoot) (split_sep p) []).

Definition normalizeString (p : string) (allowAboveRoot : bool) : string :=
  join sep (normalizeSegments allowAboveRoot p).

Definition isAbsolute (p : string) : bool := startsWith sep p.

Fixpoint endsWith_sep (s : string) : bool :=
  match s with
  | EmptyString => false
  | String a EmptyString => Ascii.eqb a slash
  | String _ r => endsWith_sep r
  end.

(** The loop of [resolve], over the arguments from last to first and then
    the process working directory. *)
Fixpoint resolve_loop (args_rev : list string) (resolvedPath : string)
  : string * bool :=
  match args_rev with
  | [] => (resolvedPath, false)
  | p :: rest =>
      if truthy p then
        let resolvedPath := p +:+ sep +:+ resolvedPath in
        if isAbsolute p then (resolvedPath, true)
        else resolve_loop rest resolvedPath
      else resolve_loop rest resolvedPath
  end.

Section Path.

(** [Deno.cwd()], the working directory of the bot process. *)
Variable process_cwd : string.

Definition resolve (args : list string) : string :=
  let '(resolvedPath, resolvedAbsolute) :=
    resolve_loop (rev (process_cwd :: args)) "" in
  let n := normalizeString resolvedPath (negb resolvedAbsolute) in
  if resolvedAbsolute then sep +:+ n
  else if truthy n then n else ".".

Definition normalize (path : string) : string :=
  if truthy path then
    let isAbs := isAbsolute path in
    let trailingSeparator := endsWith_sep path in
    let p := normalizeString path (negb isAbs) in
    if truthy p then
      let p := if trailingSeparator then p +:+ sep else p in
      if isAbs then sep +:+ p else p
    else if isAbs then sep
    else if trailingSeparator then "./" else "."
  else ".".

(** *** The guard (claude/client.ts, createWorkspaceWriteGuard) *)

(** The decision handed back to the SDK. *)
Inductive PermissionResult :=
| Deny (message : string)
| Allow (updatedInput : gmap string string).

(** Write-capable tools and their path input keys. *)
Definition writeToolPaths (toolName : string) : option string :=
  if String.eqb toolName "Write" then Some "file_path"
  else if String.eqb toolName "Edit" then Some "file_path"
  else if String.eqb toolName "NotebookEdit" then Some "notebook_path"
  else None.

Definition denyMessage (workspaceRootDir filePath : string) : string :=
  "Write operations are restricted to the workspace directory ("
  +:+ workspaceRootDir +:+ "). The path " +:+ dquote +:+ filePath +:+ dquote
  +:+ " is outside the allowed area. You can read files outside workspace but cannot write to them.".

(** The tool input is a JavaScript object; the guard reads one key of it
    and takes the value for a string. The table of the source is a plain
    object: a tool named after a member of [Object.prototype]
    (constructor, toString) finds the inherited member there, and the key
    read from the input is then the text of that member. [writeToolPaths]
    leaves such names aside; the statements about a path keep to the tools
    of the table. *)
Definition createWorkspaceWriteGuard (workspaceRootDir cwd : string)
    (toolName : string) (input : gmap string string) : PermissionResult :=
  let normalizedRoot := normalize (resolve [workspaceRootDir]) in
  match writeToolPaths toolName with
  | Some pathKey =>
      match input !! pathKey with
      | Some filePath =>
          if truthy filePath then
            let resolvedPath := normalize (resolve [cwd; filePath]) in
            if negb (String.eqb resolvedPath normalizedRoot)
               && negb (startsWith (normalizedRoot +:+ sep) resolvedPath)
            then Deny (denyMessage workspaceRootDir filePath)
            else Allow input
          else Allow input
      | None => Allow input
      end
  | None => Allow input
  end.

(** *** What the guard is meant to decide

    The location a path names: the segments of its resolved form. A
    location is inside the workspace (or the workspace itself) when the
    segments of the root are a prefix of its own. *)

Definition location (args : list string) : list string :=
  normalizeSegments false (fst (resolve_loop (rev (process_cwd :: args)) "")).

Fixpoint segs_prefix (r p : list string) : bool :=
  match r, p with
  | [], _ => true
  | a :: r', b :: p' => String.eqb a b && segs_prefix r' p'
  | _ :: _, [] => false
  end.

(** A segment of a resolved path: not empty, without separator, and
    neither [.] nor [..]. *)
Fixpoint noSlash (s : string) : bool :=
  match s with
  | EmptyString => true
  | String a r => negb (Ascii.eqb a slash) && noSlash r
  end.

Definition clean (seg : string) : bool :=
  truthy seg && noSlash seg
  && negb (String.eqb seg ".") && negb (String.eqb seg "..").

Definition insideWorkspace (workspaceRootDir cwd filePath : string) : bool :=
  segs_prefix (location [workspaceRootDir]) (location [cwd; filePath]).

Definition isAllow (r : PermissionResult) : bool :=
  match r with Allow _ => true | Deny _ => false end.

End Path.

End Guard.

(* ===================================================================== *)
(** ** The streaming client *)
(* ===================================================================== *)

Module Client.

(** *** cleanSessionId *)

Definition isWhitespace (a : ascii) : bool :=
  let n := Ascii.nat_of_ascii a in
  Nat.eqb n 32 || (Nat.leb 9 n && Nat.leb n 13).

Definition isBacktick (a : ascii) : bool := Nat.eqb (Ascii.nat_of_ascii a) 96.
Definition isLF (a : ascii) : bool := Nat.eqb (Ascii.nat_of_ascii a) 10.
Definition isLineBreak (a : ascii) : bool :=
  let n := Ascii.nat_of_ascii a in Nat.eqb n 10 || Nat.eqb n 13.

Fixpoint dropWhile {A} (f : A -> bool) (l : list A) : list A :=
  match l with
  | [] => []
  | a :: r => if f a then dropWhile f r else l
  end.

Definition dropWhileEnd {A} (f : A -> bool) (l : list A) : list A :=
  rev (dropWhile f (rev l)).

(** [.trim()], on the ASCII white space characters. JavaScript strips
    more: U+00A0, U+FEFF, the line and paragraph separators and the space
    separators; a statement that the difference could touch keeps to text
    whose ends are ASCII. *)
Definition trim (l : list ascii) : list ascii :=
  dropWhileEnd isWhitespace (dropWhile isWhitespace l).

(** A leading [```] with an optional line feed after it. *)
Definition dropFence (l : list ascii) : list ascii :=
  match l with
  | a :: b :: c :: r =>
      if isBacktick a && isBacktick b && isBacktick c then
        match r with
        | d :: r' => if isLF d then r' else r
        | [] => r
        end
      else l
  | _ => l
  end.

Definition cleanSessionId (sessionId : string) : string :=
  let s := trim (list_ascii_of_string sessionId) in
  let s := dropWhileEnd isBacktick (dropWhile isBacktick s) in
  let s := rev (dropFence (rev (dropFence s))) in
  let s := filter (fun a => negb (isLineBreak a)) s in
  string_of_list_ascii (trim s).

(** *** Data *)

(** A message of the SDK stream, with the fields the client reads. *)
Record SDKMessage := {
  m_type : string;
  (** [message.content], text blocks joined, of a message that has content *)
  m_text : option string;
  m_session_id : option string;
  m_total_cost_usd : option N;
  m_duration_ms : option N;
}.

Record JsError := {
  e_name : string;
  e_message : string;
  e_stderrOutput : option string;
}.

Record ClaudeModelOptions := { model : option string }.

(** The options [claudeQuery] is called with. *)
Record QueryOptions := {
  q_prompt : string;
  q_cwd : string;
  q_canUseTool : option (string * string);
  q_continue : bool;
  q_resume : option string;
  q_model : option string;
}.

(** What the SDK iterator does, as the loop sees it: stderr data, messages,
    and calls of [controller.abort()] made from outside while the loop is
    suspended, each after a delay in milliseconds; then the end of the
    stream, normal or by an exception, or no end at all. *)
Inductive StreamEvent :=
| Stderr (data : string)
| Abort
| Yield (m : SDKMessage).

Inductive StreamEnd := Done | Throw (e : JsError) | Hang.

Record Stream := {
  events : list (N * StreamEvent);
  ending : N * StreamEnd;
}.

Inductive TimerKind := Startup | Activity.

Definition STARTUP_TIMEOUT : N := 30000.
Definition ACTIVITY_TIMEOUT : N := 5 * 60 * 1000.

(** A pending [setTimeout]: its callback and the milliseconds left. *)
Record Timer := { t_kind : TimerKind; t_left : N }.

(** The variables of one call of [executeWithErrorHandling], with those of
    [sendToClaudeCode] it shares: the controller's signal, [stderrLines],
    the calls made to the callbacks, the timeouts reported on the console,
    and a timer of an earlier call that was never cleared. *)
Record Run := {
  messageCount : nat;
  timeoutId : option Timer;
  currentMessages : list SDKMessage;
  currentResponse : string;
  currentSessionId : option string;
  aborted : bool;
  stderrLines : list string;
  streamed : list SDKMessage;
  chunks : list string;
  timeouts : list TimerKind;
  stale : option (Timer * nat);
}.

Record ExecResult := {
  r_messages : list SDKMessage;
  r_response : string;
  r_sessionId : option string;
  r_aborted : bool;
  r_modelUsed : string;
  r_stderrOutput : string;
}.

Inductive ExecOutcome :=
| ExecReturned (r : ExecResult)
| ExecThrown (e : JsError)
| ExecHung.

(** The value [sendToClaudeCode] resolves to. *)
Record ClaudeResponse := {
  response : string;
  sessionId : option string;
  cost : option N;
  duration : option N;
  modelUsed : option string;
  stderrOutput : option string;
}.

Inductive Outcome :=
| Returned (r : ClaudeResponse)
| Thrown (e : JsError)
| Hung.

(** *** Timers *)

Definition set_timer (t : option Timer) (r : Run) : Run :=
  {| messageCount := messageCount r; timeoutId := t;
     currentMessages := currentMessages r; currentResponse := currentResponse r;
     currentSessionId := currentSessionId r; aborted := aborted r;
     stderrLines := stderrLines r; streamed := streamed r; chunks := chunks r;
     timeouts := timeouts r; stale := stale r |}.

Definition set_stale (t : option (Timer * nat)) (r : Run) : Run :=
  {| messageCount := messageCount r; timeoutId := timeoutId r;
     currentMessages := currentMessages r; currentResponse := currentResponse r;
     currentSessionId := currentSessionId r; aborted := aborted r;
     stderrLines := stderrLines r; streamed := streamed r; chunks := chunks r;
     timeouts := timeouts r; stale := t |}.

(** [controller.abort()] *)
Definition abort (r : Run) : Run :=
  {| messageCount := messageCount r; timeoutId := timeoutId r;
     currentMessages := currentMessages r; currentResponse := currentResponse r;
     currentSessionId := currentSessionId r; aborted := true;
     stderrLines := stderrLines r; streamed := streamed r; chunks := chunks r;
     timeouts := timeouts r; stale := stale r |}.

Definition report (k : TimerKind) (r : Run) : Run :=
  {| messageCount := messageCount r; timeoutId := timeoutId r;
     currentMessages := currentMessages r; currentResponse := currentResponse r;
     currentSessionId := currentSessionId r; aborted := aborted r;
     stderrLines := stderrLines r; streamed := streamed r; chunks := chunks r;
     timeouts := timeouts r ++ [k]; stale := stale r |}.

(** The callback of a timer; [count] is the [messageCount] of the call
    that armed it. *)
Definition callback (k : TimerKind) (count : nat) (r : Run) : Run :=
  match k with
  | Startup =>
      if Nat.eqb count 0 && negb (aborted r) then abort (report Startup r) else r
  | Activity =>
      if negb (aborted r) then abort (report Activity r) else r
  end.

Definition expire_current (d : N) (r : Run) : Run :=
  match timeoutId r with
  | Some t =>
      if (t_left t <=? d)%N then callback (t_kind t) (messageCount r) (set_timer None r)
      else set_timer (Some {| t_kind := t_kind t; t_left := t_left t - d |}) r
  | None => r
  end.

Definition expire_stale (d : N) (r : Run) : Run :=
  match stale r with
  | Some (t, count) =>
      if (t_left t <=? d)%N then callback (t_kind t) count (set_stale None r)
      else set_stale (Some ({| t_kind := t_kind t; t_left := t_left t - d |}, count)) r
  | None => r
  end.

(** [d] milliseconds pass: the timers due fire, the earlier one first. *)
Definition elapse (d : N) (r : Run) : Run :=
  match stale r, timeoutId r with
  | Some (s, _), Some t =>
      if (t_left s <=? t_left t)%N then expire_current d (expire_stale d r)
      else expire_stale d (expire_current d r)
  | _, _ => expire_current d (expire_stale d r)
  end.

(** No further event: every armed timer fires in the end. *)
Definition elapse_forever (r : Run) : Run :=
  match stale r, timeoutId r with
  | Some (s, cs), Some t =>
      if (t_left s <=? t_left t)%N
      then callback (t_kind t) (messageCount r)
             (set_timer None (callback (t_kind s) cs (set_stale None r)))
      else callback (t_kind s) cs
             (set_stale None (callback (t_kind t) (messageCount r) (set_timer None r)))
  | Some (s, cs), None => callback (t_kind s) cs (set_stale None r)
  | None, Some t => callback (t_kind t) (messageCount r) (set_timer None r)
  | None, None => r
  end.

(** [resetActivityTimeout] *)
Definition resetActivityTimeout (r : Run) : Run :=
  let r := set_timer None r in
  if negb (aborted r)
  then set_timer (Some {| t_kind := Activity; t_left := ACTIVITY_TIMEOUT |}) r
  else r.

(** *** The loop of executeWithErrorHandling *)

Definition push_stderr (data : string) (r : Run) : Run :=
  {| messageCount := messageCount r; timeoutId := timeoutId r;
     currentMessages := currentMessages r; currentResponse := currentResponse r;
     currentSessionId := currentSessionId r; aborted := aborted r;
     stderrLines := stderrLines r ++ [data]; streamed := streamed r;
     chunks := chunks r; timeouts := timeouts r; stale := stale r |}.

Definition count_message (r : Run) : Run :=
  {| messageCount := S (messageCount r); timeoutId := timeoutId r;
     currentMessages := currentMessages r; currentResponse := currentResponse r;
     currentSessionId := currentSessionId r; aborted := aborted r;
     stderrLines := stderrLines r; streamed := streamed r; chunks := chunks r;
     timeouts := timeouts r; stale := stale r |}.

Section Loop.

(** Whether the callbacks were passed. *)
Variables (onChunk onStreamJson : bool).

(** The body of the loop after the abort check, for a message [m]. *)
Definition accept (m : SDKMessage) (r : Run) : Run :=
  let text :=
    if String.eqb (m_type m) "assistant" && negb onStreamJson
    then m_text m else None in
  {| messageCount := messageCount r; timeoutId := timeoutId r;
     currentMessages := currentMessages r ++ [m];
     currentResponse :=
       match text with Some t => t | None => currentResponse r end;
     currentSessionId :=
       match m_session_id m with
       | Some i => if truthy i then Some i else currentSessionId r
       | None => currentSessionId r
       end;
     aborted := aborted r; stderrLines := stderrLines r;
     streamed := if onStreamJson then streamed r ++ [m] else streamed r;
     chunks :=
       match text with
       | Some t => if truthy t && onChunk then chunks r ++ [t] else chunks r
       | None => chunks r
       end;
     timeouts := timeouts r; stale := stale r |}.

Definition result_of (modelToUse : option string) (r : Run) : ExecResult :=
  {| r_messages := currentMessages r;
     r_response := currentResponse r;
     r_sessionId := currentSessionId r;
     r_aborted := aborted r;
     r_modelUsed := match modelToUse with Some m => m | None => "Default" end;
     r_stderrOutput := join nl (stderrLines r) |}.

(** The result of the catch block for an abort. *)
Definition aborted_result (r : Run) : ExecResult :=
  {| r_messages := []; r_response := ""; r_sessionId := None;
     r_aborted := true; r_modelUsed := "Default";
     r_stderrOutput := join nl (stderrLines r) |}.

Definition isAbortError (e : JsError) (r : Run) : bool :=
  String.eqb (e_name e) "AbortError"
  || aborted r
  || (truthy (e_message e) && includes "exited with code 143" (e_message e)).

(** The end of the stream: the code after the loop, or the catch block.
    The catch block clears no timer: the one armed stays pending. *)
Definition finish (modelToUse : option string) (e : StreamEnd) (r : Run)
  : ExecOutcome * Run :=
  match e with
  | Done =>
      let r := set_timer None r in
      (ExecReturned (result_of modelToUse r), r)
  | Throw err =>
      if isAbortError err r then (ExecReturned (aborted_result r), r)
      else
        (ExecThrown {| e_name := e_name err; e_message := e_message err;
                       e_stderrOutput := Some (join nl (stderrLines r)) |}, r)
  | Hang => (ExecHung, elapse_forever r)
  end.

(** [for await (const message of iterator)] with what happens around it
    while the loop is suspended. *)
Fixpoint loop (modelToUse : option string) (evs : list (N * StreamEvent))
    (e : N * StreamEnd) (r : Run) : ExecOutcome * Run :=
  match evs with
  | [] => finish modelToUse (snd e) (elapse (fst e) r)
  | (d, ev) :: evs' =>
      let r := elapse d r in
      match ev with
      | Stderr data => loop modelToUse evs' e (push_stderr data r)
      | Abort => loop modelToUse evs' e (abort r)
      | Yield m =>
          let r := resetActivityTimeout (count_message r) in
          if aborted r then
            let r := set_timer None r in
            (ExecReturned (result_of modelToUse r), r)
          else loop modelToUse evs' e (accept m r)
      end
  end.

End Loop.

(** *** sendToClaudeCode *)

(** [a || b] on optional strings. *)
Definition js_or (a b : option string) : option string :=
  match a with
  | Some x => if truthy x then a else b
  | None => b
  end.

Definition js_truthy (a : option string) : bool :=
  match a with Some x => truthy x | None => false end.

Definition FALLBACK_MODEL : string := "claude-sonnet-4-20250514".

Definition BOTH_FAILED : string :=
  nl +:+ nl +:+ "⚠️ Both default model and Sonnet 4 encountered errors. Please wait a moment and try again.".

(** The exception of ['total_cost_usd' in lastMessage] when the stream
    delivered no message and [lastMessage] is undefined. *)
Definition inOperatorError : JsError :=
  {| e_name := "TypeError";
     e_message := "Cannot use 'in' operator to search for 'total_cost_usd' in undefined";
     e_stderrOutput := None |}.

(** The test of the catch block of [sendToClaudeCode]. *)
Definition isExitCode1 (e : JsError) : bool :=
  truthy (e_message e)
  && (includes "exit code 1" (e_message e)
      || includes "exited with code 1" (e_message e)).

(** What one call of [sendToClaudeCode] did: the options of each
    [claudeQuery] call in order, the outcome, and the final state of the
    shared variables. *)
Record Sent := {
  queries : list QueryOptions;
  outcome : Outcome;
  final : Run;
}.

Section Send.

(** The SDK: the stream that the [n]-th call of [claudeQuery] within one
    [sendToClaudeCode] produces for its options. *)
Variable claudeQuery : nat -> QueryOptions -> Stream.

Variables (workDir prompt : string).
(** [controller.signal.aborted] at the call. *)
Variable controller_aborted : bool.
Variable sessionId_arg : option string.
Variables (onChunk onStreamJson : bool).
Variable continueMode : bool.
Variable modelOptions : option ClaudeModelOptions.
Variable workspaceRootDir : option string.

Definition cleanedSessionId : option string :=
  if js_truthy sessionId_arg
  then match sessionId_arg with Some i => Some (cleanSessionId i) | None => None end
  else None.

Definition queryOptions (overrideModel : option string) (skipResume : bool)
  : QueryOptions :=
  let modelToUse := js_or overrideModel (modelOptions ≫= model) in
  let shouldResume :=
    js_truthy cleanedSessionId && negb continueMode && negb skipResume in
  {| q_prompt := prompt;
     q_cwd := workDir;
     q_canUseTool :=
       match workspaceRootDir with
       | Some root => if truthy root then Some (root, workDir) else None
       | None => None
       end;
     q_continue := continueMode;
     q_resume := if shouldResume then cleanedSessionId else None;
     q_model := if js_truthy modelToUse then modelToUse else None |}.

(** The variables of a call of [executeWithErrorHandling] at its start;
    [prev] is the state the previous call left, if there was one. *)
Definition start (prev : option Run) : Run :=
  let ab := match prev with Some r => aborted r | None => controller_aborted end in
  {| messageCount := 0;
     timeoutId :=
       if negb ab then Some {| t_kind := Startup; t_left := STARTUP_TIMEOUT |}
       else None;
     currentMessages := []; currentResponse := ""; currentSessionId := None;
     aborted := ab;
     stderrLines := match prev with Some r => stderrLines r | None => [] end;
     streamed := match prev with Some r => streamed r | None => [] end;
     chunks := match prev with Some r => chunks r | None => [] end;
     timeouts := match prev with Some r => timeouts r | None => [] end;
     stale :=
       match prev with
       | Some r =>
           match timeoutId r with
           | Some t => Some (t, messageCount r)
           | None => stale r
           end
       | None => None
       end |}.

Definition executeWithErrorHandling (n : nat) (prev : option Run)
    (overrideModel : option string) (skipResume : bool)
  : QueryOptions * (ExecOutcome * Run) :=
  let q := queryOptions overrideModel skipResume in
  let s := claudeQuery n q in
  (q, loop onChunk onStreamJson (q_model q) (events s) (ending s) (start prev)).

Definition cancelled (m : option string) (err : option string) : ClaudeResponse :=
  {| response := "Request was cancelled"; sessionId := None; cost := None;
     duration := None; modelUsed := m; stderrOutput := err |}.

Definition completed (res : ExecResult) (lastMessage : SDKMessage)
    (err : option string) : ClaudeResponse :=
  {| response :=
       if truthy (r_response res) then r_response res else "No response received";
     sessionId := r_sessionId res;
     cost := m_total_cost_usd lastMessage;
     duration := m_duration_ms lastMessage;
     modelUsed := Some (r_modelUsed res);
     stderrOutput := err |}.

(** The catch block of the retry. *)
Definition retryFailed (retryError : JsError) (r : Run) : Outcome :=
  if isAbortError retryError r
  then Returned (cancelled (Some "Claude Sonnet 4") None)
  else Thrown {| e_name := e_name retryError;
                 e_message := e_message retryError +:+ BOTH_FAILED;
                 e_stderrOutput := e_stderrOutput retryError |}.

(** The catch block of the first attempt, for the exception [error] caught
    with the shared variables in state [r1]. *)
Definition firstFailed (q1 : QueryOptions) (error : JsError) (r1 : Run) : Sent :=
  if isExitCode1 error then
    let '(q2, (o2, r2)) :=
      executeWithErrorHandling 1 (Some r1) (Some FALLBACK_MODEL) true in
    let out :=
      match o2 with
      | ExecReturned retryResult =>
          if r_aborted retryResult
          then Returned (cancelled (Some (r_modelUsed retryResult)) None)
          else match last (r_messages retryResult) with
               | Some lastRetryMessage =>
                   Returned (completed retryResult lastRetryMessage None)
               | None => retryFailed inOperatorError r2
               end
      | ExecThrown retryError => retryFailed retryError r2
      | ExecHung => Hung
      end in
    {| queries := [q1; q2]; outcome := out; final := r2 |}
  else {| queries := [q1]; outcome := Thrown error; final := r1 |}.

Definition sendToClaudeCode : Sent :=
  let '(q1, (o1, r1)) := executeWithErrorHandling 0 None None false in
  match o1 with
  | ExecReturned result =>
      if r_aborted result then
        {| queries := [q1];
           outcome := Returned (cancelled (Some (r_modelUsed result))
                                          (Some (r_stderrOutput result)));
           final := r1 |}
      else
        match last (r_messages result) with
        | Some lastMessage =>
            {| queries := [q1];
               outcome := Returned (completed result lastMessage
                                              (Some (r_stderrOutput result)));
               final := r1 |}
        | None => firstFailed q1 inOperatorError r1
        end
  | ExecThrown error => firstFailed q1 error r1
  | ExecHung => {| queries := [q1]; outcome := Hung; final := r1 |}
  end.

End Send.

(** *** Streams, for the statements

    The state of the loop after a prefix of the events, as long as the
    loop has not been left. *)
Fixpoint play (onChunk onStreamJson : bool) (evs : list (N * StreamEvent))
    (r : Run) : Run :=
  match evs with
  | [] => r
  | (d, ev) :: evs' =>
      let r := elapse d r in
      play onChunk onStreamJson evs'
        match ev with
        | Stderr data => push_stderr data r
        | Abort => abort r
        | Yield m => accept onChunk onStreamJson m
                       (resetActivityTimeout (count_message r))
        end
  end.

(** Events that are stderr data only: no message, no abort. *)
Definition stderrOnly (evs : list (N * StreamEvent)) : bool :=
  forallb (fun x => match snd x with Stderr _ => true | _ => false end) evs.

(** The time a list of events takes. *)
Definition delays (evs : list (N * StreamEvent)) : N :=
  fold_right (fun x acc => (fst x + acc)%N) 0%N evs.

(** The delay before what comes next in a stream. *)
Definition next_delay (evs : list (N * StreamEvent)) (e : N * StreamEnd) : N :=
  match evs with
  | (d, _) :: _ => d
  | [] => fst e
  end.

(** The timer [k] is the only one pending, with [left] ms to go, and the
    controller is not aborted; [seen] are the timeouts reported so far. *)
Definition armed (k : TimerKind) (left : N) (seen : list TimerKind) (r : Run) : Prop :=
  timeoutId r = Some {| t_kind := k; t_left := left |}
  /\ aborted r = false
  /\ stale r = None
  /\ timeouts r = seen
  /\ (k = Startup -> messageCount r = 0).

(** The timer [k] has aborted the controller, after the timeouts [seen],
    and no timer is pending. *)
Definition fired (k : TimerKind) (seen : list TimerKind) (r : Run) : Prop :=
  timeoutId r = None
  /\ aborted r = true
  /\ stale r = None
  /\ timeouts r = seen ++ [k].

End Client.

(* ===================================================================== *)
(** ** The bot: channel sessions, message queue, handlers *)
(* ===================================================================== *)

Module Bot.

Import Client.

(** The context of a Discord message or interaction, by number. *)
Definition Ctx := nat.

(** An [AbortController], by order of creation. *)
Definition Controller := nat.

Record QueuedMessage := { qm_ctx : Ctx; qm_prompt : string }.

Record ChannelSession := {
  controller : option Controller;
  sessionId : option string;
  channelWorkDir : string;
  channelName : option string;
  messageQueue : list QueuedMessage;
}.

(** What the bot sends out, in order. *)
Inductive Output :=
(** the reply "Your message has been queued (position pos)" *)
| SayQueued (ctx : Ctx) (pos : nat)
(** [sendToClaudeCode] called by [onClaude] *)
| Query (ctx : Ctx) (currentWorkDir prompt : string) (resume : option string)
        (c : Controller)
(** the completion message *)
| SayCompletion (session_id : string)
(** the embed "Claude Code - No Response" *)
| SayNoResponse (ctx : Ctx)
(** the embed "Claude Code Error" *)
| SayError (ctx : Ctx) (errorMsg : string)
(** [onMessage] rejected: the error reply of the message listener *)
| SayRejected (ctx : Ctx) (errorMsg : string)
(** the reply of /cancel *)
| SayCancel (ctx : Ctx) (cancelled : bool)
(** the reply of /new *)
| SayCleared (ctx : Ctx).

(** How the promise awaited by [onClaude] settles; [streamMessageCount]
    is the number of calls of the stream callback so far. *)
Inductive TaskOutcome :=
| Resolved (r : ClaudeResponse) (streamMessageCount : nat)
| Failed (e : JsError)
(** the 30 s timer of [onClaude] fired before any stream message *)
| TimedOut.

Inductive Status :=
(** [onClaude] awaits [sendToClaudeCode] *)
| Running
(** [onClaude] has returned, [processMessage] resumes next *)
| Settled
(** the outermost [processMessage] has returned *)
| Finished
(** the outermost [processMessage] has rejected *)
| Rejected.

Record Frame := { f_ctx : Ctx; f_prompt : string }.

(** A call of [processMessage] made by [onMessage], with the calls nested
    in it: the pending calls, innermost first, each suspended at its await
    but the first. *)
Record Activation := {
  a_channel : string;
  a_frames : list Frame;
  a_controller : Controller;
  a_currentWorkDir : string;
  a_status : Status;
}.

(** The closure of [createClaudeCodeBot]. *)
Record State := {
  workDir : string;
  channelSessions : gmap string ChannelSession;
  activeChannelId : option string;
  (** [signal.aborted] of every controller created *)
  signals : list bool;
  activations : list Activation;
  (** the content last written by [saveSessionState] *)
  persisted : gmap string (string * option string);
  outputs : list Output;
}.

(** The two revisions of claude/command.ts. *)
Inductive Revision :=
(** [onClaude] awaits [sendToClaudeCode] bare *)
| Rev1
(** [onClaude] races it against a timer inside try/catch *)
| Rev2.

(** *** Field updates *)

Definition set_sessions (m : gmap string ChannelSession) (s : State) : State :=
  {| workDir := workDir s; channelSessions := m;
     activeChannelId := activeChannelId s; signals := signals s;
     activations := activations s; persisted := persisted s;
     outputs := outputs s |}.

Definition set_active (a : option string) (s : State) : State :=
  {| workDir := workDir s; channelSessions := channelSessions s;
     activeChannelId := a; signals := signals s;
     activations := activations s; persisted := persisted s;
     outputs := outputs s |}.

Definition set_signals (l : list bool) (s : State) : State :=
  {| workDir := workDir s; channelSessions := channelSessions s;
     activeChannelId := activeChannelId s; signals := l;
     activations := activations s; persisted := persisted s;
     outputs := outputs s |}.

Definition set_activations (l : list Activation) (s : State) : State :=
  {| workDir := workDir s; channelSessions := channelSessions s;
     activeChannelId := activeChannelId s; signals := signals s;
     activations := l; persisted := persisted s;
     outputs := outputs s |}.

Definition set_persisted (p : gmap string (string * option string)) (s : State)
  : State :=
  {| workDir := workDir s; channelSessions := channelSessions s;
     activeChannelId := activeChannelId s; signals := signals s;
     activations := activations s; persisted := p;
     outputs := outputs s |}.

Definition say (o : Output) (s : State) : State :=
  {| workDir := workDir s; channelSessions := channelSessions s;
     activeChannelId := activeChannelId s; signals := signals s;
     activations := activations s; persisted := persisted s;
     outputs := outputs s ++ [o] |}.

Definition with_controller (c : option Controller) (cs : ChannelSession)
  : ChannelSession :=
  {| controller := c; sessionId := sessionId cs;
     channelWorkDir := channelWorkDir cs; channelName := channelName cs;
     messageQueue := messageQueue cs |}.

Definition with_sessionId (i : option string) (cs : ChannelSession)
  : ChannelSession :=
  {| controller := controller cs; sessionId := i;
     channelWorkDir := channelWorkDir cs; channelName := channelName cs;
     messageQueue := messageQueue cs |}.

Definition with_queue (q : list QueuedMessage) (cs : ChannelSession)
  : ChannelSession :=
  {| controller := controller cs; sessionId := sessionId cs;
     channelWorkDir := channelWorkDir cs; channelName := channelName cs;
     messageQueue := q |}.

(** *** index.ts: the registry and the session-state closures *)

(** [getChannelSession]: the entry of the channel, created on first use.
    Entries are objects shared by reference and never replaced, so the
    key stands for the reference. *)
Definition getChannelSession (channelId : string) (name : option string)
    (s : State) : ChannelSession * State :=
  match channelSessions s !! channelId with
  | Some cs => (cs, s)
  | None =>
      let folderName :=
        match js_or name (Some channelId) with Some f => f | None => channelId end in
      let cs := {| controller := None; sessionId := None;
                   channelWorkDir := workDir s +:+ "/" +:+ folderName;
                   channelName := Some folderName;
                   messageQueue := [] |} in
      (cs, set_sessions (<[channelId := cs]> (channelSessions s)) s)
  end.

(** [activeChannelId ? ... : ...] *)
Definition active (s : State) : option string :=
  match activeChannelId s with
  | Some a => if truthy a then Some a else None
  | None => None
  end.

(** [saveSessionState]: the sessions that have an id, written out. *)
Definition saveSessionState (s : State) : State :=
  set_persisted
    (omap (fun cs =>
             match sessionId cs with
             | Some i => if truthy i then Some (i, channelName cs) else None
             | None => None
             end) (channelSessions s)) s.

Definition getController (s : State) : option Controller * State :=
  match active s with
  | Some a => let '(cs, s) := getChannelSession a None s in (controller cs, s)
  | None => (None, s)
  end.

Definition setController (c : option Controller) (s : State) : State :=
  match active s with
  | Some a =>
      let '(cs, s) := getChannelSession a None s in
      set_sessions (<[a := with_controller c cs]> (channelSessions s)) s
  | None => s
  end.

Definition setSessionId (i : option string) (s : State) : State :=
  match active s with
  | Some a =>
      let '(cs, s) := getChannelSession a None s in
      saveSessionState
        (set_sessions (<[a := with_sessionId i cs]> (channelSessions s)) s)
  | None => s
  end.

(** [getClaudeWorkDir] *)
Definition getClaudeWorkDir (s : State) : string :=
  match active s with
  | Some a =>
      match channelSessions s !! a with
      | Some cs => channelWorkDir cs
      | None => workDir s
      end
  | None => workDir s
  end.

(** [controller.abort()] *)
Definition abortController (c : Controller) (s : State) : State :=
  set_signals (<[c := true]> (signals s)) s.

(** [new AbortController()] *)
Definition newController (s : State) : Controller * State :=
  (length (signals s), set_signals (signals s ++ [false]) s).

(** [controller.signal.aborted] *)
Definition isAborted (c : Controller) (s : State) : bool :=
  match signals s !! c with Some b => b | None => false end.

(** *** claude/command.ts *)

(** The dependencies [createClaudeHandlers] is given. *)
Record ClaudeHandlerDeps := {
  deps_workDir : State -> string;
  claudeController : State -> option Controller * State;
  setClaudeController : option Controller -> State -> State;
  setClaudeSessionId : option string -> State -> State;
}.

(** Modelled from the spec: core/handler-registry.ts, which builds the
    dependencies of [createClaudeHandlers] from the session-state closures
    that index.ts passes to [createAllHandlers], is not among the sources.
    The spec has cancel act on the handle of the channel at the time of
    the request, so [deps.claudeController] reads through [getController]
    at each use; the two setters are the closures themselves, and the
    working directory is the getter index.ts defines for the handlers. *)
Definition deps : ClaudeHandlerDeps :=
  {| deps_workDir := getClaudeWorkDir;
     claudeController := getController;
     setClaudeController := setController;
     setClaudeSessionId := setSessionId |}.

Inductive Completion := Returns | Rejects (errorMsg : string).

Definition TIMEOUT_MESSAGE (currentWorkDir : string) : string :=
  "TIMEOUT: Claude CLI produced no output after 30s. "
  +:+ "The CLI may not be installed, not authenticated, or hanging. "
  +:+ "cwd=" +:+ currentWorkDir.

Section Handlers.

Variable rv : Revision.
Variable d : ClaudeHandlerDeps.

(** [onClaude] up to the call of [sendToClaudeCode]: the controller of the
    task, then the query. The awaits of [ctx.deferReply] and
    [ctx.editReply] in between touch no variable of the bot. *)
Definition onClaude_begin (ctx : Ctx) (prompt : string)
    (sessionId_arg : option string) (externalController : option Controller)
    (s : State) : Controller * string * State :=
  let currentWorkDir := deps_workDir d s in
  let '(c, s) :=
    match rv, externalController with
    | Rev2, Some c => (c, s)
    | _, _ =>
        let '(cur, s) := claudeController d s in
        let s := match cur with Some c0 => abortController c0 s | None => s end in
        let '(c, s) := newController s in
        (c, setClaudeController d (Some c) s)
    end in
  (c, currentWorkDir, say (Query ctx currentWorkDir prompt sessionId_arg c) s).

(** [onClaude] from the settling of the awaited promise to its return. *)
Definition onClaude_end (ctx : Ctx) (c : Controller) (currentWorkDir : string)
    (external : bool) (o : TaskOutcome) (s : State) : Completion * State :=
  match rv with
  | Rev1 =>
      match o with
      | Resolved r _ =>
          let s := setClaudeSessionId d (Client.sessionId r) s in
          let s := setClaudeController d None s in
          (Returns,
           match Client.sessionId r with
           | Some i => if truthy i then say (SayCompletion i) s else s
           | None => s
           end)
      | Failed e => (Rejects (e_message e), s)
      (* this revision has no timer of its own: [settle] never gets here *)
      | TimedOut => (Returns, s)
      end
  | Rev2 =>
      match o with
      | Resolved r streamMessageCount =>
          let s :=
            if external then s
            else setClaudeController d None
                   (setClaudeSessionId d (Client.sessionId r) s) in
          (Returns,
           if js_truthy (Client.sessionId r) then
             match Client.sessionId r with
             | Some i => say (SayCompletion i) s
             | None => s
             end
           else if Nat.eqb streamMessageCount 0 then say (SayNoResponse ctx) s
           else s)
      | Failed e =>
          let s := if external then s else setClaudeController d None s in
          (Returns, say (SayError ctx (e_message e)) s)
      | TimedOut =>
          let s := abortController c s in
          let s := if external then s else setClaudeController d None s in
          (Returns, say (SayError ctx (TIMEOUT_MESSAGE currentWorkDir)) s)
      end
  end.

(** [onClaudeCancel] *)
Definition onClaudeCancel (s : State) : bool * State :=
  let '(cur, s) := claudeController d s in
  match cur with
  | None => (false, s)
  | Some c =>
      let s := abortController c s in
      let s := setClaudeController d None s in
      let s := setClaudeSessionId d None s in
      (true, s)
  end.

End Handlers.

(** *** index.ts: onMessage and processMessage *)

Inductive Ack :=
| Queued (pos : nat)
| Dispatched (task : nat)
| NoSession.

Definition busy (cs : ChannelSession) (s : State) : bool :=
  match controller cs with
  | Some c => negb (isAborted c s)
  | None => false
  end.

Section Index.

Variable rv : Revision.

(** [processMessage] up to its await: [onClaude] is called with the
    session id of the channel if it has one. The call of
    [messageHistoryOps.addToHistory] only feeds the navigation history. *)
Definition processMessage_begin (channelId : string) (ctx : Ctx)
    (prompt : string) (s : State) : Controller * string * State :=
  let resume :=
    match channelSessions s !! channelId with
    | Some session =>
        if js_truthy (sessionId session) then sessionId session else None
    | None => None
    end in
  onClaude_begin rv deps ctx prompt resume None s.

(** [onMessage] up to its first await: the channel becomes the active one
    and its session is looked up or created. *)
Definition onMessage_arrive (channelId channelName : string) (s : State) : State :=
  let s := set_active (Some channelId) s in
  snd (getChannelSession channelId (Some channelName) s).

(** [onMessage] from the busy check on, with the prompt it has built. *)
Definition onMessage_resume (ctx : Ctx) (prompt : string) (channelId : string)
    (s : State) : Ack * State :=
  match channelSessions s !! channelId with
  | None => (NoSession, s)
  | Some session =>
      if busy session s then
        let q := messageQueue session ++ [{| qm_ctx := ctx; qm_prompt := prompt |}] in
        let s := set_sessions (<[channelId := with_queue q session]> (channelSessions s)) s in
        let pos := length q in
        (Queued pos, say (SayQueued ctx pos) s)
      else
        let '(c, cwd, s) := processMessage_begin channelId ctx prompt s in
        (Dispatched (length (activations s)),
         set_activations
           (activations s ++
              [{| a_channel := channelId;
                  a_frames := [{| f_ctx := ctx; f_prompt := prompt |}];
                  a_controller := c; a_currentWorkDir := cwd;
                  a_status := Running |}]) s)
  end.

(** The promise awaited by the [onClaude] of activation [t] settles. When
    [onClaude] rejects, so does every pending [processMessage] and then
    [onMessage], whose caller replies to the first message with the error. *)
Definition settle (t : nat) (o : TaskOutcome) (s : State) : State :=
  match activations s !! t with
  | Some a =>
      match a_status a, a_frames a, rv, o with
      | Running, _, Rev1, TimedOut => s
      | Running, f :: _, _, _ =>
          match onClaude_end rv deps (f_ctx f) (a_controller a)
                  (a_currentWorkDir a) false o s with
          | (Returns, s) =>
              set_activations
                (<[t := {| a_channel := a_channel a; a_frames := a_frames a;
                           a_controller := a_controller a;
                           a_currentWorkDir := a_currentWorkDir a;
                           a_status := Settled |}]> (activations s)) s
          | (Rejects msg, s) =>
              let first := match last (a_frames a) with
                           | Some f0 => f_ctx f0 | None => f_ctx f end in
              say (SayRejected first msg)
                (set_activations
                   (<[t := {| a_channel := a_channel a; a_frames := [];
                              a_controller := a_controller a;
                              a_currentWorkDir := a_currentWorkDir a;
                              a_status := Rejected |}]> (activations s)) s)
          end
      | _, _, _, _ => s
      end
  | None => s
  end.

(** [processMessage] after its await: the next queued message, if any, is
    processed by a nested call. *)
Definition drain (t : nat) (s : State) : State :=
  match activations s !! t with
  | Some a =>
      match a_status a, channelSessions s !! a_channel a with
      | Settled, Some session =>
          match messageQueue session with
          | next :: rest =>
              let s := set_sessions
                         (<[a_channel a := with_queue rest session]> (channelSessions s)) s in
              let s := set_active (Some (a_channel a)) s in
              let '(c, cwd, s) :=
                processMessage_begin (a_channel a) (qm_ctx next) (qm_prompt next) s in
              set_activations
                (<[t := {| a_channel := a_channel a;
                           a_frames := {| f_ctx := qm_ctx next; f_prompt := qm_prompt next |}
                                       :: a_frames a;
                           a_controller := c; a_currentWorkDir := cwd;
                           a_status := Running |}]> (activations s)) s
          | [] =>
              set_activations
                (<[t := {| a_channel := a_channel a; a_frames := [];
                           a_controller := a_controller a;
                           a_currentWorkDir := a_currentWorkDir a;
                           a_status := Finished |}]> (activations s)) s
          end
      | _, _ => s
      end
  | None => s
  end.

(** *** core/command-wrappers.ts *)

Definition setChannel (channelId : option string) (s : State) : State :=
  if js_truthy channelId then set_active channelId s else s.

(** /cancel *)
Definition cancel (ctx : Ctx) (channelId : option string) (s : State)
  : bool * State :=
  let s := setChannel channelId s in
  let '(cancelled, s) := onClaudeCancel deps s in
  (cancelled, say (SayCancel ctx cancelled) s).

(** /new *)
Definition new (ctx : Ctx) (channelId : option string) (s : State) : State :=
  let s := setChannel channelId s in
  let '(_, s) := onClaudeCancel deps s in
  let s := setSessionId None s in
  say (SayCleared ctx) s.

(** *** The event loop *)

(** One atomic segment of the program, run to its next await. *)
Inductive Event :=
| Arrive (channelId channelName : string)
| Resume (ctx : Ctx) (prompt : string) (channelId : string)
| Settle (task : nat) (o : TaskOutcome)
| Drain (task : nat)
| Cancel (ctx : Ctx) (channelId : option string)
| New (ctx : Ctx) (channelId : option string).

Definition step (s : State) (e : Event) : State :=
  match e with
  | Arrive channelId channelName => onMessage_arrive channelId channelName s
  | Resume ctx prompt channelId => snd (onMessage_resume ctx prompt channelId s)
  | Settle t o => settle t o s
  | Drain t => drain t s
  | Cancel ctx channelId => snd (cancel ctx channelId s)
  | New ctx channelId => new ctx channelId s
  end.

Definition run (s : State) (es : list Event) : State := fold_left step es s.

End Index.

(** The bot after [createClaudeCodeBot] when [loadSessionState] found no
    saved sessions. *)
Definition init (dir : string) : State :=
  {| workDir := dir; channelSessions := ∅; activeChannelId := None;
     signals := []; activations := []; persisted := ∅; outputs := [] |}.

(** *** Observations *)

Definition queue_of (channelId : string) (s : State) : list QueuedMessage :=
  match channelSessions s !! channelId with
  | Some cs => messageQueue cs
  | None => []
  end.

Definition sessionId_of (channelId : string) (s : State) : option string :=
  channelSessions s !! channelId ≫= sessionId.

Definition controller_of (channelId : string) (s : State) : option Controller :=
  channelSessions s !! channelId ≫= controller.

(** The messages handed to [sendToClaudeCode], in order. *)
Definition dispatched (l : list Output) : list QueuedMessage :=
  omap (fun o => match o with
                 | Query ctx _ prompt _ _ => Some {| qm_ctx := ctx; qm_prompt := prompt |}
                 | _ => None
                 end) l.

(** The calls of [processMessage] pending in an activation. *)
Definition pending (t : nat) (s : State) : nat :=
  match activations s !! t with
  | Some a => length (a_frames a)
  | None => 0
  end.

(** A message sent to a channel and handled without interruption. *)
Definition submit (channelId channelName : string) (m : QueuedMessage) : list Event :=
  [Arrive channelId channelName; Resume (qm_ctx m) (qm_prompt m) channelId].

(** The task of an activation settles and its [processMessage] resumes,
    once for each outcome. *)
Definition rounds (t : nat) (os : list TaskOutcome) : list Event :=
  concat (map (fun o => [Settle t o; Drain t]) os).

(** Whether [onClaude] returns to [processMessage] on an outcome. *)
Definition returns (rv : Revision) (o : TaskOutcome) : bool :=
  match rv, o with
  | Rev1, Failed _ => false
  | Rev1, TimedOut => false
  | _, _ => true
  end.

(** A field of the session of a channel, with the value a session has
    when it is created for the channel that has none yet. *)
Definition field {A} (proj : ChannelSession -> A) (dflt : A)
    (channelId : string) (s : State) : A :=
  match channelSessions s !! channelId with
  | Some cs => proj cs
  | None => dflt
  end.

Definition fresh_default {A} (proj : ChannelSession -> A) (dflt : A) : Prop :=
  forall w n, proj {| controller := None; sessionId := None;
                      channelWorkDir := w; channelName := n;
                      messageQueue := [] |} = dflt.

(** A step that changes neither the activations nor the queue of any
    channel, and removes no session. *)
Record quiet (s s' : State) : Prop := {
  quiet_activations : activations s' = activations s;
  quiet_queue : forall ch, queue_of ch s' = queue_of ch s;
  quiet_sessions :
    forall ch, is_Some (channelSessions s !! ch) -> is_Some (channelSessions s' !! ch);
}.

Definition frame_of (m : QueuedMessage) : Frame :=
  {| f_ctx := qm_ctx m; f_prompt := qm_prompt m |}.

(** Activation [t] of channel [ch] runs the [k]-th of the messages [ms]
    that were queued behind the frames [fs]: the first [k] were handed
    over in order after the ones in [before], the rest wait in the queue. *)
Definition drained (t : nat) (ch : string) (ms : list QueuedMessage)
    (fs : list Frame) (before : list QueuedMessage) (k : nat) (s : State) : Prop :=
  (exists c cwd,
      activations s !! t
      = Some {| a_channel := ch;
                a_frames := rev (map frame_of (take k ms)) ++ fs;
                a_controller := c; a_currentWorkDir := cwd;
                a_status := Running |})
  /\ queue_of ch s = drop k ms
  /\ is_Some (channelSessions s !! ch)
  /\ dispatched (outputs s) = before ++ take k ms.

End Bot.

(* ===================================================================== *)
(** ** Scenarios *)
(* ===================================================================== *)

Module Scenario.

Import Bot.

Definition m0 : QueuedMessage := {| qm_ctx := 1; qm_prompt := "p0" |}.
Definition m1 : QueuedMessage := {| qm_ctx := 2; qm_prompt := "p1" |}.
Definition m2 : QueuedMessage := {| qm_ctx := 3; qm_prompt := "p2" |}.
Definition mb : QueuedMessage := {| qm_ctx := 4; qm_prompt := "pb" |}.

(** A task that completed and announced a session id. *)
Definition done_with (session_id : option string) : Client.ClaudeResponse :=
  {| Client.response := "No response received"; Client.sessionId := session_id;
     Client.cost := Some 1%N; Client.duration := Some 1200%N;
     Client.modelUsed := Some "Default"; Client.stderrOutput := Some "" |}.

(** A failure that is not retried. *)
Definition exit2 : Client.JsError :=
  {| Client.e_name := "Error";
     Client.e_message := "Claude Code process exited with code 2";
     Client.e_stderrOutput := Some "" |}.

(** Channel A with a task running for [m0]. *)
Definition busyA (rv : Revision) : State :=
  run rv (init "/w") (submit "A" "alpha" m0).

(** The same with [m1] and [m2] queued behind it. *)
Definition backlogA (rv : Revision) : State :=
  run rv (busyA rv) (submit "A" "alpha" m1 ++ submit "A" "alpha" m2).

(** Channel A has completed [m0] with session id s0 and runs [m1]. *)
Definition resumedA (rv : Revision) : State :=
  run rv (busyA rv)
    ([Settle 0 (Resolved (done_with (Some "s0")) 2); Drain 0]
     ++ submit "A" "alpha" m1).

(** Channels A and B each with a task running. *)
Definition busyAB (rv : Revision) : State :=
  run rv (busyA rv) (submit "B" "beta" mb).

(** A message sent to channel A while the completion message of a task is
    on its way. *)
Definition md : QueuedMessage := {| qm_ctx := 5; qm_prompt := "pd" |}.

(** The task of [m0] resolves with a session id: [onClaude] clears the
    handle and awaits the sending of the completion message. Before
    [processMessage] resumes, [md] arrives and is handled. Then
    [processMessage] resumes and takes the next message from the queue;
    the task of [md], aborted by that, resolves as cancelled and its
    [processMessage] resumes in turn. *)
Definition lateArrival : list Event :=
  [Settle 0 (Resolved (done_with (Some "s0")) 2)]
  ++ submit "A" "alpha" md
  ++ [Drain 0;
      Settle 1 (Resolved (Client.cancelled (Some "Default") (Some "")) 0);
      Drain 1].

Definition sessionA (c : option Controller) (i : option string)
    (q : list QueuedMessage) : ChannelSession :=
  {| controller := c; sessionId := i; channelWorkDir := "/w/alpha";
     channelName := Some "alpha"; messageQueue := q |}.

(** Streams of the SDK. *)

Definition abortError : Client.JsError :=
  {| Client.e_name := "AbortError";
     Client.e_message := "This operation was aborted";
     Client.e_stderrOutput := None |}.

Definition exit1 : Client.JsError :=
  {| Client.e_name := "Error";
     Client.e_message := "Claude Code process exited with code 1";
     Client.e_stderrOutput := None |}.

Definition hello : Client.SDKMessage :=
  {| Client.m_type := "assistant"; Client.m_text := Some "hello";
     Client.m_session_id := Some "s1"; Client.m_total_cost_usd := None;
     Client.m_duration_ms := None |}.

(** Nothing but a line of stderr for 30 s; aborted, the SDK throws. *)
Definition silent : Client.Stream :=
  {| Client.events := [(100%N, Client.Stderr "starting")];
     Client.ending := (30000%N, Client.Throw abortError) |}.

(** One message, then nothing for 5 min; aborted, the SDK throws. *)
Definition stalled : Client.Stream :=
  {| Client.events := [(1000%N, Client.Yield hello)];
     Client.ending := (300000%N, Client.Throw abortError) |}.

(** The user cancels after 5 s; the SDK throws. *)
Definition cancelledByUser : Client.Stream :=
  {| Client.events := [(100%N, Client.Stderr "starting"); (5000%N, Client.Abort)];
     Client.ending := (10%N, Client.Throw abortError) |}.

(** Both attempts exit with code 1 after a line of stderr. *)
Definition failsTwice (n : nat) (q : Client.QueryOptions) : Client.Stream :=
  match n with
  | 0 => {| Client.events := [(100%N, Client.Stderr "first")];
            Client.ending := (900%N, Client.Throw exit1) |}
  | _ => {| Client.events := [(100%N, Client.Stderr "second")];
            Client.ending := (900%N, Client.Throw exit1) |}
  end.

(** The first attempt exits with code 1 after a second; the retry answers
    after 40 s. *)
Definition slowRetry (n : nat) (q : Client.QueryOptions) : Client.Stream :=
  match n with
  | 0 => {| Client.events := [];
            Client.ending := (1000%N, Client.Throw exit1) |}
  | _ => {| Client.events := [(40000%N, Client.Yield hello)];
            Client.ending := (10%N, Client.Done) |}
  end.

(** [sendToClaudeCode] as [onClaude] calls it for a channel that has the
    session id s0, on a given SDK. *)
Definition send (sdk : nat -> Client.QueryOptions -> Client.Stream) : Client.Sent :=
  Client.sendToClaudeCode sdk "/w/alpha" "p0" false (Some "s0") false true
    false None (Some "/w").

End Scenario.

(* ===================================================================== *)
(** ** Session ids and streams, observed *)
(* ===================================================================== *)


(** A character of a session id: printable, no space, no backtick. *)
Definition plain (a : ascii) : Prop :=
  32 < nat_of_ascii a < 127 /\ nat_of_ascii a <> 96.

Module Streams.
Import Client.


(** The time from the call of [claudeQuery] to the end of its stream. *)
Definition lasting (s : Stream) : N := (delays (events s) + fst (ending s))%N.

(** A timer left behind by an earlier attempt, with [left] ms to go, that
    will abort the controller when it fires, unless the controller is
    aborted already. *)
Definition doomed (left : N) (r : Run) : Prop :=
  aborted r = true
  \/ exists k count,
       stale r = Some ({| t_kind := k; t_left := left |}, count)
       /\ (k = Startup -> count = 0).

(** While the controller of a first attempt is not aborted one timer is
    pending, and the startup timer only as long as no message has come. *)
Definition watched (r : Run) : Prop :=
  stale r = None
  /\ (aborted r = false ->
      exists k left,
        timeoutId r = Some {| t_kind := k; t_left := left |}
        /\ (left <= ACTIVITY_TIMEOUT)%N
        /\ (k = Startup -> messageCount r = 0)).

End Streams.

(* ===================================================================== *)
(** ** Sessions across restarts, /status and shutdown *)
(* ===================================================================== *)


Module Lifecycle.

Import Client Bot.

(** *** index.ts: the session file *)

(** What [saveSessionState] writes for a session: its id and name, if it
    has an id. *)
Definition saved (cs : ChannelSession) : option (string * option string) :=
  match sessionId cs with
  | Some i => if truthy i then Some (i, channelName cs) else None
  | None => None
  end.

(** [saved.channelName || channelId] *)
Definition folderOf (channelId : string) (name : option string) : string :=
  match js_or name (Some channelId) with Some f => f | None => channelId end.

(** The session [loadSessionState] makes of an entry of the file. An entry
    without session id is one with the empty id here: both are falsy. *)
Definition restored (dir channelId : string) (entry : string * option string)
  : option ChannelSession :=
  if truthy (fst entry) then
    Some {| controller := None; sessionId := Some (fst entry);
            channelWorkDir := dir +:+ "/" +:+ folderOf channelId (snd entry);
            channelName := snd entry;
            messageQueue := [] |}
  else None.

(** [loadSessionState], and with it the bot after [createClaudeCodeBot];
    [content] is the parsed session file, none when the file is missing or
    is not JSON. The file is one of the shape [saveSessionState] writes:
    an object whose entries are objects. Loading leaves the file as it
    is. *)
Definition loadSessionState (dir : string)
    (content : option (gmap string (string * option string))) : State :=
  match content with
  | Some state =>
      {| workDir := dir; channelSessions := map_imap (restored dir) state;
         activeChannelId := None; signals := []; activations := [];
         persisted := state; outputs := [] |}
  | None => init dir
  end.

(** The bot stopped and started again in the same working directory, with
    the session file as it was last written. *)
Definition restart (s : State) : State :=
  loadSessionState (workDir s) (Some (persisted s)).

(** *** core/command-wrappers.ts: /status *)

(** [getClaudeSessionId], the closure index.ts passes to the commands. *)
Definition getSessionId (s : State) : option string * State :=
  match active s with
  | Some a => let '(cs, s) := getChannelSession a None s in (sessionId cs, s)
  | None => (None, s)
  end.

(** The fields of the embed "Channel Status". *)
Record StatusReply := {
  st_channel : string;
  st_status : string;
  st_session : string;
  st_workDir : string;
}.

Definition status (channelId : option string) (s : State) : StatusReply * State :=
  let s := setChannel channelId s in
  let '(sessionId, s) := getSessionId s in
  let '(controller, s) := getController s in
  let isRunning :=
    match controller with Some c => negb (isAborted c s) | None => false end in
  let channelWorkDir := getClaudeWorkDir s in
  ({| st_channel :=
        match channelId with
        | Some c => if truthy c then "<#" +:+ c +:+ ">" else "Unknown"
        | None => "Unknown"
        end;
      st_status := if isRunning then "Running" else "Idle";
      st_session :=
        match sessionId with
        | Some i => if truthy i then "`" +:+ substring 0 20 i +:+ "...`"
                    else "No active session"
        | None => "No active session"
        end;
      st_workDir := "`" +:+ channelWorkDir +:+ "`" |}, s).

(** *** index.ts: shutdown *)

(** [abortAllSessions], called on SIGINT and SIGTERM. *)
Definition abortAllSessions (s : State) : State :=
  map_fold (fun _ session s =>
              match controller session with
              | Some c => abortController c s
              | None => s
              end) s (channelSessions s).

(** *** Observations *)

(** The session file lists the channels that have a session id. *)
Definition sync (s : State) : Prop :=
  forall ch, persisted s !! ch = channelSessions s !! ch ≫= saved.

(** Every session has the folder that its name, or else its channel id,
    gives it under the working directory. *)
Definition housed (s : State) : Prop :=
  forall ch cs, channelSessions s !! ch = Some cs ->
    channelWorkDir cs = workDir s +:+ "/" +:+ folderOf ch (channelName cs).

(** From [s] to [s'] no session was dropped or moved: the working
    directory is the same, the sessions of [s] are there with their folder
    and name, and a session that is new has the folder of a first use. *)
Record steady (s s' : State) : Prop := {
  steady_workDir : workDir s' = workDir s;
  steady_kept : forall ch cs, channelSessions s !! ch = Some cs ->
    exists cs', channelSessions s' !! ch = Some cs'
                /\ channelWorkDir cs' = channelWorkDir cs
                /\ channelName cs' = channelName cs;
  steady_new : forall ch cs', channelSessions s !! ch = None ->
    channelSessions s' !! ch = Some cs' ->
    exists name, channelName cs' = Some (folderOf ch name)
                 /\ channelWorkDir cs'
                    = workDir s +:+ "/" +:+ folderOf ch name;
  steady_sync : sync s -> sync s';
}.

(** Every handle a session holds is a controller that was created. *)
Definition handled (s : State) : Prop :=
  forall ch c, controller_of ch s = Some c -> c < length (signals s).

(** From [s] to [s'] no controller was forgotten, and a handle that is
    new is a controller that was created. *)
Definition tidy (s s' : State) : Prop :=
  length (signals s) <= length (signals s')
  /\ forall ch c, controller_of ch s' = Some c ->
       controller_of ch s = Some c \/ c < length (signals s').

(** The messages waiting in the queues of all channels. *)
Definition queued (s : State) : list QueuedMessage :=
  concat (messageQueue <$> (map_to_list (channelSessions s)).*2).

(** The messages a list of events brings in. *)
Definition messages (es : list Event) : list QueuedMessage :=
  omap (fun e => match e with
                 | Resume ctx prompt _ => Some {| qm_ctx := ctx; qm_prompt := prompt |}
                 | _ => None
                 end) es.

(** [onMessage] looks the session of the channel up before it goes on:
    every [Resume] comes after an [Arrive] for its channel. *)
Fixpoint arrivedFirst (seen : list string) (es : list Event) : bool :=
  match es with
  | [] => true
  | Arrive ch _ :: es' => arrivedFirst (ch :: seen) es'
  | Resume _ _ ch :: es' => bool_decide (ch ∈ seen) && arrivedFirst seen es'
  | _ :: es' => arrivedFirst seen es'
  end.

End Lifecycle.

(* ===================================================================== *)
(** ** Buttons *)
(* ===================================================================== *)


Module Buttons.

(** *** core/button-handlers.ts

    A string is the list of its code units, so [String.length] is the
    [length] of the source for text within Latin-1; the titles keep the
    bytes of the source files. *)

(** An embed, by the fields the handlers set. *)
Record Embed := {
  e_color : N;
  e_title : string;
  e_description : string;
  e_fields : list (string * string);
}.

Record Button := { b_customId : string; b_label : string; b_style : string }.

(** The content of a [ctx.update]. *)
Record Update := { u_embed : Embed; u_buttons : list Button }.

(** [s.substring(n)] *)
Fixpoint substringFrom (n : nat) (s : string) : string :=
  match n, s with
  | O, _ => s
  | S n', String _ r => substringFrom n' r
  | S _, EmptyString => EmptyString
  end.

Definition collapsed : Update :=
  {| u_embed :=
       {| e_color := 8421504 (* 0x808080 *);
          e_title := "🔼 Content Collapsed";
          e_description := "Content has been collapsed. Use the expand button to view it again.";
          e_fields := [] |};
     u_buttons := [] |}.

(** [createButtonHandlers]: the handlers by custom id, each the update it
    makes. The stored content plays no part. *)
Definition createButtonHandlers (expandableContent : gmap string string)
  : gmap string Update :=
  {[ "collapse-content" := collapsed ]}.

Definition notAvailable : Update :=
  {| u_embed :=
       {| e_color := 16755200 (* 0xffaa00 *);
          e_title := "📖 Content Not Available";
          e_description := "The full content is no longer available for expansion.";
          e_fields := [] |};
     u_buttons := [] |}.

Definition collapseButton : Button :=
  {| b_customId := "collapse-content"; b_label := "🔼 Collapse";
     b_style := "secondary" |}.

Definition fence : string := "```".

Definition maxLength : nat := 4090 - String.length (fence +:+ nl +:+ nl +:+ fence).

(** [createExpandButtonHandler]: nothing for an id without the prefix,
    else the update made. *)
Definition createExpandButtonHandler (expandableContent : gmap string string)
    (customId : string) : option Update :=
  if negb (startsWith "expand:" customId) then None
  else
    let expandId := substringFrom 7 customId in
    match expandableContent !! expandId with
    | Some fullContent =>
        if negb (truthy fullContent) then Some notAvailable
        else if String.length fullContent <=? maxLength then
          Some {| u_embed :=
                    {| e_color := 39423 (* 0x0099ff *);
                       e_title := "📖 Full Content";
                       e_description :=
                         if startsWith "result-" expandId
                         then fence +:+ nl +:+ fullContent +:+ nl +:+ fence
                         else fence +:+ "json" +:+ nl +:+ fullContent +:+ nl +:+ fence;
                       e_fields := [] |};
                  u_buttons := [collapseButton] |}
        else
          let chunk := substring 0 (maxLength - 100) fullContent in
          Some {| u_embed :=
                    {| e_color := 39423;
                       e_title := "📖 Full Content (Large - Showing First Part)";
                       e_description :=
                         if startsWith "result-" expandId
                         then fence +:+ nl +:+ chunk +:+ "..." +:+ nl +:+ fence
                         else fence +:+ "json" +:+ nl +:+ chunk +:+ "..." +:+ nl +:+ fence;
                       e_fields :=
                         [("Note", "Content is very large. This shows the first portion.")] |};
                  u_buttons := [collapseButton] |}
    | None => Some notAvailable
    end.

(** *** discord/bot.ts: handleButton *)

(** What comes of a button interaction, in order. *)
Inductive Effect :=
| DoUpdate (u : Update)
(** [ctx.followUp] with the message of an error *)
| DoFollowUp (content : string)
(** [crashHandler.reportCrash] *)
| DoReport (kind : string).

(** A handler run to its end: the updates it made on the way, and the
    message of the error it threw, if it threw. *)
Record Ran := { made : list Update; thrown : option string }.

(** [handlePaginationInteraction] *)
Inductive Paged :=
| Page (u : Update)
| NoPage
| PageError.

(** An entry of the command handlers: whether it has [handleButton]. *)
Definition CommandHandler := option (string -> Ran).

(** The command handlers of core/command-wrappers.ts, in the order of
    their insertion: new, cancel, model, status. Each has [execute] only. *)
Definition createAllCommandHandlers : list (string * CommandHandler) :=
  [("new", None); ("cancel", None); ("model", None); ("status", None)].

Definition errorNote (prefix : string) (error : string) : string :=
  prefix +:+ error.

(** [buttonId.split(':')[1]] *)
Fixpoint upToColon (s : string) : string :=
  match s with
  | EmptyString => EmptyString
  | String a r => if Ascii.eqb a ":" then EmptyString else String a (upToColon r)
  end.

Fixpoint afterColon (s : string) : option string :=
  match s with
  | EmptyString => None
  | String a r => if Ascii.eqb a ":" then Some (upToColon r) else afterColon r
  end.

Definition sessionIdUpdate (sessionId : option string) : Update :=
  {| u_embed :=
       {| e_color := 65280 (* 0x00ff00 *);
          e_title := "ðŸ“‹ Session ID";
          e_description :=
            "`" +:+ match sessionId with Some i => i | None => "undefined" end +:+ "`";
          e_fields := [("Usage", "Copy this ID to use with `/claude session_id:...`")] |};
     u_buttons := [] |}.

(** The update of [handleButton] when no handler took an expand button. *)
Definition notAvailableFallback : Update :=
  {| u_embed :=
       {| e_color := 16755200;
          e_title := "ðŸ“– Content Not Available";
          e_description := "The full content is no longer available for expansion.";
          e_fields := [] |};
     u_buttons := [] |}.

(** The loop over the command handlers for an expand button: the first
    handler with [handleButton] that does not throw ends it. *)
Fixpoint tryHandlers (handlers : list (string * CommandHandler)) (buttonId : string)
  : list Effect * bool :=
  match handlers with
  | [] => ([], false)
  | (_, None) :: rest => tryHandlers rest buttonId
  | (_, Some h) :: rest =>
      let r := h buttonId in
      match thrown r with
      | None => (DoUpdate <$> made r, true)
      | Some _ =>
          let '(effects, handled) := tryHandlers rest buttonId in
          ((DoUpdate <$> made r) ++ effects, handled)
      end
  end.

Section HandleButton.

Variable handlePaginationInteraction : string -> Paged.
Variable handlers : list (string * CommandHandler).
Variable buttonHandlers : gmap string Update.

(** [handleButton] for a button of a channel; [inCategory] is
    [isInCategory(interaction.channelId)]. Outside the category nothing
    happens; inside, the channel becomes the one output is routed to and
    the effects follow. A handler of [buttonHandlers] is the update it
    makes; the context is taken to deliver. *)
Definition handleButton (inCategory : bool) (customId : string)
  : option (list Effect) :=
  if negb inCategory then None
  else Some
   (let paged :=
      if startsWith "pagination:" customId
      then match handlePaginationInteraction customId with
           | Page u => Some [DoUpdate u]
           | NoPage => None
           | PageError => None
           end
      else None in
    let report :=
      if startsWith "pagination:" customId
      then match handlePaginationInteraction customId with
           | PageError => [DoReport "pagination"]
           | _ => []
           end
      else [] in
    match paged with
    | Some effects => effects
    | None =>
        report ++
        match buttonHandlers !! customId with
        | Some u => [DoUpdate u]
        | None =>
            if startsWith "continue:" customId then
              match buttonHandlers !! "continue" with
              | Some u => [DoUpdate u]
              | None => []
              end
            else if startsWith "copy-session:" customId then
              [DoUpdate (sessionIdUpdate (afterColon customId))]
            else if startsWith "expand:" customId then
              let '(effects, handled) := tryHandlers handlers customId in
              if handled then effects
              else effects ++ [DoUpdate notAvailableFallback]
            else
              match list_find (fun h => is_Some (snd h)) handlers with
              | Some (_, (_, Some h)) =>
                  let r := h customId in
                  (DoUpdate <$> made r) ++
                  match thrown r with
                  | Some e => [DoFollowUp (errorNote "Error handling button: " e)]
                  | None => []
                  end
              | _ => []
              end
        end
    end).

End HandleButton.

End Buttons.

(* ===================================================================== *)
(** ** The message listener and the prompt *)
(* ===================================================================== *)


Module Text.

(** [s.trim()], on ASCII text. *)
Definition trimString (s : string) : string :=
  string_of_list_ascii (Client.trim (list_ascii_of_string s)).

(** [s.split(c)] for a character [c] *)
Fixpoint splitOn (c : ascii) (s : string) : list string :=
  match s with
  | EmptyString => [EmptyString]
  | String a r =>
      if Ascii.eqb a c then EmptyString :: splitOn c r
      else match splitOn c r with
           | [] => [String a EmptyString]
           | h :: t => String a h :: t
           end
  end.

(** [s.endsWith(c)] for a character [c] *)
Fixpoint endsWithChar (c : ascii) (s : string) : bool :=
  match s with
  | EmptyString => false
  | String a EmptyString => Ascii.eqb a c
  | String _ r => endsWithChar c r
  end.

(** [s.slice(0, -1)] *)
Fixpoint dropLast (s : string) : string :=
  match s with
  | EmptyString => EmptyString
  | String _ EmptyString => EmptyString
  | String a r => String a (dropLast r)
  end.

End Text.

Module Listener.

Import Text.

(** *** discord/bot.ts: the message listener *)

Record Attachment := {
  contentType : option string;
  url : string;
  att_name : string;
}.

(** A message, by what the listener reads of it. *)
Record Message := {
  authorIsBot : bool;
  (** [isInCategory(message.channelId)] *)
  inCategory : bool;
  content : string;
  attachments : list Attachment;
  channelId : string;
  channelName : string;
}.

(** [a.contentType?.startsWith('image/')] *)
Definition isImage (a : Attachment) : bool :=
  match contentType a with
  | Some t => startsWith "image/" t
  | None => false
  end.

(** The arguments of the call of [onMessage]. *)
Record Relay := {
  r_content : string;
  r_channelId : string;
  r_channelName : string;
  r_imageUrls : option (list string);
  r_fileAttachments : option (list (string * string));
}.

(** The listener of [Events.MessageCreate]: the call of [onMessage] it
    makes, if it makes one. *)
Definition messageCreate (message : Message) : option Relay :=
  if authorIsBot message then None
  else if negb (inCategory message) then None
  else
    let content := trimString (content message) in
    let imageUrls := url <$> filter (fun a => isImage a) (attachments message) in
    let fileAttachments :=
      (fun a => (url a, att_name a))
        <$> filter (fun a => negb (isImage a)) (attachments message) in
    if negb (truthy content) && Nat.eqb (length imageUrls) 0
       && Nat.eqb (length fileAttachments) 0
    then None
    else Some {| r_content := content;
                 r_channelId := channelId message;
                 r_channelName := channelName message;
                 r_imageUrls :=
                   if Nat.ltb 0 (length imageUrls) then Some imageUrls else None;
                 r_fileAttachments :=
                   if Nat.ltb 0 (length fileAttachments)
                   then Some fileAttachments else None |}.

(** *** index.ts: the prompt of onMessage *)

Definition imageRef (p : string) : string := "[Attached image: " +:+ p +:+ "]".

(** The prompt [onMessage] builds; [downloadedPaths] are the files of the
    images that could be fetched and written, in the order of their urls.
    [onMessage] has no parameter for the other attachments. *)
Definition buildPrompt (messageContent : string) (imageUrls : option (list string))
    (downloadedPaths : list string) : string :=
  match imageUrls with
  | Some urls =>
      if Nat.ltb 0 (length urls) && Nat.ltb 0 (length downloadedPaths) then
        let imageRefs := join nl (imageRef <$> downloadedPaths) in
        if truthy messageContent
        then messageContent +:+ nl +:+ nl +:+ imageRefs
        else "Please look at this image and describe what you see."
             +:+ nl +:+ nl +:+ imageRefs
      else messageContent
  | None => messageContent
  end.

End Listener.

(* ===================================================================== *)
(** ** The environment file *)
(* ===================================================================== *)


Module Env.

Import Text.

(** *** index.ts: loadEnvFile *)

Definition equals : ascii := Ascii.ascii_of_nat 61.
Definition lf : ascii := Ascii.ascii_of_nat 10.
Definition squote : ascii := Ascii.ascii_of_nat 39.
Definition dquoteChar : ascii := Ascii.ascii_of_nat 34.

(** [trimmed.indexOf('=')] with the two [substring]s around it: the text
    before the first equals sign and the text after it. *)
Fixpoint breakAtEquals (s : string) : option (string * string) :=
  match s with
  | EmptyString => None
  | String a r =>
      if Ascii.eqb a equals then Some (EmptyString, r)
      else match breakAtEquals r with
           | Some (k, v) => Some (String a k, v)
           | None => None
           end
  end.

Definition startsWithChar (c : ascii) (s : string) : bool :=
  match s with
  | String a _ => Ascii.eqb a c
  | EmptyString => false
  end.

(** Remove surrounding quotes if present: [value.slice(1, -1)]. *)
Definition unquote (value : string) : string :=
  if (startsWithChar dquoteChar value && endsWithChar dquoteChar value)
     || (startsWithChar squote value && endsWithChar squote value)
  then match value with
       | String _ r => dropLast r
       | EmptyString => EmptyString
       end
  else value.

(** The key and the value of a line, for a line that has them. *)
Definition parseLine (line : string) : option (string * string) :=
  let trimmed := trimString line in
  if negb (truthy trimmed) || startsWith "#" trimmed then None
  else match breakAtEquals trimmed with
       | None => None
       | Some (k, v) => Some (trimString k, unquote (trimString v))
       end.

Section Runtime.

(** The keys and values [Deno.env] refuses with a TypeError. *)
Variables (badKey badValue : string -> bool).

(** [Deno.env.get(key)]: nothing when it throws. *)
Definition envGet (env : gmap string string) (key : string) : option (option string) :=
  if badKey key then None else Some (env !! key).

(** [Deno.env.set(key, value)]: nothing when it throws. *)
Definition envSet (env : gmap string string) (key value : string)
  : option (gmap string string) :=
  if badKey key || badValue value then None else Some (<[key := value]> env).

(** The loop over the lines. An exception of [Deno.env] leaves the loop
    for the catch block of [loadEnvFile]; what was set stays set. The
    flag tells whether the loop came to its end. *)
Fixpoint loadLines (lines : list string) (env : gmap string string)
  : gmap string string * bool :=
  match lines with
  | [] => (env, true)
  | line :: rest =>
      match parseLine line with
      | None => loadLines rest env
      | Some (key, value) =>
          match envGet env key with
          | None => (env, false)
          | Some current =>
              if negb (Client.js_truthy current) && truthy key && truthy value
              then match envSet env key value with
                   | Some env' => loadLines rest env'
                   | None => (env, false)
                   end
              else loadLines rest env
          end
      end
  end.

(** [loadEnvFile]; [file] is the text of .env in the working directory,
    none when there is no such file or it cannot be read. *)
Definition loadEnvFile (file : option string) (env : gmap string string)
  : gmap string string :=
  match file with
  | Some content => fst (loadLines (splitOn lf content) env)
  | None => env
  end.

End Runtime.

(** A printable ASCII character other than the space: no white space of
    JavaScript, whose [trim] leaves it where it is. *)
Definition visible (a : ascii) : Prop := 32 < nat_of_ascii a < 127.

End Env.

(* ===================================================================== *)
(** ** Further scenarios *)
(* ===================================================================== *)


Module StreamSamples.

Import Client.

(** The message that closes a turn. *)
Definition result1 : SDKMessage :=
  {| m_type := "result"; m_text := None; m_session_id := Some "s1";
     m_total_cost_usd := Some 3%N; m_duration_ms := Some 1200%N |}.

(** An answer and the result of the turn, then the stream is done. *)
Definition answers : Stream :=
  {| events := [(500%N, Yield Scenario.hello); (500%N, Yield result1)];
     ending := (10%N, Done) |}.

(** A line of stderr, then the stream is done without a message. *)
Definition mute : Stream :=
  {| events := [(100%N, Stderr "warning")]; ending := (10%N, Done) |}.

End StreamSamples.

Module SessionSamples.
Import Bot Scenario.

(** A session file with the session of channel A. *)
Definition fileA : gmap string (string * option string) :=
  {[ "A" := ("s0", Some "alpha") ]}.

(** Channel A with the task for [m0] cancelled and not yet settled. *)
Definition cancelledA (rv : Revision) : State :=
  snd (cancel 9 (Some "A") (busyA rv)).

End SessionSamples.

Module InputSamples.
Import Listener.

(** A message that carries a text file and no text. *)
Definition fileOnly : Message :=
  {| authorIsBot := false; inCategory := true; content := " ";
     attachments := [{| contentType := Some "text/plain";
                        url := "https://cdn.example/notes.txt";
                        att_name := "notes.txt" |}];
     channelId := "A"; channelName := "alpha" |}.

(** Channel A at rest: the task for [m0] is over and left the session id
    s0. *)
Definition restingA (rv : Bot.Revision) : Bot.State :=
  Bot.run rv (Scenario.busyA rv)
    [Bot.Settle 0 (Bot.Resolved (Scenario.done_with (Some "s0")) 2); Bot.Drain 0].

(** [Deno.env] refuses the empty key. *)
Definition emptyKey (key : string) : bool := negb (truthy key).

Definition anyValue (value : string) : bool := false.

End InputSamples.

(* ===================================================================== *)
(** * Facts *)
(* ===================================================================== *)

(** ** The streaming client *)

Section ClientFacts.

Import Client.

Lemma elapse_stderrLines d r : stderrLines (elapse d r) = stderrLines r.
Proof.
  unfold elapse, expire_current, expire_stale, callback.
  repeat case_match; reflexivity.
Qed.

Lemma elapse_forever_stderrLines r : stderrLines (elapse_forever r) = stderrLines r.
Proof. unfold elapse_forever, callback. repeat case_match; reflexivity. Qed.

(** A message counted and accepted changes neither the signal of the
    controller, nor the stale timer, nor the stderr lines. *)
Lemma yield_aborted onChunk onStreamJson m r :
  aborted (accept onChunk onStreamJson m (resetActivityTimeout (count_message r)))
  = aborted r.
Proof.
  unfold resetActivityTimeout. cbn [set_timer count_message aborted].
  destruct (aborted r) eqn:E; simpl; rewrite ?E; done.
Qed.

Lemma reset_aborted r : aborted (resetActivityTimeout (count_message r)) = aborted r.
Proof.
  unfold resetActivityTimeout. cbn [set_timer count_message aborted].
  destruct (aborted r) eqn:E; simpl; rewrite ?E; done.
Qed.

Lemma yield_stale onChunk onStreamJson m r :
  stale (accept onChunk onStreamJson m (resetActivityTimeout (count_message r)))
  = stale r.
Proof.
  unfold resetActivityTimeout. cbn [set_timer count_message aborted].
  destruct (aborted r) eqn:E; simpl; rewrite ?E; done.
Qed.

Lemma yield_stderrLines onChunk onStreamJson m r :
  stderrLines (accept onChunk onStreamJson m (resetActivityTimeout (count_message r)))
  = stderrLines r.
Proof.
  unfold resetActivityTimeout. cbn [set_timer count_message aborted].
  destruct (aborted r) eqn:E; simpl; rewrite ?E; done.
Qed.

Lemma yield_timeouts onChunk onStreamJson m r :
  timeouts (accept onChunk onStreamJson m (resetActivityTimeout (count_message r)))
  = timeouts r.
Proof.
  unfold resetActivityTimeout. cbn [set_timer count_message aborted].
  destruct (aborted r) eqn:E; simpl; rewrite ?E; done.
Qed.

Lemma yield_timeoutId onChunk onStreamJson m r :
  aborted r = false ->
  timeoutId (accept onChunk onStreamJson m (resetActivityTimeout (count_message r)))
  = Some {| t_kind := Activity; t_left := ACTIVITY_TIMEOUT |}.
Proof. intros A. unfold resetActivityTimeout. simpl. by rewrite A. Qed.

Lemma loop_stderrLines onChunk onStreamJson mo evs e : forall r o r',
  loop onChunk onStreamJson mo evs e r = (o, r') ->
  exists extra, stderrLines r' = stderrLines r ++ extra.
Proof.
  induction evs as [|[d ev] evs IH]; intros r o r' H; simpl in H.
  - exists []. rewrite app_nil_r. unfold finish in H.
    destruct (snd e) as [|err|]; [| destruct (isAbortError err (elapse (fst e) r)) |];
      inversion H; subst; simpl; rewrite ?elapse_forever_stderrLines; apply elapse_stderrLines.
  - destruct ev as [data| |m].
    + apply IH in H as [extra H]. exists (data :: extra).
      rewrite H. simpl. rewrite elapse_stderrLines. by rewrite <- app_assoc.
    + apply IH in H as [extra H]. exists extra. rewrite H. simpl. by rewrite elapse_stderrLines.
    + destruct (aborted (resetActivityTimeout (count_message (elapse d r)))) eqn:A.
      * inversion H; subst. exists []. rewrite app_nil_r.
        rewrite reset_aborted in A. unfold resetActivityTimeout. simpl. rewrite A. simpl.
        apply elapse_stderrLines.
      * apply IH in H as [extra H]. exists extra. rewrite H.
        by rewrite yield_stderrLines, elapse_stderrLines.
Qed.

(** What [executeWithErrorHandling] throws is no abort, and carries the
    stderr output captured so far. *)
Lemma loop_thrown onChunk onStreamJson mo evs e : forall r err r',
  loop onChunk onStreamJson mo evs e r = (ExecThrown err, r') ->
  isAbortError err r' = false
  /\ aborted r' = false
  /\ e_stderrOutput err = Some (join nl (stderrLines r')).
Proof.
  induction evs as [|[d ev] evs IH]; intros r err r' H; simpl in H.
  - unfold finish in H. destruct (snd e) as [|x|]; [discriminate| |discriminate].
    destruct (isAbortError x (elapse (fst e) r)) eqn:A; [discriminate|].
    inversion H; subst. split; [exact A|]. split; [|done].
    unfold isAbortError in A. apply orb_false_iff in A as [A _].
    by apply orb_false_iff in A as [_ A].
  - destruct ev as [data| |m]; try (by eapply IH).
    destruct (aborted (resetActivityTimeout (count_message (elapse d r)))); [discriminate|].
    by eapply IH.
Qed.


Lemma inOperatorError_not_exit1 : isExitCode1 inOperatorError = false.
Proof. vm_compute. reflexivity. Qed.

Lemma queryOptions_retry workDir prompt sid cont mo root :
  q_model (queryOptions workDir prompt sid cont mo root (Some FALLBACK_MODEL) true)
  = Some FALLBACK_MODEL
  /\ q_resume (queryOptions workDir prompt sid cont mo root (Some FALLBACK_MODEL) true)
     = None
  /\ q_prompt (queryOptions workDir prompt sid cont mo root (Some FALLBACK_MODEL) true)
     = prompt.
Proof.
  unfold queryOptions. simpl. rewrite andb_false_r. done.
Qed.

(** C4. A task is tried again exactly when its first attempt throws an
    error with the exit-code-1 signature: not when the attempt returned,
    completed or cancelled, and not when the controller was aborted, by a
    cancel or by a timer. There is one retry at most; it asks for the fixed
    fallback model and no session resumption, whatever session id was
    given. When the retry throws as well, that error is thrown on with the
    note that both attempts failed and with the stderr output of the first
    attempt followed by that of the second. *)
Theorem exit_code_1_retried_once
    claudeQuery workDir prompt ab sid onChunk onStreamJson cont mo root :
  let send := sendToClaudeCode claudeQuery workDir prompt ab sid onChunk
                onStreamJson cont mo root in
  let exec := executeWithErrorHandling claudeQuery workDir prompt ab sid onChunk
                onStreamJson cont mo root in
  let q1 := fst (exec 0 None None false) in
  let o1 := fst (snd (exec 0 None None false)) in
  let r1 := snd (snd (exec 0 None None false)) in
  let retry := exec 1 (Some r1) (Some FALLBACK_MODEL) true in
  (queries send = [q1] \/ queries send = [q1; fst retry])
  /\ (queries send = [q1; fst retry]
      <-> exists e, o1 = ExecThrown e /\ isExitCode1 e = true)
  /\ (aborted r1 = true -> queries send = [q1])
  /\ (forall res, o1 = ExecReturned res -> queries send = [q1])
  /\ (q_model (fst retry) = Some FALLBACK_MODEL
      /\ q_resume (fst retry) = None
      /\ q_prompt (fst retry) = prompt)
  /\ (forall e1 e2 r2,
        o1 = ExecThrown e1 -> isExitCode1 e1 = true ->
        snd retry = (ExecThrown e2, r2) ->
        exists extra,
          stderrLines r2 = stderrLines r1 ++ extra
          /\ e_stderrOutput e1 = Some (join nl (stderrLines r1))
          /\ outcome send
             = Thrown {| e_name := e_name e2;
                         e_message := e_message e2 +:+ BOTH_FAILED;
                         e_stderrOutput := Some (join nl (stderrLines r1 ++ extra)) |}).
Proof.
  intros send exec q1 o1 r1 retry.
  assert (send = match o1 with
                 | ExecReturned result =>
                     if r_aborted result then
                       {| queries := [q1];
                          outcome := Returned (cancelled (Some (r_modelUsed result))
                                                 (Some (r_stderrOutput result)));
                          final := r1 |}
                     else match last (r_messages result) with
                          | Some lastMessage =>
                              {| queries := [q1];
                                 outcome := Returned (completed result lastMessage
                                                        (Some (r_stderrOutput result)));
                                 final := r1 |}
                          | None => firstFailed claudeQuery workDir prompt ab sid onChunk
                                      onStreamJson cont mo root q1 inOperatorError r1
                          end
                 | ExecThrown error =>
                     firstFailed claudeQuery workDir prompt ab sid onChunk
                       onStreamJson cont mo root q1 error r1
                 | ExecHung => {| queries := [q1]; outcome := Hung; final := r1 |}
                 end) as Hsend.
  { subst send q1 o1 r1. unfold sendToClaudeCode.
    destruct (exec 0 None None false) as [q [o r]] eqn:E. subst exec. rewrite E. reflexivity. }
  assert (forall error,
             firstFailed claudeQuery workDir prompt ab sid onChunk onStreamJson
               cont mo root q1 error r1
             = if isExitCode1 error then
                 {| queries := [q1; fst retry];
                    outcome := outcome (firstFailed claudeQuery workDir prompt ab sid
                                 onChunk onStreamJson cont mo root q1 error r1);
                    final := snd (snd retry) |}
               else {| queries := [q1]; outcome := Thrown error; final := r1 |}) as Hfirst.
  { intros error. unfold firstFailed. destruct (isExitCode1 error); [|done].
    subst retry. fold exec.
    destruct (exec 1 (Some r1) (Some FALLBACK_MODEL) true) as [q2 [o2 r2]]. reflexivity. }
  assert (firstFailed claudeQuery workDir prompt ab sid onChunk onStreamJson
            cont mo root q1 inOperatorError r1
          = {| queries := [q1]; outcome := Thrown inOperatorError; final := r1 |}) as Hin
    by (rewrite Hfirst, inOperatorError_not_exit1; reflexivity).
  assert (forall e, o1 = ExecThrown e -> aborted r1 = false) as Hlive.
  { intros e He. subst o1 r1 exec. unfold executeWithErrorHandling in He |- *.
    cbn [fst snd] in He |- *.
    destruct (loop onChunk onStreamJson _ _ _ (start ab None)) as [o r] eqn:L.
    cbn [fst snd] in He |- *. subst o.
    by destruct (loop_thrown _ _ _ _ _ _ _ _ L) as (_ & ? & _). }
  split; [|split; [|split; [|split; [|split]]]].
  - rewrite Hsend. destruct o1 as [res|e|]; [| |by left].
    + destruct (r_aborted res); [by left|]. destruct (last (r_messages res)); [by left|].
      rewrite Hin. by left.
    + rewrite Hfirst. destruct (isExitCode1 e); [by right|by left].
  - rewrite Hsend. split.
    + destruct o1 as [res|e|]; [| |discriminate].
      * destruct (r_aborted res); [discriminate|].
        destruct (last (r_messages res)); [discriminate|]. rewrite Hin. discriminate.
      * rewrite Hfirst. destruct (isExitCode1 e) eqn:X; [eauto|discriminate].
    + intros (e & -> & X). by rewrite Hfirst, X.
  - intros A. rewrite Hsend. destruct o1 as [res|e|] eqn:O; [| |done].
    + destruct (r_aborted res); [done|]. destruct (last (r_messages res)); [done|].
      by rewrite Hin.
    + rewrite (Hlive e eq_refl) in A. discriminate.
  - intros res ->. rewrite Hsend.
    destruct (r_aborted res); [done|]. destruct (last (r_messages res)); [done|].
    by rewrite Hin.
  - subst retry exec. unfold executeWithErrorHandling. cbn [fst].
    apply queryOptions_retry.
  - intros e1 e2 r2 O X R. rewrite Hsend, O. unfold firstFailed. rewrite X.
    subst retry. fold exec. destruct (exec 1 (Some r1) (Some FALLBACK_MODEL) true)
      as [q2 [o2 r2']] eqn:E2. cbn [snd] in R. inversion R; subst o2 r2'. cbn [outcome].
    subst exec. unfold executeWithErrorHandling in E2. inversion E2 as [[Q L]].
    destruct (loop_thrown _ _ _ _ _ _ _ _ L) as (NA & _ & S2).
    destruct (loop_stderrLines _ _ _ _ _ _ _ _ L) as [extra P].
    exists extra. split; [exact P|]. split.
    + subst o1 r1. unfold executeWithErrorHandling in O |- *. cbn [fst snd] in O |- *.
      destruct (loop _ _ _ _ _ (start ab None)) as [o r] eqn:L1. cbn [fst snd] in O |- *.
      subst o. by destruct (loop_thrown _ _ _ _ _ _ _ _ L1) as (_ & _ & ?).
    + unfold retryFailed. rewrite NA. do 2 f_equal. rewrite S2, P. reflexivity.
Qed.


(** *** Timers *)

Lemma callback_fire k L T r :
  armed k L T r -> fired k T (callback k (messageCount r) (set_timer None r)).
Proof.
  intros (Ht & Ha & Hs & Hr & Hc). unfold callback, fired.
  destruct k; cbn [set_timer aborted]; rewrite Ha; [rewrite (Hc eq_refl)|];
    simpl; rewrite Hr; done.
Qed.

Lemma elapse_fire k L T d r :
  armed k L T r -> (L <= d)%N -> fired k T (elapse d r).
Proof.
  intros A Hd. pose proof A as (Ht & Ha & Hs & Hr & Hc).
  unfold elapse. rewrite Hs. unfold expire_stale. rewrite Hs.
  unfold expire_current. rewrite Ht. cbn [t_left t_kind].
  apply N.leb_le in Hd. rewrite Hd. by eapply callback_fire.
Qed.

Lemma elapse_wait k L T d r :
  armed k L T r -> (d < L)%N -> armed k (L - d) T (elapse d r).
Proof.
  intros (Ht & Ha & Hs & Hr & Hc) Hd.
  unfold elapse. rewrite Hs. unfold expire_stale. rewrite Hs.
  unfold expire_current. rewrite Ht. cbn [t_left t_kind].
  apply N.leb_gt in Hd. rewrite Hd. done.
Qed.

Lemma elapse_fired k T d r : fired k T r -> elapse d r = r.
Proof.
  intros (Ht & Ha & Hs & Hr). unfold elapse. rewrite Hs.
  unfold expire_stale. rewrite Hs. unfold expire_current. by rewrite Ht.
Qed.

Lemma elapse_forever_fired k T r : fired k T r -> elapse_forever r = r.
Proof. intros (Ht & Ha & Hs & Hr). unfold elapse_forever. by rewrite Hs, Ht. Qed.

Lemma elapse_forever_fire k L T r :
  armed k L T r -> fired k T (elapse_forever r).
Proof.
  intros A. pose proof A as (Ht & Ha & Hs & Hr & Hc).
  unfold elapse_forever. rewrite Hs, Ht. cbn [t_kind]. by eapply callback_fire.
Qed.

(** Once a timer has aborted the controller the attempt returns as
    aborted, if the stream ends at all. *)
Lemma loop_fired onChunk onStreamJson mo k T evs e : forall r o r',
  fired k T r ->
  loop onChunk onStreamJson mo evs e r = (o, r') ->
  fired k T r'
  /\ (o = ExecHung
      \/ exists res, o = ExecReturned res /\ r_aborted res = true
                     /\ r_stderrOutput res = join nl (stderrLines r')).
Proof.
  induction evs as [|[d ev] evs IH]; intros r o r' F H; simpl in H.
  - rewrite (elapse_fired k T _ r F) in H. unfold finish in H.
    pose proof F as (Ht & Ha & Hs & Hr).
    destruct (snd e) as [|err|].
    + inversion H; subst. split; [done|]. right. eexists. split; [done|].
      simpl. by rewrite Ha.
    + assert (isAbortError err r = true) as X
        by (unfold isAbortError; rewrite Ha; by rewrite orb_true_r).
      rewrite X in H. inversion H; subst. split; [done|]. right. eexists. done.
    + inversion H; subst. rewrite (elapse_forever_fired k T r) by done.
      split; [done|by left].
  - rewrite (elapse_fired k T _ r F) in H.
    pose proof F as (Ht & Ha & Hs & Hr).
    destruct ev as [data| |m].
    + eapply IH; [|exact H]. done.
    + eapply IH; [|exact H]. done.
    + assert (aborted (resetActivityTimeout (count_message r)) = true) as A
        by (unfold resetActivityTimeout; simpl; rewrite Ha; simpl; exact Ha).
      rewrite A in H. inversion H; subst.
      unfold resetActivityTimeout. simpl. rewrite Ha. simpl.
      split; [done|]. right. eexists. split; [done|]. simpl. by rewrite Ha.
Qed.

(** A timer with no more to go than the delay before the next event
    fires, and the attempt returns as aborted. *)
Lemma loop_fires onChunk onStreamJson mo k L T evs e r o r' :
  armed k L T r -> (L <= next_delay evs e)%N ->
  loop onChunk onStreamJson mo evs e r = (o, r') ->
  fired k T r'
  /\ (o = ExecHung
      \/ exists res, o = ExecReturned res /\ r_aborted res = true
                     /\ r_stderrOutput res = join nl (stderrLines r')).
Proof.
  intros A Hd H.
  assert (forall d, (L <= d)%N -> fired k T (elapse d r)) as F
    by (intros d ?; by eapply elapse_fire).
  destruct evs as [|[d ev] evs]; simpl in Hd.
  - apply (loop_fired onChunk onStreamJson mo k T [] (0%N, snd e) (elapse (fst e) r)).
    + by apply F.
    + simpl. rewrite (elapse_fired k T 0 _ (F _ Hd)). exact H.
  - apply (loop_fired onChunk onStreamJson mo k T ((0%N, ev) :: evs) e (elapse d r)).
    + by apply F.
    + simpl. rewrite (elapse_fired k T 0 _ (F _ Hd)). exact H.
Qed.

Lemma loop_stderrOnly onChunk onStreamJson mo qs rest e : forall r,
  stderrOnly qs = true ->
  loop onChunk onStreamJson mo (qs ++ rest) e r
  = loop onChunk onStreamJson mo rest e (play onChunk onStreamJson qs r).
Proof.
  induction qs as [|[d ev] qs IH]; intros r Q; [done|].
  simpl in Q. apply andb_true_iff in Q as [Q1 Q2]. destruct ev; try discriminate.
  simpl. by apply IH.
Qed.

Lemma play_fired onChunk onStreamJson k T qs : forall r,
  stderrOnly qs = true -> fired k T r -> fired k T (play onChunk onStreamJson qs r).
Proof.
  induction qs as [|[d ev] qs IH]; intros r Q F; [done|].
  simpl in Q. apply andb_true_iff in Q as [Q1 Q2]. destruct ev; try discriminate.
  simpl. rewrite (elapse_fired k T d r F). apply IH; [done|].
  destruct F as (Ht & Ha & Hs & Hr). done.
Qed.

(** A stretch of stderr output only: the pending timer runs down. *)
Lemma play_stderrOnly onChunk onStreamJson k T n qs : forall L r,
  stderrOnly qs = true -> armed k L T r -> (L <= delays qs + n)%N ->
  fired k T (play onChunk onStreamJson qs r)
  \/ exists L', armed k L' T (play onChunk onStreamJson qs r) /\ (L' <= n)%N.
Proof.
  induction qs as [|[d ev] qs IH]; intros L r Q A Hd.
  - right. exists L. simpl in Hd. split; [done|lia].
  - simpl in Q. apply andb_true_iff in Q as [Q1 Q2]. destruct ev as [data| |]; try discriminate.
    simpl in Hd |- *. destruct (N.le_gt_cases L d) as [Hle|Hgt].
    + left. apply play_fired; [done|].
      destruct (elapse_fire k L T d r A Hle) as (Ht & Ha & Hs & Hr). done.
    + apply (IH (L - d)%N); [done| |lia].
      destruct (elapse_wait k L T d r A Hgt) as (Ht & Ha & Hs & Hr & Hc). done.
Qed.

(** The stream goes silent for as long as the pending timer has to go:
    the timer aborts the controller and the attempt returns as aborted. *)
Lemma loop_silent onChunk onStreamJson mo k L T qs rest e r o r' :
  armed k L T r -> stderrOnly qs = true ->
  (L <= delays qs + next_delay rest e)%N ->
  loop onChunk onStreamJson mo (qs ++ rest) e r = (o, r') ->
  fired k T r'
  /\ (o = ExecHung
      \/ exists res, o = ExecReturned res /\ r_aborted res = true
                     /\ r_stderrOutput res = join nl (stderrLines r')).
Proof.
  intros A Q Hd H. rewrite loop_stderrOnly in H by done.
  destruct (play_stderrOnly onChunk onStreamJson k T (next_delay rest e) qs L r Q A Hd)
    as [F|(L' & A' & Hn)].
  - by eapply loop_fired.
  - by eapply loop_fires.
Qed.

Lemma play_app onChunk onStreamJson evs1 evs2 : forall r,
  play onChunk onStreamJson (evs1 ++ evs2) r
  = play onChunk onStreamJson evs2 (play onChunk onStreamJson evs1 r).
Proof. induction evs1 as [|[d ev] evs1 IH]; intros r; [done|]. simpl. apply IH. Qed.

Lemma elapse_aborted d r : aborted r = true -> aborted (elapse d r) = true.
Proof.
  intros A. unfold elapse, expire_current, expire_stale, callback.
  repeat case_match; simpl; done.
Qed.

Lemma play_aborted onChunk onStreamJson evs : forall r,
  aborted r = true -> aborted (play onChunk onStreamJson evs r) = true.
Proof.
  induction evs as [|[d ev] evs IH]; intros r A; [done|].
  simpl. apply IH. pose proof (elapse_aborted d r A) as A'.
  destruct ev; [exact A'|reflexivity|]. by rewrite yield_aborted.
Qed.

(** While the controller is not aborted the loop has not been left. *)
Lemma loop_play onChunk onStreamJson mo pre rest e : forall r,
  aborted (play onChunk onStreamJson pre r) = false ->
  loop onChunk onStreamJson mo (pre ++ rest) e r
  = loop onChunk onStreamJson mo rest e (play onChunk onStreamJson pre r).
Proof.
  induction pre as [|[d ev] pre IH]; intros r A; [done|].
  simpl in A |- *. destruct ev as [data| |m]; try (by apply IH).
  destruct (aborted (resetActivityTimeout (count_message (elapse d r)))) eqn:B.
  - rewrite play_aborted in A; [discriminate|]. by rewrite yield_aborted, <- reset_aborted.
  - by apply IH.
Qed.

Lemma elapse_stale d r : stale r = None -> stale (elapse d r) = None.
Proof.
  intros S. unfold elapse. rewrite S. unfold expire_stale. rewrite S.
  unfold expire_current, callback. repeat case_match; simpl; done.
Qed.

Lemma play_stale onChunk onStreamJson evs : forall r,
  stale r = None -> stale (play onChunk onStreamJson evs r) = None.
Proof.
  induction evs as [|[d ev] evs IH]; intros r S; [done|].
  simpl. apply IH. pose proof (elapse_stale d r S) as S'.
  destruct ev; [exact S'|exact S'|]. by rewrite yield_stale.
Qed.

(** After a message that the loop has accepted the activity timer is the
    one pending, with its full time to go. *)
Lemma play_yield_armed onChunk onStreamJson pre d m r :
  stale r = None ->
  aborted (play onChunk onStreamJson (pre ++ [(d, Yield m)]) r) = false ->
  armed Activity ACTIVITY_TIMEOUT
    (timeouts (play onChunk onStreamJson (pre ++ [(d, Yield m)]) r))
    (play onChunk onStreamJson (pre ++ [(d, Yield m)]) r).
Proof.
  intros S A. pose proof (play_stale onChunk onStreamJson (pre ++ [(d, Yield m)]) r S) as S'.
  rewrite play_app in A, S' |- *. cbn [play] in A, S' |- *.
  rewrite yield_aborted in A.
  split; [by apply yield_timeoutId|]. split; [by rewrite yield_aborted|].
  split; [exact S'|]. split; [done|discriminate].
Qed.

Lemma start_armed ab : ab = false -> armed Startup STARTUP_TIMEOUT [] (start ab None).
Proof. intros ->. unfold armed, start. simpl. done. Qed.


(** An attempt that came back aborted, or not at all, is the whole task. *)
Lemma send_first_aborted claudeQuery workDir prompt ab sid onChunk onStreamJson
    cont mo root o r1 :
  let q1 := queryOptions workDir prompt sid cont mo root None false in
  loop onChunk onStreamJson (q_model q1) (events (claudeQuery 0 q1))
    (ending (claudeQuery 0 q1)) (start ab None) = (o, r1) ->
  (o = ExecHung
   \/ exists res, o = ExecReturned res /\ r_aborted res = true
                  /\ r_stderrOutput res = join nl (stderrLines r1)) ->
  let send := sendToClaudeCode claudeQuery workDir prompt ab sid onChunk
                onStreamJson cont mo root in
  final send = r1 /\ queries send = [q1]
  /\ (outcome send = Hung
      \/ exists m, outcome send
                   = Returned (cancelled (Some m) (Some (join nl (stderrLines r1))))).
Proof.
  intros q1 L O send. subst send. unfold sendToClaudeCode, executeWithErrorHandling.
  fold q1. rewrite L. destruct O as [->|(res & -> & A & S)].
  - split; [done|]. split; [done|]. by left.
  - rewrite A. split; [done|]. split; [done|]. right. exists (r_modelUsed res).
    simpl. by rewrite S.
Qed.

(** C5, as the code has it. A task whose stream delivers no message for
    the 30 s of the startup deadline, or after a message none for the
    5 min of the activity deadline, has its controller aborted by the
    timer; [sendToClaudeCode] then makes no retry and, when the stream
    ends, resolves with the response of a cancelled request, which carries
    the stderr output captured: it does not throw, and reports no timeout
    error. *)
Theorem timeout_aborts_and_resolves_cancelled
    claudeQuery workDir prompt sid onChunk onStreamJson cont mo root :
  let send := sendToClaudeCode claudeQuery workDir prompt false sid onChunk
                onStreamJson cont mo root in
  let q1 := queryOptions workDir prompt sid cont mo root None false in
  let stream := claudeQuery 0 q1 in
  let cancelledWith := fun r : Run =>
    outcome send = Hung
    \/ exists m, outcome send
                 = Returned (cancelled (Some m) (Some (join nl (stderrLines r)))) in
  (forall qs rest,
      events stream = qs ++ rest -> stderrOnly qs = true ->
      (STARTUP_TIMEOUT <= delays qs + next_delay rest (ending stream))%N ->
      aborted (final send) = true /\ timeouts (final send) = [Startup]
      /\ queries send = [q1] /\ cancelledWith (final send))
  /\ (forall pre d m qs rest,
        events stream = (pre ++ [(d, Yield m)]) ++ qs ++ rest ->
        aborted (play onChunk onStreamJson (pre ++ [(d, Yield m)]) (start false None))
        = false ->
        stderrOnly qs = true ->
        (ACTIVITY_TIMEOUT <= delays qs + next_delay rest (ending stream))%N ->
        aborted (final send) = true
        /\ timeouts (final send)
           = timeouts (play onChunk onStreamJson (pre ++ [(d, Yield m)])
                         (start false None)) ++ [Activity]
        /\ queries send = [q1] /\ cancelledWith (final send)).
Proof.
  intros send q1 stream cancelledWith. split.
  - intros qs rest E Q Hd.
    destruct (loop onChunk onStreamJson (q_model q1) (events stream) (ending stream)
                (start false None)) as [o r1] eqn:L.
    pose proof L as L'. rewrite E in L'.
    destruct (loop_silent _ _ _ Startup STARTUP_TIMEOUT [] qs rest _ _ _ _
                (start_armed false eq_refl) Q Hd L') as ((Ht & Ha & Hs & Hr) & O).
    destruct (send_first_aborted claudeQuery workDir prompt false sid onChunk
                onStreamJson cont mo root o r1 L O) as (F & Qs & Out).
    fold send in F, Qs, Out. subst cancelledWith. cbv beta. rewrite F. done.
  - intros pre d m qs rest E A Q Hd.
    destruct (loop onChunk onStreamJson (q_model q1) (events stream) (ending stream)
                (start false None)) as [o r1] eqn:L.
    pose proof L as L'. rewrite E in L'. rewrite loop_play in L' by exact A.
    pose proof (play_yield_armed onChunk onStreamJson pre d m (start false None) eq_refl A)
      as Arm.
    destruct (loop_silent _ _ _ Activity ACTIVITY_TIMEOUT _ qs rest _ _ _ _ Arm Q Hd L')
      as ((Ht & Ha & Hs & Hr) & O).
    destruct (send_first_aborted claudeQuery workDir prompt false sid onChunk
                onStreamJson cont mo root o r1 L O) as (F & Qs & Out).
    fold send in F, Qs, Out. subst cancelledWith. cbv beta. rewrite F. done.
Qed.

Import Scenario.

Lemma exit_code_1_retried_once_witness :
  outcome (send failsTwice)
  = Thrown {| e_name := "Error";
              e_message := e_message exit1 +:+ BOTH_FAILED;
              e_stderrOutput := Some (join nl ["first"; "second"]) |}.
Proof.
  destruct (exit_code_1_retried_once failsTwice "/w/alpha" "p0" false (Some "s0")
              false true false None (Some "/w")) as (_ & _ & _ & _ & _ & H).
  specialize (H {| e_name := "Error"; e_message := e_message exit1;
                   e_stderrOutput := Some "first" |}
                {| e_name := "Error"; e_message := e_message exit1;
                   e_stderrOutput := Some (join nl ["first"; "second"]) |}).
  edestruct H as (extra & P & _ & O).
  - vm_compute. reflexivity.
  - vm_compute. reflexivity.
  - vm_compute. reflexivity.
  - unfold send. rewrite O. rewrite <- P. vm_compute. reflexivity.
Defined.

Lemma timeout_aborts_and_resolves_cancelled_witness :
  timeouts (final (send (fun _ _ => silent))) = [Startup]
  /\ timeouts (final (send (fun _ _ => stalled))) = [Activity].
Proof.
  split.
  - destruct (timeout_aborts_and_resolves_cancelled (fun _ _ => silent) "/w/alpha" "p0"
                (Some "s0") false true false None (Some "/w")) as (H & _).
    destruct (H [(100%N, Stderr "starting")] [] eq_refl eq_refl) as (_ & T & _).
    + vm_compute. discriminate.
    + exact T.
  - destruct (timeout_aborts_and_resolves_cancelled (fun _ _ => stalled) "/w/alpha" "p0"
                (Some "s0") false true false None (Some "/w")) as (_ & H).
    destruct (H [] 1000%N hello [] [] eq_refl eq_refl eq_refl) as (_ & T & _).
    + vm_compute. discriminate.
    + exact T.
Defined.

(** C5, refuted as stated: a task silent for 30 s and a task stalled for
    5 min both resolve with the response of a cancelled request, the very
    value of a task the user cancelled; no timeout error is reported. *)
Lemma timeout_is_reported_as_cancellation :
  outcome (send (fun _ _ => silent))
  = Returned (cancelled (Some "Default") (Some "starting"))
  /\ timeouts (final (send (fun _ _ => silent))) = [Startup]
  /\ outcome (send (fun _ _ => stalled))
     = Returned (cancelled (Some "Default") (Some ""))
  /\ timeouts (final (send (fun _ _ => stalled))) = [Activity]
  /\ outcome (send (fun _ _ => cancelledByUser))
     = outcome (send (fun _ _ => silent))
  /\ timeouts (final (send (fun _ _ => cancelledByUser))) = [].
Proof. vm_compute. repeat split. Qed.

(** The catch block of an attempt clears no timer: the startup timer of a
    first attempt that failed after 1 s fires 29 s into the retry and
    aborts it, although the retry is not yet 30 s old. *)
Example startup_timer_of_first_attempt_aborts_retry :
  outcome (send slowRetry)
  = Returned (cancelled (Some FALLBACK_MODEL) None)
  /\ timeouts (final (send slowRetry)) = [Startup]
  /\ length (queries (send slowRetry)) = 2.
Proof. vm_compute. repeat split. Qed.

End ClientFacts.

(** ** The bot *)

Section BotFacts.

Import Bot.

Lemma queue_of_field ch s : queue_of ch s = field messageQueue [] ch s.
Proof. reflexivity. Qed.

Lemma sessionId_of_field ch s : sessionId_of ch s = field sessionId None ch s.
Proof. unfold sessionId_of, field. by destruct (channelSessions s !! ch). Qed.

Lemma controller_of_field ch s : controller_of ch s = field controller None ch s.
Proof. unfold controller_of, field. by destruct (channelSessions s !! ch). Qed.

Lemma getChannelSession_lookup ch n s :
  channelSessions (snd (getChannelSession ch n s)) !! ch
  = Some (fst (getChannelSession ch n s)).
Proof.
  unfold getChannelSession. destruct (channelSessions s !! ch) eqn:E; simpl.
  - exact E.
  - apply lookup_insert_eq.
Qed.

Lemma getChannelSession_found ch n s cs :
  channelSessions s !! ch = Some cs -> getChannelSession ch n s = (cs, s).
Proof. intros E. unfold getChannelSession. by rewrite E. Qed.

Lemma getChannelSession_field {A} (proj : ChannelSession -> A) dflt ch n s ch' :
  fresh_default proj dflt ->
  field proj dflt ch' (snd (getChannelSession ch n s)) = field proj dflt ch' s.
Proof.
  intros Hd. unfold getChannelSession, field.
  destruct (channelSessions s !! ch) eqn:E; simpl; [done|].
  destruct (decide (ch = ch')) as [->|Hne].
  - rewrite lookup_insert_eq, E. apply Hd.
  - by rewrite lookup_insert_ne.
Qed.

Lemma getChannelSession_fst_field {A} (proj : ChannelSession -> A) dflt ch n s :
  fresh_default proj dflt ->
  proj (fst (getChannelSession ch n s)) = field proj dflt ch s.
Proof.
  intros Hd. unfold getChannelSession, field.
  destruct (channelSessions s !! ch); simpl; [done|apply Hd].
Qed.

Lemma getChannelSession_rest ch n s :
  let s' := snd (getChannelSession ch n s) in
  activations s' = activations s /\ outputs s' = outputs s
  /\ signals s' = signals s /\ activeChannelId s' = activeChannelId s
  /\ workDir s' = workDir s /\ persisted s' = persisted s.
Proof.
  unfold getChannelSession. destruct (channelSessions s !! ch); simpl; done.
Qed.

Lemma getChannelSession_sessions ch n s ch' :
  is_Some (channelSessions s !! ch') ->
  is_Some (channelSessions (snd (getChannelSession ch n s)) !! ch').
Proof.
  unfold getChannelSession. destruct (channelSessions s !! ch) eqn:E; simpl; [done|].
  intros H. destruct (decide (ch = ch')) as [->|Hne].
  - rewrite lookup_insert_eq. eauto.
  - by rewrite lookup_insert_ne.
Qed.

(** An update of the session of a channel, seen through one field. *)
Lemma update_field {A} (proj : ChannelSession -> A) dflt
    (f : ChannelSession -> ChannelSession) a s cs s1 ch :
  fresh_default proj dflt ->
  getChannelSession a None s = (cs, s1) ->
  field proj dflt ch (set_sessions (<[a := f cs]> (channelSessions s1)) s1)
  = if decide (a = ch) then proj (f cs) else field proj dflt ch s.
Proof.
  intros Hd E. unfold field at 1; simpl. destruct (decide (a = ch)) as [->|Hne].
  - by rewrite lookup_insert_eq.
  - rewrite lookup_insert_ne by done.
    change (field proj dflt ch s1 = field proj dflt ch s).
    replace s1 with (snd (getChannelSession a None s)) by (by rewrite E).
    by apply getChannelSession_field.
Qed.

Lemma setController_field {A} (proj : ChannelSession -> A) dflt c s ch :
  fresh_default proj dflt ->
  (forall cs, proj (with_controller c cs) = proj cs) ->
  field proj dflt ch (setController c s) = field proj dflt ch s.
Proof.
  intros Hd Hf. unfold setController. destruct (active s) as [a|]; [|done].
  destruct (getChannelSession a None s) as [cs s1] eqn:E.
  rewrite (update_field proj dflt _ _ _ _ _ _ Hd E).
  case_decide as Ha; [subst|done].
  rewrite Hf. replace cs with (fst (getChannelSession ch None s)) by (by rewrite E).
  by apply getChannelSession_fst_field.
Qed.

Lemma setSessionId_field {A} (proj : ChannelSession -> A) dflt i s ch :
  fresh_default proj dflt ->
  (forall cs, proj (with_sessionId i cs) = proj cs) ->
  field proj dflt ch (setSessionId i s) = field proj dflt ch s.
Proof.
  intros Hd Hf. unfold setSessionId. destruct (active s) as [a|]; [|done].
  destruct (getChannelSession a None s) as [cs s1] eqn:E.
  change (field proj dflt ch (set_sessions (<[a := with_sessionId i cs]> (channelSessions s1)) s1)
          = field proj dflt ch s).
  rewrite (update_field proj dflt _ _ _ _ _ _ Hd E).
  case_decide as Ha; [subst|done].
  rewrite Hf. replace cs with (fst (getChannelSession ch None s)) by (by rewrite E).
  by apply getChannelSession_fst_field.
Qed.

Lemma getController_field {A} (proj : ChannelSession -> A) dflt s ch :
  fresh_default proj dflt ->
  field proj dflt ch (snd (getController s)) = field proj dflt ch s.
Proof.
  intros Hd. unfold getController. destruct (active s) as [a|]; [|done].
  destruct (getChannelSession a None s) as [cs s1] eqn:E. simpl.
  replace s1 with (snd (getChannelSession a None s)) by (by rewrite E).
  by apply getChannelSession_field.
Qed.

Lemma fresh_queue : fresh_default messageQueue [].
Proof. by intros w n. Qed.
Lemma fresh_sessionId : fresh_default sessionId None.
Proof. by intros w n. Qed.
Lemma fresh_controller : fresh_default controller None.
Proof. by intros w n. Qed.

(** The parts of the state a session update leaves alone. *)
Lemma setController_rest c s :
  activations (setController c s) = activations s
  /\ outputs (setController c s) = outputs s
  /\ signals (setController c s) = signals s
  /\ activeChannelId (setController c s) = activeChannelId s.
Proof.
  unfold setController. destruct (active s) as [a|]; [|done].
  pose proof (getChannelSession_rest a None s) as H.
  destruct (getChannelSession a None s) as [cs s1]. simpl in *. tauto.
Qed.

Lemma setSessionId_rest i s :
  activations (setSessionId i s) = activations s
  /\ outputs (setSessionId i s) = outputs s
  /\ signals (setSessionId i s) = signals s
  /\ activeChannelId (setSessionId i s) = activeChannelId s.
Proof.
  unfold setSessionId. destruct (active s) as [a|]; [|done].
  pose proof (getChannelSession_rest a None s) as H.
  destruct (getChannelSession a None s) as [cs s1]. simpl in *. tauto.
Qed.

Lemma getController_rest s :
  activations (snd (getController s)) = activations s
  /\ outputs (snd (getController s)) = outputs s
  /\ signals (snd (getController s)) = signals s
  /\ activeChannelId (snd (getController s)) = activeChannelId s.
Proof.
  unfold getController. destruct (active s) as [a|]; [|done].
  pose proof (getChannelSession_rest a None s) as H.
  destruct (getChannelSession a None s) as [cs s1]. simpl in *. tauto.
Qed.

Lemma setController_sessions c s ch :
  is_Some (channelSessions s !! ch) ->
  is_Some (channelSessions (setController c s) !! ch).
Proof.
  intros H. unfold setController. destruct (active s) as [a|]; [|done].
  pose proof (getChannelSession_sessions a None s ch H) as H'.
  destruct (getChannelSession a None s) as [cs s1]. simpl in *.
  destruct (decide (a = ch)) as [->|Hne].
  - rewrite lookup_insert_eq. eauto.
  - by rewrite lookup_insert_ne.
Qed.

Lemma setSessionId_sessions i s ch :
  is_Some (channelSessions s !! ch) ->
  is_Some (channelSessions (setSessionId i s) !! ch).
Proof.
  intros H. unfold setSessionId. destruct (active s) as [a|]; [|done].
  pose proof (getChannelSession_sessions a None s ch H) as H'.
  destruct (getChannelSession a None s) as [cs s1]. simpl in *.
  destruct (decide (a = ch)) as [->|Hne].
  - rewrite lookup_insert_eq. eauto.
  - by rewrite lookup_insert_ne.
Qed.

Lemma getController_sessions s ch :
  is_Some (channelSessions s !! ch) ->
  is_Some (channelSessions (snd (getController s)) !! ch).
Proof.
  intros H. unfold getController. destruct (active s) as [a|]; [|done].
  pose proof (getChannelSession_sessions a None s ch H) as H'.
  destruct (getChannelSession a None s) as [cs s1]. simpl in *. done.
Qed.

(** *** Quiet steps *)

Lemma quiet_refl s : quiet s s.
Proof. by split. Qed.

Lemma quiet_trans s1 s2 s3 : quiet s1 s2 -> quiet s2 s3 -> quiet s1 s3.
Proof.
  intros [A1 Q1 S1] [A2 Q2 S2]. split.
  - congruence.
  - intros ch. by rewrite Q2.
  - eauto.
Qed.

Lemma quiet_setController c s : quiet s (setController c s).
Proof.
  split.
  - apply setController_rest.
  - intros ch. rewrite !queue_of_field. by apply setController_field.
  - apply setController_sessions.
Qed.

Lemma quiet_setSessionId i s : quiet s (setSessionId i s).
Proof.
  split.
  - apply setSessionId_rest.
  - intros ch. rewrite !queue_of_field. by apply setSessionId_field.
  - apply setSessionId_sessions.
Qed.

Lemma quiet_getController s : quiet s (snd (getController s)).
Proof.
  split.
  - apply getController_rest.
  - intros ch. rewrite !queue_of_field. by apply getController_field.
  - apply getController_sessions.
Qed.

Lemma quiet_abortController c s : quiet s (abortController c s).
Proof. by split. Qed.

Lemma quiet_newController s : quiet s (snd (newController s)).
Proof. by split. Qed.

Lemma quiet_say o s : quiet s (say o s).
Proof. by split. Qed.


Lemma dispatched_app l1 l2 : dispatched (l1 ++ l2) = dispatched l1 ++ dispatched l2.
Proof. apply omap_app. Qed.

(** *** The two halves of onClaude *)

Lemma onClaude_begin_spec rv ctx p sid s :
  exists c s1,
    onClaude_begin rv deps ctx p sid None s
    = (c, getClaudeWorkDir s, say (Query ctx (getClaudeWorkDir s) p sid c) s1)
    /\ quiet s s1 /\ outputs s1 = outputs s.
Proof.
  unfold onClaude_begin. cbn [deps deps_workDir claudeController setClaudeController].
  assert (exists c s1,
    (let '(cur, s0) := getController s in
     let s2 := match cur with Some c0 => abortController c0 s0 | None => s0 end in
     let '(c, s3) := newController s2 in (c, setController (Some c) s3)) = (c, s1)
    /\ quiet s s1 /\ outputs s1 = outputs s) as (c & s1 & E & Q & O).
  { pose proof (quiet_getController s) as Q0.
    pose proof (getController_rest s) as (_ & O0 & _).
    destruct (getController s) as [cur s0]. simpl in Q0, O0.
    set (s2 := match cur with Some c0 => abortController c0 s0 | None => s0 end).
    assert (quiet s0 s2 /\ outputs s2 = outputs s0) as [Q2 O2]
      by (unfold s2; destruct cur; split; try done; apply quiet_abortController).
    exists (length (signals s2)), (setController (Some (length (signals s2))) (snd (newController s2))).
    split; [reflexivity|]. split.
    - eapply quiet_trans; [exact Q0|]. eapply quiet_trans; [exact Q2|].
      eapply quiet_trans; [apply quiet_newController|apply quiet_setController].
    - destruct (setController_rest (Some (length (signals s2))) (snd (newController s2)))
        as (_ & -> & _). simpl. congruence. }
  exists c, s1. split; [|done].
  cbv zeta in E. destruct rv; rewrite E; reflexivity.
Qed.

Lemma onClaude_end_spec rv ctx c cwd o s :
  returns rv o = true ->
  exists s1,
    onClaude_end rv deps ctx c cwd false o s = (Returns, s1)
    /\ quiet s s1 /\ dispatched (outputs s1) = dispatched (outputs s).
Proof.
  intros R. unfold onClaude_end.
  cbn [deps claudeController setClaudeController setClaudeSessionId].
  destruct rv, o as [r n|e|]; try discriminate R; eexists; (split; [reflexivity|]).
  - set (s1 := setController None (setSessionId (Client.sessionId r) s)).
    assert (quiet s s1) as Q
      by (eapply quiet_trans; [apply quiet_setSessionId|apply quiet_setController]).
    assert (outputs s1 = outputs s) as O.
    { unfold s1. destruct (setController_rest None (setSessionId (Client.sessionId r) s)) as (_ & -> & _).
      apply setSessionId_rest. }
    destruct (Client.sessionId r) as [i|]; [destruct (truthy i)|]; split; try done.
    + eapply quiet_trans; [exact Q|apply quiet_say].
    + simpl. rewrite dispatched_app, O. simpl. by rewrite app_nil_r.
    + by rewrite O.
    + by rewrite O.
  - set (s1 := setController None (setSessionId (Client.sessionId r) s)).
    assert (quiet s s1) as Q
      by (eapply quiet_trans; [apply quiet_setSessionId|apply quiet_setController]).
    assert (outputs s1 = outputs s) as O.
    { unfold s1. destruct (setController_rest None (setSessionId (Client.sessionId r) s)) as (_ & -> & _).
      apply setSessionId_rest. }
    destruct (Client.sessionId r) as [i|]; cbn [Client.js_truthy];
      [destruct (truthy i)|]; [| |]; try destruct (Nat.eqb n 0); split;
      try (eapply quiet_trans; [exact Q|apply quiet_say]); try exact Q;
      simpl; rewrite ?dispatched_app, O; simpl; by rewrite ?app_nil_r.
  - split.
    + eapply quiet_trans; [apply quiet_setController|apply quiet_say].
    + simpl. rewrite dispatched_app. destruct (setController_rest None s) as (_ & -> & _).
      simpl. by rewrite app_nil_r.
  - split.
    + eapply quiet_trans; [apply quiet_abortController|].
      eapply quiet_trans; [apply quiet_setController|apply quiet_say].
    + simpl. rewrite dispatched_app.
      destruct (setController_rest None (abortController c s)) as (_ & -> & _).
      simpl. by rewrite app_nil_r.
Qed.


(** *** settle and drain *)

Lemma settle_returns rv t o s a f fs :
  activations s !! t = Some a -> a_status a = Running -> a_frames a = f :: fs ->
  returns rv o = true ->
  let s' := settle rv t o s in
  activations s' !! t
  = Some {| a_channel := a_channel a; a_frames := a_frames a;
            a_controller := a_controller a;
            a_currentWorkDir := a_currentWorkDir a; a_status := Settled |}
  /\ (forall ch, queue_of ch s' = queue_of ch s)
  /\ (forall ch, is_Some (channelSessions s !! ch) -> is_Some (channelSessions s' !! ch))
  /\ dispatched (outputs s') = dispatched (outputs s).
Proof.
  intros Ht Hs Hf R. unfold settle. rewrite Ht, Hs, Hf.
  destruct (onClaude_end_spec rv (f_ctx f) (a_controller a) (a_currentWorkDir a) o s R)
    as (s1 & E & [QA QQ QS] & D).
  assert (t < length (activations s1)) as Hlt
    by (rewrite QA; eapply lookup_lt_Some; eauto).
  destruct rv, o; try discriminate R; rewrite E; simpl;
    (split; [by apply list_lookup_insert_eq|done]).
Qed.

Lemma drain_next rv t s a session next rest :
  activations s !! t = Some a -> a_status a = Settled ->
  channelSessions s !! a_channel a = Some session ->
  messageQueue session = next :: rest ->
  let s' := drain rv t s in
  (exists c cwd,
      activations s' !! t
      = Some {| a_channel := a_channel a; a_frames := frame_of next :: a_frames a;
                a_controller := c; a_currentWorkDir := cwd; a_status := Running |})
  /\ queue_of (a_channel a) s' = rest
  /\ is_Some (channelSessions s' !! a_channel a)
  /\ dispatched (outputs s') = dispatched (outputs s) ++ [next].
Proof.
  intros Ht Hs Hc Hq. unfold drain. rewrite Ht, Hs, Hc, Hq.
  set (s0 := set_active (Some (a_channel a))
               (set_sessions (<[a_channel a := with_queue rest session]> (channelSessions s)) s)).
  unfold processMessage_begin.
  match goal with |- context [onClaude_begin rv deps ?x ?p ?i None s0] =>
    destruct (onClaude_begin_spec rv x p i s0) as (c & s1 & E & [QA QQ QS] & O) end.
  rewrite E. simpl.
  assert (t < length (activations s1)) as Hlt
    by (rewrite QA; eapply lookup_lt_Some; eauto).
  split; [|split; [|split]].
  - eexists _, _. by apply list_lookup_insert_eq.
  - change (queue_of (a_channel a) s1 = rest). rewrite QQ.
    unfold queue_of, s0. simpl. by rewrite lookup_insert_eq.
  - apply QS. unfold s0. simpl. rewrite lookup_insert_eq. eauto.
  - rewrite dispatched_app, O. simpl. by destruct next.
Qed.

Lemma drain_running rv t s a :
  activations s !! t = Some a -> a_status a = Running -> drain rv t s = s.
Proof. intros Ht Hs. unfold drain. by rewrite Ht, Hs. Qed.

Lemma run_app rv s es1 es2 : run rv s (es1 ++ es2) = run rv (run rv s es1) es2.
Proof. apply fold_left_app. Qed.

(** One more round: the running task settles, the next message starts. *)
Lemma drained_round rv t ch ms f0 fs before k o s :
  returns rv o = true -> k < length ms ->
  drained t ch ms (f0 :: fs) before k s ->
  drained t ch ms (f0 :: fs) before (S k) (run rv s [Settle t o; Drain t]).
Proof.
  intros R Hk ((c & cwd & Ha) & Hq & Hs & Hd). simpl.
  destruct (rev (map frame_of (take k ms)) ++ f0 :: fs) as [|f fs'] eqn:Ef.
  { by destruct (rev (map frame_of (take k ms))). }
  destruct (settle_returns rv t o s _ f fs' Ha eq_refl eq_refl R) as (Ha1 & Hq1 & Hs1 & Hd1).
  simpl in Ha1.
  destruct (lookup_lt_is_Some_2 ms k Hk) as [next Hn].
  pose proof (Hs1 ch Hs) as [session Hsess].
  assert (messageQueue session = next :: drop (S k) ms) as Hmq.
  { pose proof (Hq1 ch) as Hq1c. unfold queue_of in Hq1c at 1. rewrite Hsess in Hq1c.
    rewrite Hq1c, Hq. by apply drop_S. }
  destruct (drain_next rv t _ _ session next _ Ha1 eq_refl Hsess Hmq)
    as ((c' & cwd' & Ha2) & Hq2 & Hs2 & Hd2).
  simpl in *. split; [|split; [|split]]; try done.
  - exists c', cwd'. rewrite Ha2. do 2 f_equal.
    rewrite (take_S_r _ _ _ Hn), map_app, rev_app_distr. simpl. by rewrite Ef.
  - rewrite Hd2, Hd1, Hd, (take_S_r _ _ _ Hn). by rewrite app_assoc.
Qed.

Lemma drained_rounds rv t ch ms f0 fs before os : forall k s,
  Forall (fun o => returns rv o = true) os -> k + length os <= length ms ->
  drained t ch ms (f0 :: fs) before k s ->
  drained t ch ms (f0 :: fs) before (k + length os) (run rv s (rounds t os)).
Proof.
  induction os as [|o os IH]; intros k s HF Hk Hd.
  - simpl. by rewrite Nat.add_0_r.
  - inversion HF as [|? ? Ho HF']; subst. simpl in Hk.
    change (rounds t (o :: os)) with ([Settle t o; Drain t] ++ rounds t os).
    rewrite run_app. replace (k + length (o :: os)) with (S k + length os) by (simpl; lia).
    apply IH; [done|lia|]. apply drained_round; [done|lia|done].
Qed.


(** *** Submission to a busy channel *)

Lemma arrive_existing ch name s session :
  channelSessions s !! ch = Some session ->
  onMessage_arrive ch name s = set_active (Some ch) s.
Proof.
  intros E. unfold onMessage_arrive.
  by rewrite (getChannelSession_found ch (Some name) (set_active (Some ch) s) session E).
Qed.

Lemma resume_busy rv ctx p ch s session :
  channelSessions s !! ch = Some session -> busy session s = true ->
  onMessage_resume rv ctx p ch s
  = (Queued (length (messageQueue session ++ [{| qm_ctx := ctx; qm_prompt := p |}])),
     say (SayQueued ctx (length (messageQueue session ++ [{| qm_ctx := ctx; qm_prompt := p |}])))
       (set_sessions
          (<[ch := with_queue (messageQueue session ++ [{| qm_ctx := ctx; qm_prompt := p |}]) session]>
             (channelSessions s)) s)).
Proof. intros E B. unfold onMessage_resume. by rewrite E, B. Qed.

Lemma submit_busy rv ch name m s session :
  channelSessions s !! ch = Some session -> busy session s = true ->
  let s' := run rv s (submit ch name m) in
  channelSessions s' !! ch = Some (with_queue (messageQueue session ++ [m]) session)
  /\ busy (with_queue (messageQueue session ++ [m]) session) s' = true
  /\ activations s' = activations s
  /\ dispatched (outputs s') = dispatched (outputs s).
Proof.
  intros E B. unfold submit, run. cbn [fold_left step].
  rewrite (arrive_existing ch name s session E).
  rewrite (resume_busy rv (qm_ctx m) (qm_prompt m) ch (set_active (Some ch) s) session E B).
  destruct m as [ctx p]. simpl. split; [|split; [|split]]; try done.
  - by rewrite lookup_insert_eq.
  - rewrite dispatched_app. simpl. by rewrite app_nil_r.
Qed.

Lemma submit_all_busy rv ch name ms : forall s session,
  channelSessions s !! ch = Some session -> busy session s = true ->
  let s' := run rv s (concat (map (submit ch name) ms)) in
  queue_of ch s' = messageQueue session ++ ms
  /\ is_Some (channelSessions s' !! ch)
  /\ activations s' = activations s
  /\ dispatched (outputs s') = dispatched (outputs s).
Proof.
  induction ms as [|m ms IH]; intros s session E B.
  - simpl. unfold queue_of. rewrite E, app_nil_r. eauto.
  - cbn [map concat]. rewrite run_app.
    destruct (submit_busy rv ch name m s session E B) as (E1 & B1 & A1 & D1).
    destruct (IH _ _ E1 B1) as (Q2 & S2 & A2 & D2).
    cbv zeta. rewrite Q2, A2, D2, A1, D1. simpl. rewrite <- app_assoc. done.
Qed.

(** The messages sent to a busy channel, then as many rounds as there are
    outcomes: the state the activation and the channel are in. *)
Lemma queued_then_drained rv s ch name t f0 fs c cwd session ms os :
  channelSessions s !! ch = Some session -> busy session s = true ->
  messageQueue session = [] ->
  activations s !! t
  = Some {| a_channel := ch; a_frames := f0 :: fs; a_controller := c;
            a_currentWorkDir := cwd; a_status := Running |} ->
  Forall (fun o => returns rv o = true) os -> length os <= length ms ->
  drained t ch ms (f0 :: fs) (dispatched (outputs s)) (length os)
    (run rv (run rv s (concat (map (submit ch name) ms))) (rounds t os)).
Proof.
  intros E B Hq Ha HF Hl.
  destruct (submit_all_busy rv ch name ms s session E B) as (Q1 & S1 & A1 & D1).
  apply (drained_rounds rv t ch ms f0 fs (dispatched (outputs s)) os 0); [done|simpl; lia|].
  split; [|split; [|split]].
  - exists c, cwd. rewrite A1. simpl. exact Ha.
  - rewrite Q1, Hq. by rewrite drop_0.
  - exact S1.
  - rewrite D1. simpl. by rewrite app_nil_r.
Qed.


Lemma onClaude_begin_field {A} (proj : ChannelSession -> A) dflt rv ctx p sid s ch :
  fresh_default proj dflt ->
  (forall c cs, proj (with_controller c cs) = proj cs) ->
  field proj dflt ch (snd (onClaude_begin rv deps ctx p sid None s))
  = field proj dflt ch s.
Proof.
  intros Hd Hf. unfold onClaude_begin.
  cbn [deps deps_workDir claudeController setClaudeController].
  assert (forall x : Controller * State,
    x = (let '(cur, s0) := getController s in
         let '(c, s3) := newController
            match cur with Some c0 => abortController c0 s0 | None => s0 end in
         (c, setController (Some c) s3)) ->
    field proj dflt ch (snd x) = field proj dflt ch s) as H.
  { intros x ->. pose proof (getController_field proj dflt s ch Hd) as G.
    destruct (getController s) as [cur s0]. simpl in G. simpl.
    rewrite setController_field by done. rewrite <- G. by destruct cur. }
  destruct rv;
    set (x := let '(cur, s0) := getController s in _);
    specialize (H x eq_refl); destruct x as [c s1]; exact H.
Qed.

(** * Theorems *)

(** ** Submission *)

(** C1. While the handle of a channel is set and not aborted, a message
    for it starts no task: it is appended to the queue of the channel and
    acknowledged with its position, counted from one, which is the length
    of the queue after the append. A task is started at once exactly when
    the channel is idle. *)
Theorem busy_submission_is_queued rv ctx prompt ch s session :
  channelSessions s !! ch = Some session ->
  let m := {| qm_ctx := ctx; qm_prompt := prompt |} in
  let ack := fst (onMessage_resume rv ctx prompt ch s) in
  let s' := snd (onMessage_resume rv ctx prompt ch s) in
  (busy session s = true ->
     ack = Queued (length (messageQueue session) + 1)
     /\ queue_of ch s' = messageQueue session ++ [m]
     /\ ack = Queued (length (queue_of ch s'))
     /\ outputs s' = outputs s ++ [SayQueued ctx (length (queue_of ch s'))]
     /\ activations s' = activations s
     /\ signals s' = signals s)
  /\ (busy session s = false ->
     ack = Dispatched (length (activations s))
     /\ length (activations s') = S (length (activations s))
     /\ dispatched (outputs s') = dispatched (outputs s) ++ [m]
     /\ queue_of ch s' = messageQueue session)
  /\ (forall t, ack = Dispatched t -> busy session s = false).
Proof.
  intros E m ack s'. split; [|split].
  - intros B. subst ack s'. rewrite (resume_busy rv ctx prompt ch s session E B).
    cbn [fst snd]. unfold queue_of. simpl. rewrite lookup_insert_eq. simpl.
    rewrite length_app. simpl. done.
  - intros B. subst ack s'. unfold onMessage_resume. rewrite E, B.
    unfold processMessage_begin.
    match goal with |- context [onClaude_begin rv deps ctx prompt ?i None s] =>
      destruct (onClaude_begin_spec rv ctx prompt i s) as (c & s1 & E1 & [QA QQ QS] & O) end.
    rewrite E1. cbn [fst snd]. simpl. rewrite QA. split; [done|].
    split; [by rewrite length_app; simpl; lia|]. split.
    + rewrite dispatched_app, O. done.
    + change (queue_of ch s1 = messageQueue session). rewrite QQ.
      unfold queue_of. by rewrite E.
  - intros t Hack. subst ack. unfold onMessage_resume in Hack. rewrite E in Hack.
    destruct (busy session s); [discriminate Hack|done].
Qed.

(** The order of the queue on the schedule without interruption, where
    every task settles and its [processMessage] resumes before anything
    else happens, and [onClaude] returns: messages sent to a busy channel
    are handed to the assistant in the order they were sent, none while
    the channel stays busy, then one for each task that settles. *)
Theorem queued_messages_fifo rv s ch name t f0 fs c cwd session ms os :
  channelSessions s !! ch = Some session -> busy session s = true ->
  messageQueue session = [] ->
  activations s !! t
  = Some {| a_channel := ch; a_frames := f0 :: fs; a_controller := c;
            a_currentWorkDir := cwd; a_status := Running |} ->
  Forall (fun o => returns rv o = true) os -> length os <= length ms ->
  let s1 := run rv s (concat (map (submit ch name) ms)) in
  let s2 := run rv s1 (rounds t os) in
  dispatched (outputs s1) = dispatched (outputs s)
  /\ queue_of ch s1 = ms
  /\ dispatched (outputs s2) = dispatched (outputs s) ++ take (length os) ms
  /\ queue_of ch s2 = drop (length os) ms
  /\ run rv s2 [Drain t] = s2.
Proof.
  intros E B Hq Ha HF Hl s1 s2. subst s1 s2.
  destruct (submit_all_busy rv ch name ms s session E B) as (Q1 & _ & _ & D1).
  destruct (queued_then_drained rv s ch name t f0 fs c cwd session ms os E B Hq Ha HF Hl)
    as ((c' & cwd' & Ha2) & Q2 & _ & D2).
  split; [exact D1|]. split; [by rewrite Q1, Hq|]. split; [exact D2|].
  split; [exact Q2|]. simpl. by apply (drain_running rv t _ _ Ha2).
Qed.

(** C8, as the code has it. The queue is drained by recursion: each queued
    message is processed by a call of [processMessage] nested in the one
    before, so while the [k]-th queued message runs, [k] more calls are
    pending than when the queue began to drain. *)
Theorem drain_nests_one_call_per_message rv s ch name t f0 fs c cwd session ms os :
  channelSessions s !! ch = Some session -> busy session s = true ->
  messageQueue session = [] ->
  activations s !! t
  = Some {| a_channel := ch; a_frames := f0 :: fs; a_controller := c;
            a_currentWorkDir := cwd; a_status := Running |} ->
  Forall (fun o => returns rv o = true) os -> length os <= length ms ->
  pending t (run rv (run rv s (concat (map (submit ch name) ms))) (rounds t os))
  = length os + pending t s.
Proof.
  intros E B Hq Ha HF Hl.
  destruct (queued_then_drained rv s ch name t f0 fs c cwd session ms os E B Hq Ha HF Hl)
    as ((c' & cwd' & Ha2) & _).
  unfold pending. rewrite Ha2, Ha. cbn [a_frames].
  rewrite length_app, length_rev, length_map, length_take. simpl. lia.
Qed.


(** ** Cancel *)

Lemma active_set ch s : truthy ch = true -> active (set_active (Some ch) s) = Some ch.
Proof. intros T. unfold active. simpl. by rewrite T. Qed.

Lemma getController_found ch s session :
  active s = Some ch -> channelSessions s !! ch = Some session ->
  getController s = (controller session, s).
Proof.
  intros A E. unfold getController. by rewrite A, (getChannelSession_found ch None s session E).
Qed.

Lemma setController_found c ch s session :
  active s = Some ch -> channelSessions s !! ch = Some session ->
  setController c s
  = set_sessions (<[ch := with_controller c session]> (channelSessions s)) s.
Proof.
  intros A E. unfold setController. by rewrite A, (getChannelSession_found ch None s session E).
Qed.

Lemma setSessionId_found i ch s session :
  active s = Some ch -> channelSessions s !! ch = Some session ->
  setSessionId i s
  = saveSessionState
      (set_sessions (<[ch := with_sessionId i session]> (channelSessions s)) s).
Proof.
  intros A E. unfold setSessionId. by rewrite A, (getChannelSession_found ch None s session E).
Qed.

(** What /cancel does to the session of its channel. *)
Lemma cancel_live ctx ch s session c :
  truthy ch = true -> channelSessions s !! ch = Some session ->
  controller session = Some c ->
  fst (cancel ctx (Some ch) s) = true
  /\ channelSessions (snd (cancel ctx (Some ch) s)) !! ch
     = Some {| controller := None; sessionId := None;
               channelWorkDir := channelWorkDir session;
               channelName := channelName session;
               messageQueue := messageQueue session |}
  /\ signals (snd (cancel ctx (Some ch) s)) = <[c := true]> (signals s)
  /\ activations (snd (cancel ctx (Some ch) s)) = activations s.
Proof.
  intros T E C. unfold cancel, setChannel, onClaudeCancel. cbn [Client.js_truthy].
  rewrite T. cbn [deps claudeController setClaudeController setClaudeSessionId].
  pose proof (active_set ch s T) as A0.
  rewrite (getController_found ch (set_active (Some ch) s) session A0 E), C.
  set (s1 := abortController c (set_active (Some ch) s)).
  assert (active s1 = Some ch) as A1 by exact A0.
  assert (channelSessions s1 !! ch = Some session) as E1 by exact E.
  rewrite (setController_found None ch s1 session A1 E1).
  set (s2 := set_sessions _ s1).
  assert (active s2 = Some ch) as A2 by exact A0.
  assert (channelSessions s2 !! ch = Some (with_controller None session)) as E2
    by (unfold s2; simpl; apply lookup_insert_eq).
  rewrite (setSessionId_found None ch s2 _ A2 E2).
  cbn [fst snd]. simpl. rewrite lookup_insert_eq. done.
Qed.

Lemma cancel_idle ctx ch s session :
  truthy ch = true -> channelSessions s !! ch = Some session ->
  controller session = None ->
  cancel ctx (Some ch) s = (false, say (SayCancel ctx false) (set_active (Some ch) s)).
Proof.
  intros T E C. unfold cancel, setChannel, onClaudeCancel. cbn [Client.js_truthy].
  rewrite T. cbn [deps claudeController setClaudeController setClaudeSessionId].
  rewrite (getController_found ch (set_active (Some ch) s) session (active_set ch s T) E).
  by rewrite C.
Qed.

(** /cancel on a channel the bot has not met: [getController] makes the
    session of the channel, named after its id. *)
Lemma cancel_unseen ctx ch s :
  truthy ch = true -> channelSessions s !! ch = None ->
  cancel ctx (Some ch) s
  = (false,
     say (SayCancel ctx false)
       (set_sessions
          (<[ch := {| controller := None; sessionId := None;
                      channelWorkDir := workDir s +:+ "/" +:+ ch;
                      channelName := Some ch; messageQueue := [] |}]>
             (channelSessions s))
          (set_active (Some ch) s))).
Proof.
  intros T E. unfold cancel, setChannel, onClaudeCancel. cbn [Client.js_truthy].
  rewrite T. cbn [deps claudeController setClaudeController setClaudeSessionId].
  unfold getController. rewrite (active_set ch s T).
  unfold getChannelSession. cbn [channelSessions set_active]. rewrite E.
  unfold Client.js_or. cbn [Client.js_truthy]. reflexivity.
Qed.

(** C3, as the code has it. /cancel on a channel whose handle is set
    answers cancelled, aborts the handle, clears the handle and the session
    id of the channel and leaves its queue as it is; the channel then
    accepts a new task at once. On a channel whose handle is not set it
    answers not cancelled and changes no signal, activation or saved
    state; it changes no session either when the channel has one, and on
    a channel the bot has not met it makes the session of the channel,
    empty and with the folder named after the channel id, and changes no
    other. No count of discarded messages is returned. *)
Theorem cancel_clears_handle_keeps_queue ctx ch s :
  truthy ch = true ->
  let r := cancel ctx (Some ch) s in
  match channelSessions s !! ch with
  | Some session =>
      match controller session with
      | Some c =>
          fst r = true
          /\ channelSessions (snd r) !! ch
             = Some {| controller := None; sessionId := None;
                       channelWorkDir := channelWorkDir session;
                       channelName := channelName session;
                       messageQueue := messageQueue session |}
          /\ queue_of ch (snd r) = queue_of ch s
          /\ signals (snd r) = <[c := true]> (signals s)
          /\ (forall rv ctx' p,
                fst (onMessage_resume rv ctx' p ch (snd r))
                = Dispatched (length (activations s)))
      | None =>
          fst r = false
          /\ channelSessions (snd r) = channelSessions s
          /\ signals (snd r) = signals s
          /\ activations (snd r) = activations s
          /\ persisted (snd r) = persisted s
      end
  | None =>
      fst r = false
      /\ channelSessions (snd r)
         = <[ch := {| controller := None; sessionId := None;
                      channelWorkDir := workDir s +:+ "/" +:+ ch;
                      channelName := Some ch; messageQueue := [] |}]>
             (channelSessions s)
      /\ (forall other, other <> ch ->
            channelSessions (snd r) !! other = channelSessions s !! other)
      /\ signals (snd r) = signals s
      /\ activations (snd r) = activations s
      /\ persisted (snd r) = persisted s
  end.
Proof.
  intros T r. destruct (channelSessions s !! ch) as [session|] eqn:E.
  - destruct (controller session) as [c|] eqn:C.
    + destruct (cancel_live ctx ch s session c T E C) as (R1 & R2 & R3 & R4). subst r.
      split; [done|]. split; [done|]. split.
      { unfold queue_of. by rewrite R2, E. }
      split; [done|]. intros rv ctx' p.
      unfold onMessage_resume. rewrite R2. unfold busy. cbn [controller].
      unfold processMessage_begin.
      match goal with |- context [onClaude_begin rv deps ctx' p ?i None ?s0] =>
        destruct (onClaude_begin_spec rv ctx' p i s0) as (c' & s1 & E1 & [QA QQ QS] & O) end.
      rewrite E1. simpl. by rewrite QA, R4.
    + subst r. by rewrite (cancel_idle ctx ch s session T E C).
  - subst r. rewrite (cancel_unseen ctx ch s T E). cbn [fst snd].
    split; [done|]. split; [done|]. split; [|done].
    intros other Hne. simpl. by rewrite lookup_insert_ne.
Qed.

(** ** The session id *)

Lemma arrive_field {A} (proj : ChannelSession -> A) dflt c n s ch :
  fresh_default proj dflt ->
  field proj dflt ch (onMessage_arrive c n s) = field proj dflt ch s.
Proof.
  intros Hd. unfold onMessage_arrive.
  by rewrite (getChannelSession_field proj dflt c (Some n) (set_active (Some c) s) ch Hd).
Qed.

Lemma requeue_field {A} (proj : ChannelSession -> A) dflt c q s session ch :
  channelSessions s !! c = Some session ->
  proj (with_queue q session) = proj session ->
  field proj dflt ch (set_sessions (<[c := with_queue q session]> (channelSessions s)) s)
  = field proj dflt ch s.
Proof.
  intros E Hp. unfold field. simpl. destruct (decide (c = ch)) as [->|Hne].
  - by rewrite lookup_insert_eq, E.
  - by rewrite lookup_insert_ne.
Qed.

Lemma resume_sessionId rv ctx p c s ch :
  sessionId_of ch (snd (onMessage_resume rv ctx p c s)) = sessionId_of ch s.
Proof.
  rewrite !sessionId_of_field. unfold onMessage_resume.
  destruct (channelSessions s !! c) as [session|] eqn:E; [|done].
  destruct (busy session s).
  - cbn [snd]. change (field sessionId None ch
      (set_sessions (<[c := with_queue (messageQueue session ++ [{| qm_ctx := ctx; qm_prompt := p |}]) session]>
         (channelSessions s)) s) = field sessionId None ch s).
    by apply requeue_field.
  - unfold processMessage_begin.
    match goal with |- context [onClaude_begin rv deps ctx p ?i None s] =>
      pose proof (onClaude_begin_field sessionId None rv ctx p i s ch fresh_sessionId
                    (fun _ _ => eq_refl)) as H;
      destruct (onClaude_begin rv deps ctx p i None s) as [[c' cwd] s1] end.
    exact H.
Qed.

Lemma drain_sessionId rv t s ch :
  sessionId_of ch (drain rv t s) = sessionId_of ch s.
Proof.
  rewrite !sessionId_of_field. unfold drain.
  destruct (activations s !! t) as [a|]; [|done].
  destruct (a_status a); try done.
  destruct (channelSessions s !! a_channel a) as [session|] eqn:E; [|done].
  destruct (messageQueue session) as [|next rest]; [done|].
  unfold processMessage_begin.
  match goal with |- context [onClaude_begin rv deps ?x ?p ?i None ?s0] =>
    pose proof (onClaude_begin_field sessionId None rv x p i s0 ch fresh_sessionId
                  (fun _ _ => eq_refl)) as H;
    destruct (onClaude_begin rv deps x p i None s0) as [[c' cwd] s1] end.
  cbn [snd] in H. change (field sessionId None ch s1 = field sessionId None ch s).
  rewrite H. change (field sessionId None ch
      (set_sessions (<[a_channel a := with_queue rest session]> (channelSessions s)) s)
      = field sessionId None ch s).
  by apply requeue_field.
Qed.

Lemma settle_resolved_sessionId rv t r n s a f fs ch :
  activations s !! t = Some a -> a_status a = Running -> a_frames a = f :: fs ->
  active s = Some ch ->
  sessionId_of ch (settle rv t (Resolved r n) s) = Client.sessionId r.
Proof.
  intros Ht Hs Hf Ha. unfold settle. rewrite Ht, Hs, Hf.
  assert (sessionId_of ch (setController None (setSessionId (Client.sessionId r) s))
          = Client.sessionId r) as K.
  { rewrite sessionId_of_field.
    rewrite setController_field by (done || apply fresh_sessionId).
    unfold setSessionId. rewrite Ha.
    destruct (getChannelSession ch None s) as [cs s1] eqn:E.
    unfold field. simpl. by rewrite lookup_insert_eq. }
  unfold onClaude_end. cbn [deps claudeController setClaudeController setClaudeSessionId].
  destruct rv.
  - destruct (Client.sessionId r) as [i|] eqn:Ei; [destruct (truthy i)|]; exact K.
  - destruct (Client.sessionId r) as [i|] eqn:Ei; cbn [Client.js_truthy];
      [destruct (truthy i)|]; [| |]; try destruct (Nat.eqb n 0); exact K.
Qed.

(** C9, as the code has it. The session id stored for a channel changes
    only when a task settles, on /cancel and on /new. A task that settles
    with a response stores the session id of that response, which is none
    for a cancelled one; /cancel on a channel whose handle is set clears
    the stored id. *)
Theorem sessionId_written_by_settle_cancel_new :
  (forall rv s e ch,
      sessionId_of ch (step rv s e) <> sessionId_of ch s ->
      match e with
      | Settle _ _ | Cancel _ _ | New _ _ => True
      | _ => False
      end)
  /\ (forall rv t r n s a f fs,
        activations s !! t = Some a -> a_status a = Running ->
        a_frames a = f :: fs -> active s = Some (a_channel a) ->
        sessionId_of (a_channel a) (step rv s (Settle t (Resolved r n)))
        = Client.sessionId r)
  /\ (forall rv ctx ch s session c,
        truthy ch = true -> channelSessions s !! ch = Some session ->
        controller session = Some c ->
        sessionId_of ch (step rv s (Cancel ctx (Some ch))) = None).
Proof.
  split; [|split].
  - intros rv s e ch H. destruct e; try done; exfalso; apply H; cbn [step].
    + rewrite !sessionId_of_field. apply arrive_field, fresh_sessionId.
    + apply resume_sessionId.
    + apply drain_sessionId.
  - intros rv t r n s a f fs Ht Hs Hf Ha. cbn [step].
    by apply (settle_resolved_sessionId rv t r n s a f fs).
  - intros rv ctx ch s session c T E C. cbn [step].
    destruct (cancel_live ctx ch s session c T E C) as (_ & R2 & _).
    unfold sessionId_of. by rewrite R2.
Qed.


(** ** The timer of onClaude *)

(** In its second revision [onClaude] answers its own 30 s timer by
    aborting the controller and posting the timeout as an error; it
    returns to [processMessage]. *)
Lemma onClaude_timer_posts_error ctx c cwd s :
  let r := onClaude_end Rev2 deps ctx c cwd false TimedOut s in
  fst r = Returns
  /\ outputs (snd r) = outputs s ++ [SayError ctx (TIMEOUT_MESSAGE cwd)]
  /\ signals (snd r) = <[c := true]> (signals s).
Proof.
  cbn [onClaude_end deps setClaudeController fst snd].
  destruct (setController_rest None (abortController c s)) as (_ & O & S & _).
  split; [done|]. split.
  - cbn [say outputs]. by rewrite O.
  - cbn [say signals]. by rewrite S.
Qed.

(** ** The scenarios, evaluated *)

Import Scenario.

Lemma busyA_session rv :
  channelSessions (busyA rv) !! "A" = Some (sessionA (Some 0) None []).
Proof. destruct rv; vm_compute; reflexivity. Qed.

Lemma busyA_busy rv : busy (sessionA (Some 0) None []) (busyA rv) = true.
Proof. destruct rv; vm_compute; reflexivity. Qed.

Lemma busyA_activation rv :
  activations (busyA rv) !! 0
  = Some {| a_channel := "A"; a_frames := [frame_of m0]; a_controller := 0;
            a_currentWorkDir := "/w/alpha"; a_status := Running |}.
Proof. destruct rv; vm_compute; reflexivity. Qed.

Lemma busy_submission_is_queued_witness :
  fst (onMessage_resume Rev2 2 "p1" "A" (busyA Rev2)) = Queued 1.
Proof.
  destruct (busy_submission_is_queued Rev2 2 "p1" "A" (busyA Rev2) _ (busyA_session Rev2))
    as (H & _ & _).
  destruct (H (busyA_busy Rev2)) as (H1 & _). exact H1.
Defined.

Lemma queued_messages_fifo_witness :
  dispatched (outputs
    (run Rev1 (run Rev1 (busyA Rev1) (concat (map (submit "A" "alpha") [m1; m2])))
       (rounds 0 [Resolved (done_with (Some "s0")) 2; Resolved (done_with None) 0])))
  = [m0; m1; m2].
Proof.
  destruct (queued_messages_fifo Rev1 (busyA Rev1) "A" "alpha" 0 (frame_of m0) [] 0
              "/w/alpha" _ [m1; m2]
              [Resolved (done_with (Some "s0")) 2; Resolved (done_with None) 0]
              (busyA_session Rev1) (busyA_busy Rev1) eq_refl (busyA_activation Rev1))
    as (_ & _ & H & _).
  - repeat constructor.
  - simpl. lia.
  - exact H.
Defined.

Lemma drain_nests_one_call_per_message_witness :
  pending 0
    (run Rev2 (run Rev2 (busyA Rev2) (concat (map (submit "A" "alpha") [m1; m2])))
       (rounds 0 [TimedOut; Failed exit2]))
  = 3.
Proof.
  rewrite (drain_nests_one_call_per_message Rev2 (busyA Rev2) "A" "alpha" 0 (frame_of m0) [] 0
             "/w/alpha" _ [m1; m2] [TimedOut; Failed exit2]
             (busyA_session Rev2) (busyA_busy Rev2) eq_refl (busyA_activation Rev2)).
  - reflexivity.
  - repeat constructor.
  - simpl. lia.
Defined.

(** C8, refuted as stated: no constant bounds the number of pending calls
    of [processMessage]; a backlog of K+1 messages has K+2 pending. *)
Lemma drain_depth_not_constant :
  ~ exists K, forall ms os,
      Forall (fun o => returns Rev2 o = true) os -> length os <= length ms ->
      pending 0
        (run Rev2 (run Rev2 (busyA Rev2) (concat (map (submit "A" "alpha") ms)))
           (rounds 0 os)) <= K.
Proof.
  intros [K H].
  assert (Forall (fun o => returns Rev2 o = true) (replicate (S K) TimedOut)) as HF
    by (by apply Forall_replicate).
  assert (length (replicate (S K) TimedOut) <= length (replicate (S K) m1)) as Hl
    by (by rewrite !length_replicate).
  specialize (H (replicate (S K) m1) (replicate (S K) TimedOut) HF Hl).
  destruct (queued_then_drained Rev2 (busyA Rev2) "A" "alpha" 0 (frame_of m0) [] 0
              "/w/alpha" _ _ _ (busyA_session Rev2) (busyA_busy Rev2) eq_refl
              (busyA_activation Rev2) HF Hl) as ((c' & cwd' & Ha) & _).
  unfold pending in H. rewrite Ha in H. cbn [a_frames] in H.
  rewrite length_app, length_rev, length_map, length_take, !length_replicate in H.
  simpl in H. lia.
Qed.

Lemma backlogA_session :
  channelSessions (backlogA Rev2) !! "A" = Some (sessionA (Some 0) None [m1; m2]).
Proof. vm_compute. reflexivity. Qed.

Lemma backlogA_unseen : channelSessions (backlogA Rev2) !! "B" = None.
Proof. vm_compute. reflexivity. Qed.

Lemma cancel_clears_handle_keeps_queue_witness :
  queue_of "A" (snd (cancel 9 (Some "A") (backlogA Rev2))) = [m1; m2]
  /\ fst (cancel 9 (Some "B") (backlogA Rev2)) = false
  /\ channelSessions (snd (cancel 9 (Some "B") (backlogA Rev2))) !! "B"
     = Some {| controller := None; sessionId := None; channelWorkDir := "/w/B";
               channelName := Some "B"; messageQueue := [] |}.
Proof.
  split.
  - pose proof (cancel_clears_handle_keeps_queue 9 "A" (backlogA Rev2) eq_refl) as H.
    cbv zeta in H. rewrite backlogA_session in H. cbn [controller sessionA] in H.
    destruct H as (_ & _ & Q & _). rewrite Q. vm_compute. reflexivity.
  - pose proof (cancel_clears_handle_keeps_queue 9 "B" (backlogA Rev2) eq_refl) as H.
    cbv zeta in H. rewrite backlogA_unseen in H.
    destruct H as (F & S & _). split; [exact F|]. rewrite S.
    by rewrite lookup_insert_eq.
Defined.

(** C3, refuted as stated: /cancel on a channel with two queued messages
    answers cancelled and leaves both in the queue; when the aborted task
    settles the first of them is handed to the assistant. *)
Lemma cancel_discards_nothing :
  let s := backlogA Rev2 in
  let s' := snd (cancel 9 (Some "A") s) in
  queue_of "A" s = [m1; m2]
  /\ fst (cancel 9 (Some "A") s) = true
  /\ queue_of "A" s' = [m1; m2]
  /\ queue_of "A" s' <> []
  /\ dispatched (outputs (run Rev2 s' (rounds 0 [Resolved (Client.cancelled (Some "Default") (Some "")) 0])))
     = [m0; m1].
Proof. vm_compute. repeat split; discriminate. Qed.

Lemma sessionId_written_by_settle_cancel_new_witness :
  sessionId_of "A" (step Rev2 (resumedA Rev2) (Cancel 9 (Some "A"))) = None.
Proof.
  destruct sessionId_written_by_settle_cancel_new as (_ & _ & H).
  apply (H Rev2 9 "A" (resumedA Rev2) (sessionA (Some 1) (Some "s0") []) 1 eq_refl).
  - vm_compute. reflexivity.
  - reflexivity.
Defined.

(** C9, refuted as stated: with session id s0 stored and saved for the
    channel and no /new, /cancel clears both; so does the settling of the
    task as cancelled. *)
Lemma cancel_forfeits_session_id :
  let s := resumedA Rev2 in
  sessionId_of "A" s = Some "s0"
  /\ persisted s !! "A" = Some ("s0", Some "alpha")
  /\ sessionId_of "A" (step Rev2 s (Cancel 9 (Some "A"))) = None
  /\ persisted (step Rev2 s (Cancel 9 (Some "A"))) !! "A" = None
  /\ sessionId_of "A"
       (step Rev2 s (Settle 1 (Resolved (Client.cancelled (Some "Default") (Some "")) 0)))
     = None.
Proof. vm_compute. repeat split. Qed.

(** C6, at the failing input. First revision of [onClaude], channel A
    running [m0] with [m1] queued: when the task fails, the handle of A
    stays set and not aborted, [m1] stays queued and is never handed over,
    and the next message is queued behind it. The second revision clears
    the handle there and hands [m1] over; but in both, a task of A that
    settles while B is the active channel leaves the handle of A set. *)
Theorem failed_task_leaves_handle_set :
  let events := submit "A" "alpha" m1 ++ [Settle 0 (Failed exit2); Drain 0] in
  let s1 := run Rev1 (busyA Rev1) events in
  let s2 := run Rev2 (busyA Rev2) events in
  (controller_of "A" s1 = Some 0 /\ isAborted 0 s1 = false
   /\ queue_of "A" s1 = [m1] /\ dispatched (outputs s1) = [m0]
   /\ fst (onMessage_resume Rev1 3 "p2" "A" s1) = Queued 2)
  /\ (controller_of "A" (run Rev2 (busyA Rev2) (submit "A" "alpha" m1 ++ [Settle 0 (Failed exit2)]))
      = None
      /\ queue_of "A" s2 = [] /\ dispatched (outputs s2) = [m0; m1])
  /\ (forall rv,
        let s3 := run rv (busyAB rv) [Settle 0 (Resolved (done_with (Some "sA")) 2); Drain 0] in
        controller_of "A" s3 = Some 0 /\ isAborted 0 s3 = false
        /\ fst (onMessage_resume rv 3 "p2" "A" s3) = Queued 1).
Proof.
  split; [|split].
  - vm_compute. repeat split.
  - vm_compute. repeat split.
  - intros rv. destruct rv; vm_compute; repeat split.
Qed.

(** C7, at the failing input. With tasks running for A and for B, the
    task of A settles: its session id is stored for B and the handle of B
    is cleared, while the task of B still runs. And a message for A that
    resumes after one for B has arrived puts its handle on B and runs in
    the folder of B. *)
Theorem settle_writes_the_active_channel :
  forall rv,
    let s := busyAB rv in
    let s' := step rv s (Settle 0 (Resolved (done_with (Some "sA")) 2)) in
    let s'' := run rv (init "/w")
                 [Arrive "A" "alpha"; Arrive "B" "beta"; Resume 1 "p0" "A"] in
    (controller_of "B" s = Some 1 /\ sessionId_of "B" s = None)
    /\ (controller_of "B" s' = None /\ sessionId_of "B" s' = Some "sA")
    /\ (controller_of "A" s' = Some 0 /\ sessionId_of "A" s' = None)
    /\ (a_status <$> activations s' !! 1) = Some Running
    /\ (controller_of "B" s'' = Some 0 /\ controller_of "A" s'' = None
        /\ outputs s'' = [Query 1 "/w/beta" "p0" None 0]).
Proof. intros rv. destruct rv; vm_compute; repeat split. Qed.

(** C2, at the failing input. Channel A runs [m0] with [m1] and [m2]
    queued. The task resolves, [onClaude] clears the handle and awaits the
    sending of its completion message; a message [md] that arrives before
    [processMessage] resumes finds the channel not busy and is handed to
    the assistant at once, ahead of the queue. When [processMessage]
    resumes, [m1] is started although the task of [md] runs, and aborts
    it; the end of that task clears the handle of [m1] and its
    [processMessage] starts [m2]: the tasks of [m1] and [m2] run side by
    side, neither aborted. *)
Theorem late_arrival_runs_queued_messages_side_by_side :
  forall rv,
    let s0 := backlogA rv in
    let s1 := run rv s0 ([Settle 0 (Resolved (done_with (Some "s0")) 2)]
                         ++ submit "A" "alpha" md) in
    let s := run rv s0 lateArrival in
    (queue_of "A" s0 = [m1; m2] /\ dispatched (outputs s0) = [m0])
    /\ (dispatched (outputs s1) = [m0; md] /\ queue_of "A" s1 = [m1; m2])
    /\ dispatched (outputs s) = [m0; md; m1; m2]
    /\ activations s !! 0
       = Some {| a_channel := "A"; a_frames := [frame_of m1; frame_of m0];
                 a_controller := 2; a_currentWorkDir := "/w/alpha";
                 a_status := Running |}
    /\ activations s !! 1
       = Some {| a_channel := "A"; a_frames := [frame_of m2; frame_of md];
                 a_controller := 3; a_currentWorkDir := "/w/alpha";
                 a_status := Running |}
    /\ isAborted 2 s = false /\ isAborted 3 s = false.
Proof. intros rv. destruct rv; vm_compute; repeat split. Qed.

End BotFacts.

(** ** The write guard *)

Section GuardFacts.

Import Guard.

(** *** Strings and separators *)

Lemma prefix_cons a x b y :
  String.prefix (String a x) (String b y) = Ascii.eqb a b && String.prefix x y.
Proof.
  simpl. destruct (Ascii.ascii_dec a b) as [->|Hne].
  - by rewrite Ascii.eqb_refl.
  - apply Ascii.eqb_neq in Hne. by rewrite Hne.
Qed.

Lemma eqb_cons a x b y :
  String.eqb (String a x) (String b y) = Ascii.eqb a b && String.eqb x y.
Proof. simpl. by destruct (Ascii.eqb a b). Qed.

(** Two segments followed by a separator: one is a prefix of the other
    only if they are the same segment. *)
Lemma prefix_segment a b x y :
  noSlash a = true -> noSlash b = true ->
  String.prefix (a +:+ sep +:+ x) (b +:+ sep +:+ y)
  = String.eqb a b && String.prefix x y.
Proof.
  revert b. induction a as [|c a IH]; intros [|e b] Ha Hb.
  - change (String.prefix (String slash x) (String slash y) = String.prefix x y).
    by rewrite prefix_cons, Ascii.eqb_refl.
  - simpl in Hb. apply andb_true_iff in Hb as [Hb _].
    change (String.prefix (String slash x) (String e (b +:+ sep +:+ y)) = false).
    rewrite prefix_cons. rewrite Ascii.eqb_sym. apply negb_true_iff in Hb. by rewrite Hb.
  - simpl in Ha. apply andb_true_iff in Ha as [Ha _].
    change (String.prefix (String c (a +:+ sep +:+ x)) (String slash y) = false).
    rewrite prefix_cons. apply negb_true_iff in Ha. by rewrite Ha.
  - simpl in Ha, Hb. apply andb_true_iff in Ha as [_ Ha]. apply andb_true_iff in Hb as [_ Hb].
    change (String.prefix (String c (a +:+ sep +:+ x)) (String e (b +:+ sep +:+ y))
            = String.eqb (String c a) (String e b) && String.prefix x y).
    rewrite prefix_cons, eqb_cons, IH by done. by rewrite andb_assoc.
Qed.

Lemma prefix_no_segment a b x :
  noSlash b = true -> String.prefix (a +:+ sep +:+ x) b = false.
Proof.
  revert b. induction a as [|c a IH]; intros [|e b] Hb; try done.
  - simpl in Hb. apply andb_true_iff in Hb as [Hb _].
    change (String.prefix (String slash x) (String e b) = false).
    rewrite prefix_cons, Ascii.eqb_sym. apply negb_true_iff in Hb. by rewrite Hb.
  - simpl in Hb. apply andb_true_iff in Hb as [_ Hb].
    change (String.prefix (String c (a +:+ sep +:+ x)) (String e b) = false).
    rewrite prefix_cons, IH by done. by rewrite andb_false_r.
Qed.

Lemma eqb_segment a b x y :
  noSlash a = true -> noSlash b = true ->
  String.eqb (a +:+ sep +:+ x) (b +:+ sep +:+ y) = String.eqb a b && String.eqb x y.
Proof.
  revert b. induction a as [|c a IH]; intros [|e b] Ha Hb.
  - change (String.eqb (String slash x) (String slash y) = String.eqb x y).
    by rewrite eqb_cons, Ascii.eqb_refl.
  - simpl in Hb. apply andb_true_iff in Hb as [Hb _].
    change (String.eqb (String slash x) (String e (b +:+ sep +:+ y)) = false).
    rewrite eqb_cons, Ascii.eqb_sym. apply negb_true_iff in Hb. by rewrite Hb.
  - simpl in Ha. apply andb_true_iff in Ha as [Ha _].
    change (String.eqb (String c (a +:+ sep +:+ x)) (String slash y) = false).
    rewrite eqb_cons. apply negb_true_iff in Ha. by rewrite Ha.
  - simpl in Ha, Hb. apply andb_true_iff in Ha as [_ Ha]. apply andb_true_iff in Hb as [_ Hb].
    change (String.eqb (String c (a +:+ sep +:+ x)) (String e (b +:+ sep +:+ y))
            = String.eqb (String c a) (String e b) && String.eqb x y).
    rewrite !eqb_cons, IH by done. by rewrite andb_assoc.
Qed.

Lemma eqb_no_segment a b y :
  noSlash a = true -> String.eqb a (b +:+ sep +:+ y) = false.
Proof.
  revert b. induction a as [|c a IH]; intros [|e b] Ha; try done.
  - simpl in Ha. apply andb_true_iff in Ha as [Ha _].
    change (String.eqb (String c a) (String slash y) = false).
    rewrite eqb_cons. apply negb_true_iff in Ha. by rewrite Ha.
  - simpl in Ha. apply andb_true_iff in Ha as [_ Ha].
    change (String.eqb (String c a) (String e (b +:+ sep +:+ y)) = false).
    rewrite eqb_cons, IH by done. by rewrite andb_false_r.
Qed.


Lemma clean_parts seg :
  clean seg = true ->
  truthy seg = true /\ noSlash seg = true
  /\ String.eqb seg "." = false /\ String.eqb seg ".." = false.
Proof.
  unfold clean. intros H.
  apply andb_true_iff in H as [H H4]. apply andb_true_iff in H as [H H3].
  apply andb_true_iff in H as [H1 H2].
  apply negb_true_iff in H3, H4. done.
Qed.

Lemma join_cons2 a b l : join sep (a :: b :: l) = a +:+ sep +:+ join sep (b :: l).
Proof. reflexivity. Qed.

Lemma append_assoc (a b c : string) : (a +:+ b) +:+ c = a +:+ b +:+ c.
Proof.
  induction a as [|x a IH]; [done|].
  change (String x ((a +:+ b) +:+ c) = String x (a +:+ b +:+ c)). by rewrite IH.
Qed.

Lemma eqb_empty_truthy a : truthy a = true -> String.eqb "" a = false.
Proof. by destruct a. Qed.

Lemma prefix_empty_r a : truthy a = true -> String.prefix a "" = false.
Proof. by destruct a. Qed.

Lemma prefix_empty_l a : String.prefix "" a = true.
Proof. by destruct a. Qed.

Lemma truthy_append a b : truthy a = true -> truthy (a +:+ b) = true.
Proof. by destruct a. Qed.

(** *** The test of the guard, on segments

    For a root of at least one segment, the two string comparisons of
    the guard decide whether the segments of the root are a prefix of
    those of the path. *)
Lemma inside_by_strings rs : forall ps,
  Forall (fun x => clean x = true) rs -> Forall (fun x => clean x = true) ps ->
  rs <> [] ->
  String.eqb (join sep ps) (join sep rs)
  || String.prefix (join sep rs +:+ sep) (join sep ps)
  = segs_prefix rs ps.
Proof.
  induction rs as [|a rs IH]; intros ps Hr Hp Hne; [done|].
  inversion Hr as [|? ? Ha Hr']; subst.
  destruct (clean_parts a Ha) as (Ta & Na & _ & _).
  destruct rs as [|a2 rs].
  - (* the root has one segment *)
    destruct ps as [|b [|c ps]].
    + change (String.eqb "" a || String.prefix (a +:+ sep) "" = false).
      rewrite eqb_empty_truthy by done.
      by rewrite prefix_empty_r by (by apply truthy_append).
    + inversion Hp as [|? ? Hb _]; subst.
      destruct (clean_parts b Hb) as (_ & Nb & _ & _).
      change (String.eqb b a || String.prefix (a +:+ sep +:+ "") b
              = String.eqb a b && true).
      rewrite prefix_no_segment by done.
      by rewrite orb_false_r, andb_true_r, String.eqb_sym.
    + inversion Hp as [|? ? Hb _]; subst.
      destruct (clean_parts b Hb) as (_ & Nb & _ & _).
      rewrite join_cons2.
      change (String.eqb (b +:+ sep +:+ join sep (c :: ps)) a
              || String.prefix (a +:+ sep +:+ "") (b +:+ sep +:+ join sep (c :: ps))
              = String.eqb a b && true).
      rewrite String.eqb_sym, eqb_no_segment by done.
      rewrite prefix_segment by done.
      by rewrite prefix_empty_l.
  - (* the root has more *)
    rewrite join_cons2, append_assoc, append_assoc.
    destruct ps as [|b [|c ps]].
    + change (String.eqb "" (a +:+ sep +:+ join sep (a2 :: rs))
              || String.prefix (a +:+ sep +:+ join sep (a2 :: rs) +:+ sep) "" = false).
      rewrite eqb_empty_truthy by (by apply truthy_append).
      by rewrite prefix_empty_r by (by apply truthy_append).
    + inversion Hp as [|? ? Hb _]; subst.
      destruct (clean_parts b Hb) as (_ & Nb & _ & _).
      change (String.eqb b (a +:+ sep +:+ join sep (a2 :: rs))
              || String.prefix (a +:+ sep +:+ join sep (a2 :: rs) +:+ sep) b
              = String.eqb a b && false).
      rewrite eqb_no_segment by done. rewrite prefix_no_segment by done.
      by rewrite andb_false_r.
    + inversion Hp as [|? ? Hb Hp']; subst.
      destruct (clean_parts b Hb) as (_ & Nb & _ & _).
      rewrite join_cons2.
      rewrite eqb_segment by done. rewrite prefix_segment by done.
      rewrite (String.eqb_sym b a), <- andb_orb_distrib_r.
      rewrite (IH (c :: ps)) by done. reflexivity.
Qed.


(** *** Segments of a resolved path *)

Lemma truthy_eqb seg : String.eqb seg "" = negb (truthy seg).
Proof. by destruct seg. Qed.

Lemma split_sep_noSlash p : Forall (fun x => noSlash x = true) (split_sep p).
Proof.
  induction p as [|a r IH]; [by repeat constructor|].
  cbn [split_sep]. destruct (Ascii.eqb a slash) eqn:E.
  - by constructor.
  - destruct (split_sep r) as [|h t].
    + constructor; [|done]. simpl. by rewrite E.
    + inversion IH; subst. constructor; [|done]. simpl. by rewrite E.
Qed.

Lemma normalize_step_clean acc seg :
  Forall (fun x => clean x = true) acc -> noSlash seg = true ->
  Forall (fun x => clean x = true) (normalize_step false acc seg).
Proof.
  intros Hacc Hn. unfold normalize_step.
  destruct (String.eqb seg "") eqn:E0; [done|].
  destruct (String.eqb seg ".") eqn:E1; [done|]. cbn [orb].
  destruct (String.eqb seg "..") eqn:E2.
  - destruct acc as [|top rest]; [done|].
    destruct (String.eqb top ".."); [done|]. by inversion Hacc.
  - constructor; [|done]. unfold clean.
    rewrite truthy_eqb in E0. apply negb_false_iff in E0. by rewrite E0, Hn, E1, E2.
Qed.

Lemma fold_normalize_clean l : forall acc,
  Forall (fun x => noSlash x = true) l ->
  Forall (fun x => clean x = true) acc ->
  Forall (fun x => clean x = true) (fold_left (normalize_step false) l acc).
Proof.
  induction l as [|seg l IH]; intros acc Hl Hacc; [done|].
  inversion Hl; subst. cbn [fold_left]. apply IH; [done|]. by apply normalize_step_clean.
Qed.

Lemma normalizeSegments_clean p :
  Forall (fun x => clean x = true) (normalizeSegments false p).
Proof.
  unfold normalizeSegments. apply Forall_rev.
  apply fold_normalize_clean; [apply split_sep_noSlash|constructor].
Qed.

Lemma split_sep_plain a : noSlash a = true -> split_sep a = [a].
Proof.
  induction a as [|c a IH]; intros H; [done|].
  simpl in H. apply andb_true_iff in H as [Hc Ha]. apply negb_true_iff in Hc.
  cbn [split_sep]. by rewrite Hc, (IH Ha).
Qed.

Lemma split_sep_segment a z :
  noSlash a = true -> split_sep (a +:+ sep +:+ z) = a :: split_sep z.
Proof.
  induction a as [|c a IH]; intros H.
  - change (split_sep (String slash z) = "" :: split_sep z).
    cbn [split_sep]. by rewrite Ascii.eqb_refl.
  - simpl in H. apply andb_true_iff in H as [Hc Ha]. apply negb_true_iff in Hc.
    change (split_sep (String c (a +:+ sep +:+ z)) = String c a :: split_sep z).
    cbn [split_sep]. by rewrite Hc, (IH Ha).
Qed.

Lemma split_sep_join sg :
  Forall (fun x => clean x = true) sg -> sg <> [] -> split_sep (join sep sg) = sg.
Proof.
  induction sg as [|a sg IH]; intros H Hne; [done|].
  inversion H as [|? ? Ha H']; subst. destruct (clean_parts a Ha) as (_ & Na & _).
  destruct sg as [|b sg].
  - by apply split_sep_plain.
  - rewrite join_cons2, split_sep_segment by done. by rewrite (IH H') by discriminate.
Qed.

Lemma fold_normalize_id sg : forall acc,
  Forall (fun x => clean x = true) sg ->
  fold_left (normalize_step false) sg acc = rev sg ++ acc.
Proof.
  induction sg as [|a sg IH]; intros acc H; [done|].
  inversion H as [|? ? Ha H']; subst.
  destruct (clean_parts a Ha) as (Ta & _ & E1 & E2).
  cbn [fold_left]. unfold normalize_step at 2.
  rewrite truthy_eqb, Ta, E1, E2. cbn [negb orb].
  rewrite IH by done. simpl. by rewrite <- app_assoc.
Qed.

Lemma normalizeSegments_join sg :
  Forall (fun x => clean x = true) sg ->
  normalizeSegments false (sep +:+ join sep sg) = sg.
Proof.
  intros H. unfold normalizeSegments.
  change (sep +:+ join sep sg) with (String slash (join sep sg)).
  cbn [split_sep]. rewrite Ascii.eqb_refl.
  destruct sg as [|a sg]; [reflexivity|].
  rewrite (split_sep_join (a :: sg) H) by discriminate.
  change (fold_left (normalize_step false) ("" :: a :: sg) [])
    with (fold_left (normalize_step false) (a :: sg) []).
  rewrite fold_normalize_id by done. by rewrite app_nil_r, rev_involutive.
Qed.

Lemma endsWith_sep_plain a : noSlash a = true -> endsWith_sep a = false.
Proof.
  induction a as [|c a IH]; intros H; [done|].
  simpl in H. apply andb_true_iff in H as [Hc Ha]. apply negb_true_iff in Hc.
  destruct a; [exact Hc|]. by apply IH.
Qed.

Lemma endsWith_sep_append x z :
  truthy z = true -> endsWith_sep (x +:+ z) = endsWith_sep z.
Proof.
  intros T. induction x as [|c x IH]; [done|].
  change (endsWith_sep (String c (x +:+ z)) = endsWith_sep z).
  destruct (x +:+ z) eqn:E.
  - destruct x; [|discriminate E]. change (z = "") in E. by rewrite E in T.
  - exact IH.
Qed.

Lemma join_clean sg :
  Forall (fun x => clean x = true) sg -> sg <> [] ->
  truthy (join sep sg) = true /\ endsWith_sep (join sep sg) = false.
Proof.
  induction sg as [|a sg IH]; intros H Hne; [done|].
  inversion H as [|? ? Ha H']; subst. destruct (clean_parts a Ha) as (Ta & Na & _).
  destruct sg as [|b sg].
  - split; [exact Ta|by apply endsWith_sep_plain].
  - destruct (IH H' ltac:(discriminate)) as [T E]. rewrite join_cons2. split.
    + by apply truthy_append.
    + rewrite endsWith_sep_append by (by apply truthy_append).
      change (endsWith_sep (String slash (join sep (b :: sg))) = false).
      destruct (join sep (b :: sg)); [discriminate T|exact E].
Qed.

(** What [resolve] returns, [normalize] leaves as it is. *)
Lemma normalize_resolved sg :
  Forall (fun x => clean x = true) sg ->
  normalize (sep +:+ join sep sg) = sep +:+ join sep sg.
Proof.
  intros H. unfold normalize.
  change (truthy (sep +:+ join sep sg)) with true. cbv iota.
  assert (isAbsolute (sep +:+ join sep sg) = true) as ->.
  { unfold isAbsolute, startsWith.
    change (String.prefix (String slash "") (String slash (join sep sg)) = true).
    by rewrite prefix_cons, Ascii.eqb_refl, prefix_empty_l. }
  unfold normalizeString. cbn [negb]. rewrite normalizeSegments_join by done.
  destruct sg as [|a sg]; [done|].
  destruct (join_clean (a :: sg) H ltac:(discriminate)) as [T E].
  rewrite T. assert (endsWith_sep (sep +:+ join sep (a :: sg)) = false) as ->; [|done].
  change (endsWith_sep (String slash (join sep (a :: sg))) = false).
  destruct (join sep (a :: sg)); [discriminate T|exact E].
Qed.

Lemma resolve_loop_absolute pcwd :
  isAbsolute pcwd = true ->
  forall l acc, snd (resolve_loop (l ++ [pcwd]) acc) = true.
Proof.
  intros A. assert (truthy pcwd = true) as T by (by destruct pcwd).
  induction l as [|p l IH]; intros acc.
  - simpl. by rewrite T, A.
  - cbn [app resolve_loop]. destruct (truthy p); [destruct (isAbsolute p)|]; try done; apply IH.
Qed.

Lemma resolve_location pcwd args :
  isAbsolute pcwd = true ->
  resolve pcwd args = sep +:+ join sep (location pcwd args).
Proof.
  intros A. unfold resolve, location.
  pose proof (resolve_loop_absolute pcwd A (rev args) "") as H.
  change (rev (pcwd :: args)) with (rev args ++ [pcwd]).
  destruct (resolve_loop (rev args ++ [pcwd]) "") as [rp ab]. simpl in H. subst ab.
  reflexivity.
Qed.

(** The guard decides as meant whenever the workspace root is not the
    root of the file system: a write tool with a path is denied exactly
    when the path resolves outside the workspace, and every other use of
    a tool is allowed with its input as it came. *)
Lemma guard_decides_below_root pcwd root cwd tool input :
  isAbsolute pcwd = true -> location pcwd [root] <> [] ->
  createWorkspaceWriteGuard pcwd root cwd tool input
  = match writeToolPaths tool with
    | Some key =>
        match input !! key with
        | Some fp =>
            if truthy fp && negb (insideWorkspace pcwd root cwd fp)
            then Deny (denyMessage root fp) else Allow input
        | None => Allow input
        end
    | None => Allow input
    end.
Proof.
  intros A Hne. unfold createWorkspaceWriteGuard, insideWorkspace.
  destruct (writeToolPaths tool) as [key|]; [|done].
  destruct (input !! key) as [fp|]; [|done].
  destruct (truthy fp); [|done]. cbn [andb].
  rewrite !resolve_location by done.
  rewrite !normalize_resolved by apply normalizeSegments_clean.
  unfold startsWith.
  change (String.eqb (sep +:+ join sep (location pcwd [cwd; fp]))
            (sep +:+ join sep (location pcwd [root])))
    with (String.eqb (String slash (join sep (location pcwd [cwd; fp])))
            (String slash (join sep (location pcwd [root])))).
  change (String.prefix ((sep +:+ join sep (location pcwd [root])) +:+ sep)
            (sep +:+ join sep (location pcwd [cwd; fp])))
    with (String.prefix (String slash (join sep (location pcwd [root]) +:+ sep))
            (String slash (join sep (location pcwd [cwd; fp])))).
  rewrite eqb_cons, prefix_cons, Ascii.eqb_refl. cbn [andb].
  rewrite <- negb_orb.
  rewrite inside_by_strings; [done| | |done]; apply normalizeSegments_clean.
Qed.

(** *** The guard at work *)

(** [Deno.cwd()]; the paths below are absolute, so it plays no part. *)
Variable process_cwd : string.

Example guard_outside :
  createWorkspaceWriteGuard process_cwd "/work" "/work/chan" "Write"
    {[ "file_path" := "../../etc/passwd" ]}
  = Deny (denyMessage "/work" "../../etc/passwd").
Proof. vm_compute. reflexivity. Qed.

Example guard_inside :
  createWorkspaceWriteGuard process_cwd "/work/" "/work/chan" "Edit"
    {[ "file_path" := "notes/./a.txt" ]}
  = Allow {[ "file_path" := "notes/./a.txt" ]}.
Proof. vm_compute. reflexivity. Qed.

Example guard_read :
  createWorkspaceWriteGuard process_cwd "/work" "/work/chan" "Read"
    {[ "file_path" := "/etc/passwd" ]}
  = Allow {[ "file_path" := "/etc/passwd" ]}.
Proof. vm_compute. reflexivity. Qed.

Example resolve_dots :
  resolve process_cwd ["/work/chan"; "../x//y/"] = "/work/x/y".
Proof. vm_compute. reflexivity. Qed.

(** C10, at the failing input. The workspace root is the file system
    root: the file /tmp/x lies inside it, and the guard denies the write,
    because no path starts with the root followed by one more separator. *)
Theorem guard_denies_inside_root_workspace :
  insideWorkspace process_cwd "/" "/" "/tmp/x" = true
  /\ normalize (resolve process_cwd ["/"]) +:+ sep = "//"
  /\ normalize (resolve process_cwd ["/"; "/tmp/x"]) = "/tmp/x"
  /\ createWorkspaceWriteGuard process_cwd "/" "/" "Write" {[ "file_path" := "/tmp/x" ]}
     = Deny (denyMessage "/" "/tmp/x").
Proof. vm_compute. repeat split. Qed.

End GuardFacts.

(** ** Session ids *)

Section CleanFacts.

Import Client.

Lemma dropWhile_all {A} (f : A -> bool) w l :
  Forall (fun a => f a = true) w -> dropWhile f (w ++ l) = dropWhile f l.
Proof. induction 1 as [|a w Ha _ IH]; [done|]. simpl. by rewrite Ha. Qed.

Lemma dropWhile_none {A} (f : A -> bool) a l :
  f a = false -> dropWhile f (a :: l) = a :: l.
Proof. intros H. simpl. by rewrite H. Qed.

Lemma dropWhileEnd_all {A} (f : A -> bool) l w :
  Forall (fun a => f a = true) w -> dropWhileEnd f (l ++ w) = dropWhileEnd f l.
Proof.
  intros H. unfold dropWhileEnd. rewrite rev_app_distr.
  rewrite dropWhile_all; [done|]. by apply Forall_rev.
Qed.

Lemma dropWhileEnd_none {A} (f : A -> bool) l a :
  f a = false -> dropWhileEnd f (l ++ [a]) = l ++ [a].
Proof.
  intros H. unfold dropWhileEnd. rewrite rev_app_distr. simpl. rewrite H.
  simpl. by rewrite rev_involutive.
Qed.

(** A list wrapped in elements that [f] holds of, itself free of them, is
    what is left when they are dropped at both ends. *)
Lemma strip_wrapped {A} (f : A -> bool) w1 m w2 :
  Forall (fun a => f a = true) w1 -> Forall (fun a => f a = true) w2 ->
  Forall (fun a => f a = false) m ->
  dropWhileEnd f (dropWhile f (w1 ++ m ++ w2)) = m.
Proof.
  intros H1 H2 Hm. rewrite dropWhile_all by done.
  destruct m as [|a m].
  - simpl. rewrite <- (app_nil_r w2) at 1. rewrite dropWhile_all by done. done.
  - inversion Hm as [|? ? Ha Hm']; subst.
    change ((a :: m) ++ w2) with (a :: (m ++ w2)). rewrite dropWhile_none by done.
    change (a :: m ++ w2) with ((a :: m) ++ w2). rewrite dropWhileEnd_all by done.
    destruct (exists_last (l := a :: m)) as (l' & z & E); [done|].
    rewrite E in Hm |- *. apply Forall_app in Hm as [_ Hz].
    inversion Hz; subst. by apply dropWhileEnd_none.
Qed.

(** What is left of a list when the elements [f] holds of are dropped at
    its front starts with none of them. *)
Lemma dropWhile_head {A} (f : A -> bool) l a :
  head (dropWhile f l) = Some a -> f a = false.
Proof.
  induction l as [|b l IH]; [done|]. simpl. destruct (f b) eqn:E; [done|].
  simpl. by intros [= <-].
Qed.

Lemma dropWhile_fixed {A} (f : A -> bool) l :
  (forall a, head l = Some a -> f a = false) -> dropWhile f l = l.
Proof. destruct l as [|b l]; [done|]. intros H. simpl. by rewrite (H b). Qed.

Lemma last_rev_head {A} (l : list A) : last l = head (rev l).
Proof.
  destruct (rev l) as [|a r] eqn:E.
  - apply (f_equal (@rev A)) in E. rewrite rev_involutive in E. by subst.
  - apply (f_equal (@rev A)) in E. rewrite rev_involutive in E. subst.
    simpl. by rewrite last_snoc.
Qed.

Lemma dropWhileEnd_last {A} (f : A -> bool) l a :
  last (dropWhileEnd f l) = Some a -> f a = false.
Proof.
  unfold dropWhileEnd. rewrite last_rev_head, rev_involutive. apply dropWhile_head.
Qed.

Lemma dropWhileEnd_fixed {A} (f : A -> bool) l :
  (forall a, last l = Some a -> f a = false) -> dropWhileEnd f l = l.
Proof.
  intros H. unfold dropWhileEnd. rewrite dropWhile_fixed; [apply rev_involutive|].
  intros a. rewrite <- last_rev_head. apply H.
Qed.

(** Dropping at the end leaves a prefix: the head stays what it was. *)
Lemma dropWhileEnd_prefix {A} (f : A -> bool) l :
  exists w, l = dropWhileEnd f l ++ w.
Proof.
  unfold dropWhileEnd. induction l as [|b l IH] using rev_ind.
  - by exists [].
  - rewrite rev_app_distr. simpl. destruct (f b).
    + destruct IH as [w IH]. exists (w ++ [b]). rewrite app_assoc. by rewrite <- IH.
    + exists []. simpl. by rewrite rev_involutive, app_nil_r.
Qed.

Lemma dropWhileEnd_head {A} (f g : A -> bool) l :
  (forall a, head l = Some a -> g a = false) ->
  forall a, head (dropWhileEnd f l) = Some a -> g a = false.
Proof.
  intros H a Ha. destruct (dropWhileEnd_prefix f l) as [w E].
  apply H. rewrite E. destruct (dropWhileEnd f l); [done|]. exact Ha.
Qed.

Lemma trim_head l a : head (trim l) = Some a -> isWhitespace a = false.
Proof.
  unfold trim. apply dropWhileEnd_head. intros b. apply dropWhile_head.
Qed.

Lemma trim_last l a : last (trim l) = Some a -> isWhitespace a = false.
Proof. unfold trim. apply dropWhileEnd_last. Qed.

Lemma dropFence_fixed l :
  (forall a, head l = Some a -> isBacktick a = false) -> dropFence l = l.
Proof.
  intros H. destruct l as [|a [|b [|c r]]]; try done.
  simpl. by rewrite (H a).
Qed.

(** The leading and trailing backticks are gone when the code block
    markers are looked for: that step finds none. *)
Lemma fence_idle l :
  let x := dropWhileEnd isBacktick (dropWhile isBacktick l) in
  rev (dropFence (rev (dropFence x))) = x.
Proof.
  intros x.
  assert (forall a, head x = Some a -> isBacktick a = false) as Hh.
  { unfold x. apply dropWhileEnd_head. intros b. apply dropWhile_head. }
  assert (forall a, last x = Some a -> isBacktick a = false) as Hl.
  { unfold x. apply dropWhileEnd_last. }
  rewrite (dropFence_fixed x Hh).
  rewrite dropFence_fixed; [by rewrite rev_involutive|].
  intros a. rewrite <- last_rev_head. apply Hl.
Qed.

Lemma filter_keeps {A} (f : A -> bool) (l : list A) :
  Forall (fun a => f a = true) l -> filter (fun a => f a) l = l.
Proof.
  induction 1 as [|a l Ha _ IH]; [done|].
  rewrite filter_cons_True by (by rewrite Ha). by rewrite IH.
Qed.

Lemma filter_drops {A} (f : A -> bool) (l : list A) :
  Forall (fun a => f a = false) l -> filter (fun a => f a) l = [].
Proof.
  induction 1 as [|a l Ha _ IH]; [done|].
  rewrite filter_cons_False; [exact IH|]. rewrite Ha. by intros [].
Qed.

(** X3. The step of [cleanSessionId] that removes code block markers never
    changes its input: the step before it has taken every backtick from both
    ends, so the function is the composition of its other four steps. *)
Theorem code_block_markers_are_gone_before_their_step s :
  cleanSessionId s
  = string_of_list_ascii
      (trim (filter (fun a => negb (isLineBreak a))
               (dropWhileEnd isBacktick
                  (dropWhile isBacktick (trim (list_ascii_of_string s)))))).
Proof. unfold cleanSessionId. by rewrite fence_idle. Qed.

(** X1. Whatever the text, what [cleanSessionId] returns holds no line break
    (CR or LF) and neither starts nor ends with white space. *)
Theorem cleaned_id_has_no_line_break_nor_outer_space s :
  let cleaned := list_ascii_of_string (cleanSessionId s) in
  (forall a, a ∈ cleaned -> isLineBreak a = false)
  /\ (forall a, head cleaned = Some a -> isWhitespace a = false)
  /\ (forall a, last cleaned = Some a -> isWhitespace a = false).
Proof.
  unfold cleanSessionId. cbv zeta. rewrite list_ascii_of_string_of_list_ascii.
  split; [|split].
  - intros a Ha. unfold trim in Ha.
    match type of Ha with a ∈ dropWhileEnd _ (dropWhile _ ?l) => set (y := l) in * end.
    assert (a ∈ y) as Hy.
    { destruct (dropWhileEnd_prefix isWhitespace (dropWhile isWhitespace y)) as [w E].
      assert (a ∈ dropWhile isWhitespace y) as H1
        by (rewrite E; apply elem_of_app; by left).
      clear -H1. induction y as [|b y IH]; [done|]. simpl in H1.
      destruct (isWhitespace b); [right; by apply IH|exact H1]. }
    unfold y in Hy. apply list_elem_of_filter in Hy as [Hy _].
    by destruct (isLineBreak a).
  - apply trim_head.
  - apply trim_last.
Qed.


(** X2. A session id of printable characters other than space and backtick,
    wrapped in any number of backticks and these in any white space, comes
    out of [cleanSessionId] as the bare id. *)
Theorem cleanSessionId_unwraps ws1 t1 id t2 ws2 :
  Forall (fun a => isWhitespace a = true) ws1 ->
  Forall (fun a => isWhitespace a = true) ws2 ->
  Forall (fun a => isBacktick a = true) t1 ->
  Forall (fun a => isBacktick a = true) t2 ->
  Forall plain id ->
  cleanSessionId (string_of_list_ascii (ws1 ++ (t1 ++ id ++ t2) ++ ws2))
  = string_of_list_ascii id.
Proof.
  intros W1 W2 T1 T2 P.
  assert (forall a, isBacktick a = true -> isWhitespace a = false) as BW.
  { intros a. unfold isBacktick, isWhitespace. intros H%Nat.eqb_eq. rewrite H. done. }
  assert (Forall (fun a => isWhitespace a = false) id) as Pw.
  { eapply Forall_impl; [exact P|]. intros a [[H1 H2] H3]. unfold isWhitespace.
    apply orb_false_iff. split; [apply Nat.eqb_neq; lia|].
    apply andb_false_iff. right. apply Nat.leb_gt. lia. }
  assert (Forall (fun a => isBacktick a = false) id) as Pb.
  { eapply Forall_impl; [exact P|]. intros a [_ H3]. unfold isBacktick.
    by apply Nat.eqb_neq. }
  assert (Forall (fun a => negb (isLineBreak a) = true) id) as Pl.
  { eapply Forall_impl; [exact P|]. intros a [[H1 H2] H3]. unfold isLineBreak.
    apply negb_true_iff, orb_false_iff. split; apply Nat.eqb_neq; lia. }
  unfold cleanSessionId. rewrite list_ascii_of_string_of_list_ascii. f_equal.
  unfold trim at 2. rewrite strip_wrapped; try done.
  2:{ apply Forall_app. split; [|apply Forall_app; split]; try done.
      - eapply Forall_impl; [exact T1|]. exact BW.
      - eapply Forall_impl; [exact T2|]. exact BW. }
  rewrite fence_idle. rewrite strip_wrapped by done.
  rewrite filter_keeps by done.
  unfold trim. rewrite <- (app_nil_r id) at 1. rewrite <- (app_nil_l (id ++ [])).
  by apply strip_wrapped.
Qed.

Lemma cleanSessionId_unwraps_witness :
  cleanSessionId (" `abc-123`" +:+ nl) = "abc-123".
Proof.
  apply (cleanSessionId_unwraps [" "%char] ["`"%char] (list_ascii_of_string "abc-123")
           ["`"%char] ["010"%char]).
  - repeat constructor.
  - repeat constructor.
  - repeat constructor.
  - repeat constructor.
  - simpl. repeat (constructor; [unfold plain; vm_compute; lia|]). constructor.
Defined.

End CleanFacts.

(** ** Streams and timers *)

Section ClientMore.

Import Client Streams.

(** Time passing changes the timers and, through them, the signal of the
    controller: nothing else. *)
Lemma elapse_data d r :
  messageCount (elapse d r) = messageCount r
  /\ currentMessages (elapse d r) = currentMessages r
  /\ currentResponse (elapse d r) = currentResponse r
  /\ currentSessionId (elapse d r) = currentSessionId r
  /\ streamed (elapse d r) = streamed r
  /\ chunks (elapse d r) = chunks r.
Proof.
  unfold elapse, expire_current, expire_stale, callback.
  repeat case_match; done.
Qed.

Lemma elapse_forever_data r :
  messageCount (elapse_forever r) = messageCount r
  /\ currentMessages (elapse_forever r) = currentMessages r
  /\ currentResponse (elapse_forever r) = currentResponse r
  /\ currentSessionId (elapse_forever r) = currentSessionId r
  /\ streamed (elapse_forever r) = streamed r
  /\ chunks (elapse_forever r) = chunks r.
Proof. unfold elapse_forever, callback. repeat case_match; done. Qed.

Lemma callback_idle k c r : aborted r = true -> callback k c r = r.
Proof. intros A. unfold callback. rewrite A, andb_false_r. by destruct k. Qed.

Lemma expire_current_aborted d r :
  aborted r = true ->
  aborted (expire_current d r) = true
  /\ timeouts (expire_current d r) = timeouts r.
Proof.
  intros A. unfold expire_current. destruct (timeoutId r) as [t|]; [|done].
  destruct (t_left t <=? d)%N; [|done]. by rewrite callback_idle.
Qed.

Lemma expire_stale_aborted d r :
  aborted r = true ->
  aborted (expire_stale d r) = true
  /\ timeouts (expire_stale d r) = timeouts r.
Proof.
  intros A. unfold expire_stale. destruct (stale r) as [[t c]|]; [|done].
  destruct (t_left t <=? d)%N; [|done]. by rewrite callback_idle.
Qed.

Lemma elapse_aborted_timeouts d r :
  aborted r = true -> timeouts (elapse d r) = timeouts r.
Proof.
  intros A. destruct (expire_stale_aborted d r A) as [A1 T1].
  destruct (expire_current_aborted d r A) as [A2 T2].
  destruct (expire_current_aborted d _ A1) as [_ T3].
  destruct (expire_stale_aborted d _ A2) as [_ T4].
  unfold elapse. repeat case_match; congruence.
Qed.

Lemma elapse_forever_aborted r :
  aborted r = true ->
  aborted (elapse_forever r) = true /\ timeouts (elapse_forever r) = timeouts r.
Proof.
  intros A. unfold elapse_forever.
  repeat case_match; rewrite ?callback_idle; try done;
    simpl; rewrite ?callback_idle; done.
Qed.

(** With the controller aborted an attempt returns as aborted, if its
    stream ends at all, and no timer reports anything. *)
Lemma loop_aborted onChunk onStreamJson mo evs e : forall r o r',
  aborted r = true ->
  loop onChunk onStreamJson mo evs e r = (o, r') ->
  aborted r' = true /\ timeouts r' = timeouts r
  /\ (o = ExecHung
      \/ exists res, o = ExecReturned res /\ r_aborted res = true
                     /\ r_stderrOutput res = join nl (stderrLines r')).
Proof.
  induction evs as [|[d ev] evs IH]; intros r o r' A H; simpl in H.
  - pose proof (elapse_aborted (fst e) r A) as A1.
    pose proof (elapse_aborted_timeouts (fst e) r A) as T1.
    unfold finish in H. destruct (snd e) as [|err|].
    + inversion H; subst. simpl. split; [done|]. split; [done|]. right.
      eexists. split; [done|]. simpl. done.
    + assert (isAbortError err (elapse (fst e) r) = true) as X
        by (unfold isAbortError; rewrite A1; by rewrite orb_true_r).
      rewrite X in H. inversion H; subst. split; [done|]. split; [done|]. right.
      eexists. done.
    + inversion H; subst. destruct (elapse_forever_aborted _ A1) as [A2 T2].
      split; [done|]. split; [congruence|]. by left.
  - pose proof (elapse_aborted d r A) as A1.
    pose proof (elapse_aborted_timeouts d r A) as T1.
    destruct ev as [data| |m].
    + destruct (IH (push_stderr data (elapse d r)) _ _ A1 H) as (? & ? & ?).
      split; [done|]. split; [|done]. simpl in *. congruence.
    + destruct (IH (abort (elapse d r)) _ _ eq_refl H) as (? & ? & ?).
      split; [done|]. split; [|done]. simpl in *. congruence.
    + rewrite reset_aborted, A1 in H. inversion H; subst.
      unfold resetActivityTimeout. simpl. rewrite A1. simpl.
      split; [done|]. split; [done|]. right. eexists. split; [done|]. simpl. done.
Qed.


(** *** The state a stretch of the stream leaves *)

Lemma play_stderrOnly_wait onChunk onStreamJson k T qs : forall L r,
  stderrOnly qs = true -> armed k L T r -> (delays qs < L)%N ->
  armed k (L - delays qs) T (play onChunk onStreamJson qs r)
  /\ currentMessages (play onChunk onStreamJson qs r) = currentMessages r.
Proof.
  induction qs as [|[d ev] qs IH]; intros L r Q A Hd.
  - simpl. by rewrite N.sub_0_r.
  - simpl in Q. apply andb_true_iff in Q as [Q1 Q2].
    destruct ev as [data| |]; try discriminate. simpl in Hd |- *.
    assert (d < L)%N as Hlt by lia.
    pose proof (elapse_wait k L T d r A Hlt) as (Ht & Ha & Hs & Hr & Hc).
    destruct (IH (L - d)%N (push_stderr data (elapse d r)) Q2) as [A' M'];
      [done|lia|].
    split.
    + replace (L - (d + delays qs))%N with (L - d - delays qs)%N by lia. exact A'.
    + rewrite M'. simpl. apply elapse_data.
Qed.

(** *** The session id and the text of a result *)



(** With a callback for the JSON stream the loop keeps no text and hands
    no chunk over. *)
Lemma loop_json onChunk mo evs e : forall r o r',
  currentResponse r = "" -> chunks r = [] ->
  loop onChunk true mo evs e r = (o, r') ->
  currentResponse r' = "" /\ chunks r' = []
  /\ forall res, o = ExecReturned res -> r_response res = "".
Proof.
  induction evs as [|[d ev] evs IH]; intros r o r' R C H; simpl in H.
  - destruct (elapse_data (fst e) r) as (_ & _ & R1 & _ & _ & C1).
    unfold finish in H. destruct (snd e) as [|err|].
    + inversion H; subst. simpl. split; [congruence|]. split; [congruence|].
      intros res [= <-]. simpl. congruence.
    + destruct (isAbortError err (elapse (fst e) r)); inversion H; subst.
      * split; [congruence|]. split; [congruence|]. by intros res [= <-].
      * split; [congruence|]. split; [congruence|]. done.
    + inversion H; subst. destruct (elapse_forever_data (elapse (fst e) r))
        as (_ & _ & R2 & _ & _ & C2).
      split; [congruence|]. split; [congruence|]. done.
  - destruct (elapse_data d r) as (_ & _ & R1 & _ & _ & C1).
    destruct ev as [data| |m].
    + apply (IH _ _ _) in H; [done| |]; simpl; congruence.
    + apply (IH _ _ _) in H; [done| |]; simpl; congruence.
    + destruct (aborted (resetActivityTimeout (count_message (elapse d r)))) eqn:B.
      * inversion H; subst. rewrite reset_aborted in B.
        unfold resetActivityTimeout. cbn [set_timer count_message aborted].
        rewrite B. simpl. split; [congruence|]. split; [congruence|].
        intros res [= <-]. simpl. congruence.
      * rewrite reset_aborted in B. apply (IH _ _ _) in H; [done| |];
          unfold resetActivityTimeout; cbn [set_timer count_message aborted];
          rewrite B; simpl; rewrite andb_false_r; congruence.
Qed.


(** *** A timer that outlives its attempt *)

Lemma callback_aborts k count r :
  (k = Startup -> count = 0) -> aborted (callback k count r) = true.
Proof.
  intros H. unfold callback. destruct k.
  - rewrite (H eq_refl). simpl. by destruct (aborted r) eqn:A.
  - by destruct (aborted r) eqn:A.
Qed.

Lemma expire_current_stale d r : stale (expire_current d r) = stale r.
Proof.
  unfold expire_current, callback. repeat case_match; done.
Qed.

Lemma expire_current_keeps_aborted d r :
  aborted r = true -> aborted (expire_current d r) = true.
Proof. intros A. by apply expire_current_aborted. Qed.

Lemma expire_stale_fire d r L k count :
  stale r = Some ({| t_kind := k; t_left := L |}, count) ->
  (k = Startup -> count = 0) -> (L <= d)%N ->
  aborted (expire_stale d r) = true.
Proof.
  intros S H Hd. unfold expire_stale. rewrite S. cbn [t_left t_kind].
  apply N.leb_le in Hd. rewrite Hd. by apply callback_aborts.
Qed.

Lemma expire_stale_wait d r L k count :
  stale r = Some ({| t_kind := k; t_left := L |}, count) -> (d < L)%N ->
  expire_stale d r
  = set_stale (Some ({| t_kind := k; t_left := L - d |}, count)) r.
Proof.
  intros S Hd. unfold expire_stale. rewrite S. cbn [t_left t_kind].
  apply N.leb_gt in Hd. by rewrite Hd.
Qed.

Lemma doomed_fire L d r :
  doomed L r -> (L <= d)%N -> aborted (elapse d r) = true.
Proof.
  intros [A|(k & count & S & H)] Hd; [by apply elapse_aborted|].
  assert (aborted (expire_current d (expire_stale d r)) = true) as X1
    by (apply expire_current_keeps_aborted; by eapply expire_stale_fire).
  assert (aborted (expire_stale d (expire_current d r)) = true) as X2.
  { eapply expire_stale_fire; [by rewrite expire_current_stale|done|done]. }
  unfold elapse. rewrite S. destruct (timeoutId r) as [t|]; [|done].
  by destruct (_ <=? _)%N.
Qed.

Lemma doomed_wait L d r :
  doomed L r -> (d < L)%N -> doomed (L - d) (elapse d r).
Proof.
  intros [A|(k & count & S & H)] Hd; [left; by apply elapse_aborted|].
  assert (doomed (L - d) (expire_current d (expire_stale d r))) as X1.
  { rewrite (expire_stale_wait d r L k count S Hd). right. exists k, count.
    split; [|done]. by rewrite expire_current_stale. }
  assert (doomed (L - d) (expire_stale d (expire_current d r))) as X2.
  { assert (stale (expire_current d r)
            = Some ({| t_kind := k; t_left := L |}, count)) as S'
      by (by rewrite expire_current_stale).
    rewrite (expire_stale_wait d _ L k count S' Hd).
    right. exists k, count. done. }
  unfold elapse. rewrite S. destruct (timeoutId r) as [t|]; [|done].
  by destruct (_ <=? _)%N.
Qed.

Lemma doomed_forever L r : doomed L r -> aborted (elapse_forever r) = true.
Proof.
  intros [A|(k & count & S & H)]; [by apply elapse_forever_aborted|].
  unfold elapse_forever. rewrite S. destruct (timeoutId r) as [t|].
  - destruct (_ <=? _)%N.
    + cbn [t_kind]. set (r0 := callback k count (set_stale None r)).
      assert (aborted r0 = true) as A0 by (by apply callback_aborts).
      rewrite callback_idle; done.
    + by apply callback_aborts.
  - by apply callback_aborts.
Qed.

(** An attempt that lasts as long as the timer left behind has to go
    ends aborted. *)
Lemma loop_doomed onChunk onStreamJson mo evs e : forall L r o r',
  doomed L r -> (L <= delays evs + fst e)%N ->
  loop onChunk onStreamJson mo evs e r = (o, r') ->
  aborted r' = true
  /\ (o = ExecHung \/ exists res, o = ExecReturned res /\ r_aborted res = true).
Proof.
  assert (forall evs r o r', aborted r = true ->
            loop onChunk onStreamJson mo evs e r = (o, r') ->
            aborted r' = true
            /\ (o = ExecHung \/ exists res, o = ExecReturned res /\ r_aborted res = true))
    as Hab.
  { intros evs' r o r' A H. destruct (loop_aborted _ _ _ _ _ _ _ _ A H) as (A' & _ & O).
    split; [done|]. destruct O as [->|(res & -> & ? & _)]; eauto. }
  assert (forall d r o r',
            aborted (elapse d r) = true ->
            (let r0 := set_timer None (resetActivityTimeout (count_message (elapse d r))) in
             (ExecReturned (result_of mo r0), r0)) = (o, r') ->
            aborted r' = true
            /\ (o = ExecHung \/ exists res, o = ExecReturned res /\ r_aborted res = true))
    as Hbreak.
  { intros d r o r' A H. cbv zeta in H. injection H as <- <-.
    assert (aborted (set_timer None (resetActivityTimeout (count_message (elapse d r)))) = true)
      as A' by (unfold resetActivityTimeout; simpl; rewrite A; simpl; exact A).
    split; [exact A'|]. right. eexists. split; [done|]. exact A'. }
  induction evs as [|[d ev] evs IH]; intros L r o r' D Hd H; simpl in H.
  - simpl in Hd.
    assert (aborted (elapse (fst e) r) = true) as A by (eapply doomed_fire; [exact D|lia]).
    unfold finish in H. destruct (snd e) as [|err|].
    + injection H as <- <-. split; [done|]. right. eexists. split; [done|]. exact A.
    + assert (isAbortError err (elapse (fst e) r) = true) as X
        by (unfold isAbortError; rewrite A; by rewrite orb_true_r).
      rewrite X in H. injection H as <- <-. split; [done|]. right. eexists. done.
    + injection H as <- <-. split; [by apply elapse_forever_aborted|by left].
  - simpl in Hd. destruct (N.le_gt_cases L d) as [Hle|Hgt].
    + pose proof (doomed_fire L d r D Hle) as A. destruct ev as [data| |m].
      * by apply (Hab evs (push_stderr data (elapse d r))).
      * by apply (Hab evs (abort (elapse d r))).
      * rewrite reset_aborted, A in H. by apply (Hbreak d r).
    + pose proof (doomed_wait L d r D Hgt) as D'. destruct ev as [data| |m].
      * apply (IH (L - d)%N (push_stderr data (elapse d r))); [|lia|exact H].
        destruct D' as [A|(k & c & S & Hc)]; [by left|right; by exists k, c].
      * by apply (Hab evs (abort (elapse d r))).
      * destruct (aborted (resetActivityTimeout (count_message (elapse d r)))) eqn:B.
        -- rewrite reset_aborted in B. by apply (Hbreak d r).
        -- apply (IH (L - d)%N (accept onChunk onStreamJson m
                                  (resetActivityTimeout (count_message (elapse d r)))));
             [|lia|exact H].
           rewrite reset_aborted in B.
           destruct D' as [A|(k & c & S & Hc)]; [congruence|].
           right. exists k, c. by rewrite yield_stale.
Qed.

(** *** The timer of a first attempt *)

Lemma watched_elapse d r : watched r -> watched (elapse d r).
Proof.
  intros [S W]. split; [by apply elapse_stale|].
  unfold elapse. rewrite S. unfold expire_stale. rewrite S.
  destruct (aborted r) eqn:A.
  { rewrite expire_current_keeps_aborted by done. done. }
  destruct (W eq_refl) as (k & L & T & HL & Hc).
  unfold expire_current. rewrite T. cbn [t_left t_kind].
  destruct (L <=? d)%N eqn:E.
  - rewrite callback_aborts; [done|]. intros ->. by apply Hc.
  - intros _. exists k, (L - d)%N. split; [done|]. split; [lia|done].
Qed.

Lemma watched_yield onChunk onStreamJson m r :
  watched r ->
  watched (accept onChunk onStreamJson m (resetActivityTimeout (count_message r))).
Proof.
  intros [S W]. split; [by rewrite yield_stale|].
  rewrite yield_aborted. intros A. rewrite yield_timeoutId by done.
  exists Activity, ACTIVITY_TIMEOUT. split; [done|]. split; [lia|done].
Qed.

Lemma start_watched ab : watched (start ab None).
Proof.
  split; [done|]. simpl. intros ->. simpl. exists Startup, STARTUP_TIMEOUT.
  split; [done|]. split; [|done]. vm_compute. discriminate.
Qed.

(** A first attempt that throws leaves its timer pending. *)
Lemma loop_thrown_pending onChunk onStreamJson mo evs e : forall r err r',
  watched r ->
  loop onChunk onStreamJson mo evs e r = (ExecThrown err, r') ->
  exists k L,
    timeoutId r' = Some {| t_kind := k; t_left := L |}
    /\ (L <= ACTIVITY_TIMEOUT)%N
    /\ (k = Startup -> messageCount r' = 0).
Proof.
  induction evs as [|[d ev] evs IH]; intros r err r' W H; simpl in H.
  - destruct (loop_thrown onChunk onStreamJson mo [] e r err r' H) as (_ & A & _).
    unfold finish in H. destruct (snd e) as [|x|]; [discriminate| |discriminate].
    destruct (isAbortError x (elapse (fst e) r)); [discriminate|].
    injection H as _ <-. by apply (watched_elapse (fst e) r W).
  - pose proof (watched_elapse d r W) as [S1 W1]. destruct ev as [data| |m].
    + by apply (IH (push_stderr data (elapse d r)) err r').
    + apply (IH (abort (elapse d r)) err r'); [|done]. by split.
    + destruct (aborted (resetActivityTimeout (count_message (elapse d r)))); [discriminate|].
      apply (IH _ err r' (watched_yield onChunk onStreamJson m _ (conj S1 W1)) H).
Qed.

End ClientMore.

Section SendMore.

Import Client Streams.

Variable claudeQuery : nat -> QueryOptions -> Stream.
Variables (workDir prompt : string) (ab : bool) (sid : option string).
Variables (onChunk onStreamJson cont : bool).
Variable mo : option ClaudeModelOptions.
Variable root : option string.

#[local] Abbreviation send :=
  (sendToClaudeCode claudeQuery workDir prompt ab sid onChunk onStreamJson cont mo root).
#[local] Abbreviation q1 := (queryOptions workDir prompt sid cont mo root None false).
#[local] Abbreviation q2 :=
  (queryOptions workDir prompt sid cont mo root (Some FALLBACK_MODEL) true).
#[local] Abbreviation attempt1 :=
  (loop onChunk onStreamJson (q_model q1) (events (claudeQuery 0 q1))
     (ending (claudeQuery 0 q1)) (start ab None)).
#[local] Abbreviation attempt2 r1 :=
  (loop onChunk onStreamJson (q_model q2) (events (claudeQuery 1 q2))
     (ending (claudeQuery 1 q2)) (start ab (Some r1))).
#[local] Abbreviation failed :=
  (firstFailed claudeQuery workDir prompt ab sid onChunk onStreamJson cont mo root q1).

(** [sendToClaudeCode] by the outcome of its first attempt. *)
Lemma send_first o1 r1 :
  attempt1 = (o1, r1) ->
  send = match o1 with
         | ExecReturned result =>
             if r_aborted result then
               {| queries := [q1];
                  outcome := Returned (cancelled (Some (r_modelUsed result))
                                         (Some (r_stderrOutput result)));
                  final := r1 |}
             else match last (r_messages result) with
                  | Some lastMessage =>
                      {| queries := [q1];
                         outcome := Returned (completed result lastMessage
                                                (Some (r_stderrOutput result)));
                         final := r1 |}
                  | None => failed inOperatorError r1
                  end
         | ExecThrown error => failed error r1
         | ExecHung => {| queries := [q1]; outcome := Hung; final := r1 |}
         end.
Proof.
  intros H. unfold sendToClaudeCode, executeWithErrorHandling. by rewrite H.
Qed.

(** The catch block of the first attempt by the outcome of the retry. *)
Lemma failed_retry error r1 o2 r2 :
  isExitCode1 error = true -> attempt2 r1 = (o2, r2) ->
  failed error r1
  = {| queries := [q1; q2];
       outcome :=
         match o2 with
         | ExecReturned retryResult =>
             if r_aborted retryResult
             then Returned (cancelled (Some (r_modelUsed retryResult)) None)
             else match last (r_messages retryResult) with
                  | Some lastRetryMessage =>
                      Returned (completed retryResult lastRetryMessage None)
                  | None => retryFailed inOperatorError r2
                  end
         | ExecThrown retryError => retryFailed retryError r2
         | ExecHung => Hung
         end;
       final := r2 |}.
Proof.
  intros X H. unfold firstFailed, executeWithErrorHandling. by rewrite X, H.
Qed.

Lemma failed_other error r1 :
  isExitCode1 error = false ->
  failed error r1 = {| queries := [q1]; outcome := Thrown error; final := r1 |}.
Proof. intros X. unfold firstFailed. by rewrite X. Qed.

(** What [retryFailed] returns is the cancelled response, if it returns. *)
Lemma retryFailed_returned e r x :
  retryFailed e r = Returned x -> x = cancelled (Some "Claude Sonnet 4") None.
Proof. unfold retryFailed. destruct (isAbortError e r); by intros [= <-]. Qed.


(** X4. With a JSON callback ([onStreamJson]) [sendToClaudeCode] accumulates no
    text: [onChunk] is never called, and the response it resolves with reads
    [No response received], or [Request was cancelled], whatever the
    assistant wrote. *)
Theorem json_stream_leaves_no_response_text :
  onStreamJson = true ->
  chunks (final send) = []
  /\ forall r, outcome send = Returned r ->
       response r = "No response received" \/ response r = "Request was cancelled".
Proof.
  intros J. destruct attempt1 as [o1 r1] eqn:L1. rewrite (send_first o1 r1 L1).
  pose proof L1 as L1'. rewrite J in L1'.
  destruct (loop_json _ _ _ _ (start ab None) _ _ eq_refl eq_refl L1') as (R1 & C1 & T1).
  assert (forall error,
            chunks (final (failed error r1)) = []
            /\ forall r, outcome (failed error r1) = Returned r ->
                 response r = "No response received"
                 \/ response r = "Request was cancelled") as Hfailed.
  { intros error. destruct (isExitCode1 error) eqn:X.
    - destruct (attempt2 r1) as [o2 r2] eqn:L2. rewrite (failed_retry error r1 o2 r2 X L2).
      pose proof L2 as L2'. rewrite J in L2'.
      destruct (loop_json _ _ _ _ (start ab (Some r1)) _ _ eq_refl C1 L2') as (R2 & C2 & T2).
      cbn [outcome final]. split; [done|]. intros r.
      destruct o2 as [res|e2|]; [| |discriminate].
      + destruct (r_aborted res); [intros [= <-]; by right|].
        destruct (last (r_messages res)).
        * intros [= <-]. left. simpl. by rewrite (T2 res eq_refl).
        * intros ->%retryFailed_returned. by right.
      + intros ->%retryFailed_returned. by right.
    - rewrite (failed_other error r1 X). done. }
  destruct o1 as [res|e1|]; [| |done].
  - destruct (r_aborted res); [split; [done|]; intros r [= <-]; by right|].
    destruct (last (r_messages res)); [|apply Hfailed].
    split; [done|]. intros r [= <-]. left. simpl. by rewrite (T1 res eq_refl).
  - apply Hfailed.
Qed.

(** X5. A stream that ends in less than 30 s without a message, the controller
    not aborted, makes [sendToClaudeCode] reject: the result is built from
    the last message, there is none, and the [in] operator throws a
    TypeError. One query was made; the failure is not retried. *)
Theorem stream_without_message_rejects_with_type_error :
  ab = false ->
  stderrOnly (events (claudeQuery 0 q1)) = true ->
  snd (ending (claudeQuery 0 q1)) = Done ->
  (lasting (claudeQuery 0 q1) < STARTUP_TIMEOUT)%N ->
  outcome send = Thrown inOperatorError /\ queries send = [q1].
Proof.
  intros Hab Q E Hd. unfold lasting in Hd.
  destruct attempt1 as [o1 r1] eqn:L1. rewrite (send_first o1 r1 L1).
  rewrite Hab in L1. rewrite <- (app_nil_r (events _)) in L1. rewrite loop_stderrOnly in L1 by done.
  destruct (play_stderrOnly_wait onChunk onStreamJson Startup [] _ STARTUP_TIMEOUT
              (start false None) Q (start_armed false eq_refl)) as [A M]; [lia|].
  cbn [loop] in L1. rewrite E in L1. cbn [finish] in L1.
  pose proof (elapse_wait _ _ _ (fst (ending (claudeQuery 0 q1))) _ A) as A';
    destruct A' as (_ & Ha & _); [lia|].
  destruct (elapse_data (fst (ending (claudeQuery 0 q1)))
              (play onChunk onStreamJson (events (claudeQuery 0 q1)) (start false None)))
    as (_ & M1 & _).
  injection L1 as <- <-. cbn [r_aborted result_of r_messages set_timer aborted currentMessages].
  rewrite Ha, M1, M.
  change (last (currentMessages (start false None))) with (@None SDKMessage).
  cbv iota. by rewrite failed_other by apply inOperatorError_not_exit1.
Qed.


(** X8. When the first attempt throws the exit-code-1 error its timer is not
    cleared: it has at most 5 minutes left, and 30 s less the time spent if
    no message had come. The retry shares the controller, so a retry whose
    stream lasts as long as what is left is aborted by that timer and comes
    back cancelled, if it comes back. *)
Theorem retry_inherits_the_deadline_of_the_first_attempt e :
  let first := snd (executeWithErrorHandling claudeQuery workDir prompt ab sid
                      onChunk onStreamJson cont mo root 0 None None false) in
  fst first = ExecThrown e -> isExitCode1 e = true ->
  exists k left,
    timeoutId (snd first) = Some {| t_kind := k; t_left := left |}
    /\ (left <= ACTIVITY_TIMEOUT)%N
    /\ (stderrOnly (events (claudeQuery 0 q1)) = true ->
        k = Startup
        /\ (lasting (claudeQuery 0 q1) < STARTUP_TIMEOUT)%N
        /\ left = (STARTUP_TIMEOUT - lasting (claudeQuery 0 q1))%N)
    /\ ((left <= lasting (claudeQuery 1 q2))%N ->
        queries send = [q1; q2]
        /\ aborted (final send) = true
        /\ (outcome send = Hung
            \/ exists m, outcome send = Returned (cancelled (Some m) None))).
Proof.
  unfold executeWithErrorHandling. cbn [snd].
  destruct attempt1 as [o1 r1] eqn:L1. cbn [fst snd]. intros -> X.
  destruct (loop_thrown_pending _ _ _ _ _ _ _ _ (start_watched ab) L1)
    as (k & L & T & HL & Hc).
  destruct (loop_thrown _ _ _ _ _ _ _ _ L1) as (_ & A1 & _).
  exists k, L. split; [exact T|]. split; [exact HL|]. split.
  - intros Q. unfold lasting.
    assert (ab = false) as Hab.
    { destruct ab eqn:E; [|done].
      destruct (loop_aborted _ _ _ _ _ (start true None) _ _ eq_refl L1)
        as (_ & _ & [O|(res & O & _)]); discriminate. }
    rewrite Hab in L1.
    destruct (N.lt_ge_cases (delays (events (claudeQuery 0 q1)) + fst (ending (claudeQuery 0 q1)))
                STARTUP_TIMEOUT) as [Hlt|Hge].
    + rewrite <- (app_nil_r (events _)) in L1. rewrite loop_stderrOnly in L1 by done.
      destruct (play_stderrOnly_wait onChunk onStreamJson Startup [] _ STARTUP_TIMEOUT
                  (start false None) Q (start_armed false eq_refl)) as [A M]; [lia|].
      pose proof (elapse_wait _ _ _ (fst (ending (claudeQuery 0 q1))) _ A) as A';
        destruct A' as (T' & _); [lia|].
      cbn [loop] in L1. unfold finish in L1.
      destruct (snd (ending (claudeQuery 0 q1))) as [|x|]; [discriminate| |discriminate].
      destruct (isAbortError x _); [discriminate|]. injection L1 as _ <-.
      rewrite T' in T. injection T as <- <-. split; [done|]. split; [done|]. lia.
    + rewrite <- (app_nil_r (events _)) in L1.
      destruct (loop_silent _ _ _ Startup STARTUP_TIMEOUT [] _ [] _ _ _ _
                  (start_armed false eq_refl) Q Hge L1)
        as (_ & [O|(res & O & _)]); discriminate.
  - intros Hd. unfold lasting in Hd. rewrite (send_first _ r1 L1).
    destruct (attempt2 r1) as [o2 r2] eqn:L2. rewrite (failed_retry e r1 o2 r2 X L2).
    cbn [queries final outcome]. split; [done|].
    assert (doomed L (start ab (Some r1))) as D.
    { right. exists k, (messageCount r1). simpl. rewrite T. done. }
    destruct (loop_doomed _ _ _ _ _ _ _ _ _ D Hd L2) as (A2 & [->|(res & -> & Ar)]).
    + split; [done|by left].
    + split; [done|]. right. exists (r_modelUsed res). by rewrite Ar.
Qed.

End SendMore.

Section ClientCases.
Import Client Scenario StreamSamples Streams.

(** [sendToClaudeCode] with the JSON callback, on a given SDK. *)
#[local] Abbreviation sendJson sdk :=
  (sendToClaudeCode sdk "/w/alpha" "p0" false (Some "s0") false true false None (Some "/w")).

(** [sendToClaudeCode] with the text callback, on a given SDK. *)
#[local] Abbreviation sendText ab sdk :=
  (sendToClaudeCode sdk "/w/alpha" "p0" ab (Some "s0") true false false None (Some "/w")).


Lemma json_stream_leaves_no_response_text_witness :
  chunks (final (sendJson (fun _ _ => answers))) = []
  /\ exists r, outcome (sendJson (fun _ _ => answers)) = Returned r
               /\ response r = "No response received".
Proof.
  destruct (json_stream_leaves_no_response_text (fun _ _ => answers) "/w/alpha" "p0"
              false (Some "s0") false true false None (Some "/w") eq_refl) as [H1 H2].
  split; [exact H1|].
  assert (exists r, outcome (sendJson (fun _ _ => answers)) = Returned r
                    /\ response r <> "Request was cancelled") as (r & E & N).
  { eexists. split; [vm_compute; reflexivity|vm_compute; discriminate]. }
  exists r. split; [exact E|]. by destruct (H2 r E) as [R|R].
Defined.

Lemma stream_without_message_rejects_with_type_error_witness :
  outcome (sendText false (fun _ _ => mute)) = Thrown inOperatorError.
Proof.
  destruct (stream_without_message_rejects_with_type_error (fun _ _ => mute)
              "/w/alpha" "p0" false (Some "s0") true false false None (Some "/w"))
    as [H _]; [reflexivity|reflexivity|reflexivity|vm_compute; reflexivity|exact H].
Defined.


Lemma retry_inherits_the_deadline_of_the_first_attempt_witness :
  length (queries (sendJson slowRetry)) = 2
  /\ aborted (final (sendJson slowRetry)) = true.
Proof.
  destruct (retry_inherits_the_deadline_of_the_first_attempt slowRetry "/w/alpha" "p0"
              false (Some "s0") false true false None (Some "/w")
              {| e_name := "Error"; e_message := e_message exit1;
                 e_stderrOutput := Some "" |})
    as (k & left & T & _ & S & R).
  - vm_compute. reflexivity.
  - vm_compute. reflexivity.
  - destruct (S eq_refl) as (_ & _ & ->).
    destruct R as (Q & A & _); [vm_compute; discriminate|].
    split; [|exact A]. by rewrite Q.
Defined.

End ClientCases.

(** ** Sessions across restarts, /status and shutdown *)

Section LifecycleFacts.

Import Client Bot Lifecycle.

Lemma steady_refl s : steady s s.
Proof.
  split; try done.
  - intros ch cs E. eauto.
  - intros ch cs' E1 E2. congruence.
Qed.

Lemma steady_trans s1 s2 s3 : steady s1 s2 -> steady s2 s3 -> steady s1 s3.
Proof.
  intros [W1 K1 N1 S1] [W2 K2 N2 S2]. split.
  - congruence.
  - intros ch cs E. destruct (K1 ch cs E) as (cs' & E' & ? & ?).
    destruct (K2 ch cs' E') as (cs'' & E'' & ? & ?). exists cs''. split; [done|].
    split; congruence.
  - intros ch cs'' E1 E3. destruct (channelSessions s2 !! ch) as [cs'|] eqn:E2.
    + destruct (N1 ch cs' E1 E2) as (name & Hn & Hw).
      destruct (K2 ch cs' E2) as (cs3 & E3' & ? & ?).
      assert (cs3 = cs'') as -> by congruence.
      exists name. split; congruence.
    + destruct (N2 ch cs'' E2 E3) as (name & Hn & Hw). exists name.
      split; [done|]. by rewrite Hw, W1.
  - auto.
Qed.

(** A step that touches neither the sessions, nor the session file, nor
    the working directory. *)
Lemma steady_same s s' :
  channelSessions s' = channelSessions s -> persisted s' = persisted s ->
  workDir s' = workDir s -> steady s s'.
Proof.
  intros E P W. split; [done| | |].
  - intros ch cs H. rewrite E. eauto.
  - intros ch cs' H1 H2. rewrite E in H2. congruence.
  - intros S ch. by rewrite P, E.
Qed.

Lemma fresh_saved w n :
  saved {| controller := None; sessionId := None; channelWorkDir := w;
           channelName := n; messageQueue := [] |} = None.
Proof. reflexivity. Qed.

Lemma steady_getChannelSession ch n s : steady s (snd (getChannelSession ch n s)).
Proof.
  unfold getChannelSession. destruct (channelSessions s !! ch) eqn:E; [apply steady_refl|].
  simpl. split; [done| | |].
  - intros ch' cs H. simpl. exists cs. rewrite lookup_insert_ne; [done|]. congruence.
  - intros ch' cs' H1 H2. simpl in H2. destruct (decide (ch = ch')) as [->|Hne].
    + rewrite lookup_insert_eq in H2. injection H2 as <-. by exists n.
    + rewrite lookup_insert_ne in H2 by done. congruence.
  - intros S ch'. simpl. destruct (decide (ch = ch')) as [->|Hne].
    + rewrite lookup_insert_eq. simpl. by rewrite S, E.
    + rewrite lookup_insert_ne by done. apply S.
Qed.

(** The session of a channel replaced by one with the same folder, name
    and id. *)
Lemma steady_update a cs cs' s :
  channelSessions s !! a = Some cs ->
  channelWorkDir cs' = channelWorkDir cs -> channelName cs' = channelName cs ->
  saved cs' = saved cs ->
  steady s (set_sessions (<[a := cs']> (channelSessions s)) s).
Proof.
  intros E Hw Hn Hs. split; [done| | |].
  - intros ch x H. simpl. destruct (decide (a = ch)) as [->|Hne].
    + rewrite lookup_insert_eq. exists cs'. split; [done|]. split; congruence.
    + rewrite lookup_insert_ne by done. eauto.
  - intros ch x H1 H2. simpl in H2. destruct (decide (a = ch)) as [->|Hne]; [congruence|].
    rewrite lookup_insert_ne in H2 by done. congruence.
  - intros S ch. simpl. destruct (decide (a = ch)) as [->|Hne].
    + rewrite lookup_insert_eq. simpl. by rewrite Hs, S, E.
    + rewrite lookup_insert_ne by done. apply S.
Qed.

Lemma steady_setController c s : steady s (setController c s).
Proof.
  unfold setController. destruct (active s) as [a|]; [|apply steady_refl].
  pose proof (steady_getChannelSession a None s) as G.
  pose proof (getChannelSession_lookup a None s) as L.
  destruct (getChannelSession a None s) as [cs s1]. simpl in G, L.
  eapply steady_trans; [exact G|]. by apply (steady_update a cs).
Qed.

Lemma steady_getController s : steady s (snd (getController s)).
Proof.
  unfold getController. destruct (active s) as [a|]; [|apply steady_refl].
  pose proof (steady_getChannelSession a None s) as G.
  destruct (getChannelSession a None s) as [cs s1]. exact G.
Qed.

Lemma steady_getSessionId s : steady s (snd (getSessionId s)).
Proof.
  unfold getSessionId. destruct (active s) as [a|]; [|apply steady_refl].
  pose proof (steady_getChannelSession a None s) as G.
  destruct (getChannelSession a None s) as [cs s1]. exact G.
Qed.

Lemma saveSessionState_sync s : sync (saveSessionState s).
Proof. intros ch. unfold saveSessionState. simpl. apply lookup_omap. Qed.

Lemma steady_setSessionId i s : steady s (setSessionId i s).
Proof.
  unfold setSessionId. destruct (active s) as [a|]; [|apply steady_refl].
  pose proof (steady_getChannelSession a None s) as [W K N _].
  pose proof (getChannelSession_lookup a None s) as L.
  destruct (getChannelSession a None s) as [cs s1]. simpl in W, K, N, L.
  split.
  - exact W.
  - intros ch x H. destruct (K ch x H) as (x' & H' & ? & ?). simpl.
    destruct (decide (a = ch)) as [->|Hne].
    + rewrite lookup_insert_eq. eexists. split; [done|].
      assert (x' = cs) as -> by congruence. done.
    + rewrite lookup_insert_ne by done. eauto.
  - intros ch x H1 H2. simpl in H2. destruct (decide (a = ch)) as [->|Hne].
    + rewrite lookup_insert_eq in H2. injection H2 as <-. simpl.
      by apply (N ch cs H1).
    + rewrite lookup_insert_ne in H2 by done. by apply N.
  - intros _. apply saveSessionState_sync.
Qed.

Lemma steady_abortController c s : steady s (abortController c s).
Proof. by apply steady_same. Qed.

Lemma steady_newController s : steady s (snd (newController s)).
Proof. by apply steady_same. Qed.

Lemma steady_say o s : steady s (say o s).
Proof. by apply steady_same. Qed.

Lemma steady_set_active a s : steady s (set_active a s).
Proof. by apply steady_same. Qed.

Lemma steady_set_activations l s : steady s (set_activations l s).
Proof. by apply steady_same. Qed.

Lemma steady_setChannel a s : steady s (setChannel a s).
Proof. unfold setChannel. destruct (js_truthy a); [by apply steady_same|apply steady_refl]. Qed.

(** The queue of a session replaced. *)
Lemma steady_requeue a cs q s :
  channelSessions s !! a = Some cs ->
  steady s (set_sessions (<[a := with_queue q cs]> (channelSessions s)) s).
Proof. intros E. by apply (steady_update a cs). Qed.

Ltac steady_chain :=
  repeat first
    [ apply steady_refl
    | apply steady_say | apply steady_set_active | apply steady_set_activations
    | apply steady_setController | apply steady_setSessionId
    | apply steady_abortController | apply steady_setChannel
    | eapply steady_trans; [|first
        [ apply steady_say | apply steady_set_activations
        | apply steady_setController | apply steady_setSessionId ]] ].

Lemma steady_onClaude_begin rv ctx p sid s :
  steady s (snd (onClaude_begin rv deps ctx p sid None s)).
Proof.
  unfold onClaude_begin. cbn [deps deps_workDir claudeController setClaudeController].
  assert (forall x : Controller * State,
    x = (let '(cur, s0) := getController s in
         let '(c, s3) := newController
            match cur with Some c0 => abortController c0 s0 | None => s0 end in
         (c, setController (Some c) s3)) ->
    steady s (snd x)) as H.
  { intros x ->. pose proof (steady_getController s) as G.
    destruct (getController s) as [cur s0]. simpl in G. simpl.
    eapply steady_trans; [exact G|].
    eapply steady_trans; [|apply steady_setController].
    eapply steady_trans; [|apply steady_newController].
    destruct cur; [apply steady_abortController|apply steady_refl]. }
  destruct rv;
    set (x := let '(cur, s0) := getController s in _);
    specialize (H x eq_refl); destruct x as [c s1]; simpl;
    (eapply steady_trans; [exact H|apply steady_say]).
Qed.

Lemma steady_onClaude_end rv ctx c cwd ext o s :
  steady s (snd (onClaude_end rv deps ctx c cwd ext o s)).
Proof.
  unfold onClaude_end. cbn [deps claudeController setClaudeController setClaudeSessionId].
  destruct rv, o as [r n|e|]; simpl; repeat case_match; steady_chain.
Qed.

Lemma steady_onClaudeCancel s : steady s (snd (onClaudeCancel deps s)).
Proof.
  unfold onClaudeCancel. cbn [deps claudeController setClaudeController setClaudeSessionId].
  pose proof (steady_getController s) as G.
  destruct (getController s) as [[c|] s0]; simpl in G |- *; [|exact G].
  eapply steady_trans; [exact G|]. steady_chain.
Qed.

Lemma steady_arrive ch name s : steady s (onMessage_arrive ch name s).
Proof.
  unfold onMessage_arrive. eapply steady_trans; [apply steady_set_active|].
  apply steady_getChannelSession.
Qed.

Lemma steady_processMessage_begin rv ch ctx p s :
  steady s (snd (processMessage_begin rv ch ctx p s)).
Proof. apply steady_onClaude_begin. Qed.

Lemma steady_resume rv ctx p ch s : steady s (snd (onMessage_resume rv ctx p ch s)).
Proof.
  unfold onMessage_resume. destruct (channelSessions s !! ch) as [session|] eqn:E;
    [|apply steady_refl].
  destruct (busy session s).
  - simpl. eapply steady_trans; [by apply (steady_requeue ch session)|apply steady_say].
  - pose proof (steady_processMessage_begin rv ch ctx p s) as B.
    destruct (processMessage_begin rv ch ctx p s) as [[c cwd] s1]. simpl in B |- *.
    eapply steady_trans; [exact B|apply steady_set_activations].
Qed.

Lemma steady_settle rv t o s : steady s (settle rv t o s).
Proof.
  unfold settle. destruct (activations s !! t) as [a|]; [|apply steady_refl].
  destruct (a_status a); try apply steady_refl.
  destruct (a_frames a) as [|f fs].
  { destruct rv, o; apply steady_refl. }
  assert (steady s
    match onClaude_end rv deps (f_ctx f) (a_controller a) (a_currentWorkDir a) false o s with
    | (Returns, s0) =>
        set_activations
          (<[t := {| a_channel := a_channel a; a_frames := f :: fs;
                     a_controller := a_controller a;
                     a_currentWorkDir := a_currentWorkDir a;
                     a_status := Settled |}]> (activations s0)) s0
    | (Rejects msg, s0) =>
        say (SayRejected match last (f :: fs) with
                         | Some f0 => f_ctx f0 | None => f_ctx f end msg)
          (set_activations
             (<[t := {| a_channel := a_channel a; a_frames := [];
                        a_controller := a_controller a;
                        a_currentWorkDir := a_currentWorkDir a;
                        a_status := Rejected |}]> (activations s0)) s0)
    end) as H.
  { pose proof (steady_onClaude_end rv (f_ctx f) (a_controller a) (a_currentWorkDir a)
                  false o s) as E.
    destruct (onClaude_end rv deps (f_ctx f) (a_controller a) (a_currentWorkDir a) false o s)
      as [[|msg] s0]; simpl in E.
    - eapply steady_trans; [exact E|apply steady_set_activations].
    - eapply steady_trans; [exact E|].
      eapply steady_trans; [apply steady_set_activations|apply steady_say]. }
  destruct rv, o; first [exact H|apply steady_refl].
Qed.

Lemma steady_drain rv t s : steady s (drain rv t s).
Proof.
  unfold drain. destruct (activations s !! t) as [a|]; [|apply steady_refl].
  destruct (a_status a); try apply steady_refl.
  destruct (channelSessions s !! a_channel a) as [session|] eqn:E; [|apply steady_refl].
  destruct (messageQueue session) as [|next rest]; [apply steady_set_activations|].
  set (s0 := set_active _ _).
  assert (steady s s0) as H0.
  { unfold s0. eapply steady_trans; [by apply (steady_requeue (a_channel a) session)|].
    apply steady_set_active. }
  pose proof (steady_processMessage_begin rv (a_channel a) (qm_ctx next) (qm_prompt next) s0)
    as B.
  destruct (processMessage_begin rv (a_channel a) (qm_ctx next) (qm_prompt next) s0)
    as [[c cwd] s1]. simpl in B.
  eapply steady_trans; [exact H0|]. eapply steady_trans; [exact B|].
  apply steady_set_activations.
Qed.

Lemma steady_cancel ctx ch s : steady s (snd (cancel ctx ch s)).
Proof.
  unfold cancel. pose proof (steady_onClaudeCancel (setChannel ch s)) as C.
  destruct (onClaudeCancel deps (setChannel ch s)) as [b s1]. simpl in C |- *.
  eapply steady_trans; [apply steady_setChannel|].
  eapply steady_trans; [exact C|apply steady_say].
Qed.

Lemma steady_new ctx ch s : steady s (new ctx ch s).
Proof.
  unfold new. pose proof (steady_onClaudeCancel (setChannel ch s)) as C.
  destruct (onClaudeCancel deps (setChannel ch s)) as [b s1]. simpl in C |- *.
  eapply steady_trans; [apply steady_setChannel|].
  eapply steady_trans; [exact C|]. steady_chain.
Qed.

Lemma steady_status ch s : steady s (snd (status ch s)).
Proof.
  unfold status. pose proof (steady_getSessionId (setChannel ch s)) as G1.
  destruct (getSessionId (setChannel ch s)) as [i s1]. simpl in G1.
  pose proof (steady_getController s1) as G2.
  destruct (getController s1) as [c s2]. simpl in G2 |- *.
  eapply steady_trans; [apply steady_setChannel|].
  eapply steady_trans; [exact G1|exact G2].
Qed.

Lemma steady_step rv s e : steady s (step rv s e).
Proof.
  destruct e; simpl.
  - apply steady_arrive.
  - apply steady_resume.
  - apply steady_settle.
  - apply steady_drain.
  - apply steady_cancel.
  - apply steady_new.
Qed.

Lemma steady_run rv es : forall s, steady s (run rv s es).
Proof.
  induction es as [|e es IH]; intros s; [apply steady_refl|].
  simpl. eapply steady_trans; [apply steady_step|apply IH].
Qed.

Lemma folderOf_again ch name : folderOf ch (Some (folderOf ch name)) = folderOf ch name.
Proof.
  unfold folderOf, js_or. destruct name as [x|]; [destruct (truthy x) eqn:T|].
  - by rewrite T.
  - by destruct (truthy ch).
  - by destruct (truthy ch).
Qed.

Lemma steady_housed s s' : steady s s' -> housed s -> housed s'.
Proof.
  intros [W K N _] H ch cs' E'. destruct (channelSessions s !! ch) as [cs|] eqn:E.
  - destruct (K ch cs E) as (x & Ex & Hw & Hn). assert (x = cs') as -> by congruence.
    rewrite Hw, Hn, W. by apply H.
  - destruct (N ch cs' E E') as (name & Hn & Hw). rewrite Hw, Hn, W.
    by rewrite folderOf_again.
Qed.

(** The bot as it starts, from a session file all of whose entries have a
    session id: the file lists the sessions, each in its folder. *)
Lemma loaded_sync dir content :
  (forall state, content = Some state ->
     map_Forall (fun _ entry => truthy (fst entry) = true) state) ->
  sync (loadSessionState dir content).
Proof.
  intros H ch. destruct content as [state|]; [|done]. simpl.
  rewrite map_lookup_imap. destruct (state !! ch) as [[i n]|] eqn:E; [|done].
  simpl. unfold restored. simpl.
  pose proof (H state eq_refl ch (i, n) E) as T. simpl in T. rewrite T. simpl.
  unfold saved. simpl. by rewrite T.
Qed.

Lemma loaded_housed dir content : housed (loadSessionState dir content).
Proof.
  intros ch cs. destruct content as [state|]; [|done]. simpl.
  rewrite map_lookup_imap. destruct (state !! ch) as [[i n]|]; [|done].
  simpl. unfold restored. simpl. destruct (truthy i); [|done]. by intros [= <-].
Qed.

Lemma sync_sessionId s ch :
  sync s ->
  fst <$> persisted s !! ch
  = if js_truthy (sessionId_of ch s) then sessionId_of ch s else None.
Proof.
  intros S. rewrite S. unfold sessionId_of.
  destruct (channelSessions s !! ch) as [cs|]; [|done]. simpl.
  unfold saved. destruct (sessionId cs) as [i|]; [|done]. simpl.
  by destruct (truthy i).
Qed.

(** X11. However the bot runs from its start, the session file holds exactly
    the channels whose session has a non-empty id, each with that id, and
    saving again rewrites it unchanged; given that every entry of the file
    found at the start has an id. *)
Theorem session_file_lists_the_session_ids rv dir content es :
  (forall state, content = Some state ->
     map_Forall (fun _ entry => truthy (fst entry) = true) state) ->
  let s := run rv (loadSessionState dir content) es in
  persisted (saveSessionState s) = persisted s
  /\ forall ch,
       fst <$> persisted s !! ch
       = if js_truthy (sessionId_of ch s) then sessionId_of ch s else None.
Proof.
  intros H s.
  assert (sync s) as S
    by (apply (steady_sync _ _ (steady_run rv es _)); by apply loaded_sync).
  split.
  - apply map_eq. intros ch. rewrite (saveSessionState_sync s ch). symmetry. apply S.
  - intros ch. by apply sync_sessionId.
Qed.

(** X12. Stopped and started again in the same working directory, the bot has
    exactly the sessions that had a session id, with their id, folder and
    name, no handle and an empty queue: queued messages and sessions
    without id are gone. *)
Theorem restart_restores_the_sessions_that_have_an_id rv dir content es :
  (forall state, content = Some state ->
     map_Forall (fun _ entry => truthy (fst entry) = true) state) ->
  let s := run rv (loadSessionState dir content) es in
  workDir (restart s) = dir
  /\ forall ch,
       channelSessions (restart s) !! ch
       = channelSessions s !! ch
         ≫= fun cs => if js_truthy (sessionId cs)
                       then Some (with_queue [] (with_controller None cs))
                       else None.
Proof.
  intros H s.
  pose proof (steady_run rv es (loadSessionState dir content)) as St. fold s in St.
  assert (sync s) as S by (apply (steady_sync _ _ St); by apply loaded_sync).
  assert (housed s) as Hs by (apply (steady_housed _ _ St); apply loaded_housed).
  assert (workDir s = dir) as W.
  { rewrite (steady_workDir _ _ St). by destruct content. }
  split; [exact W|]. intros ch. unfold restart. simpl.
  rewrite map_lookup_imap, S.
  destruct (channelSessions s !! ch) as [cs|] eqn:E; [|done]. simpl.
  unfold saved. destruct (sessionId cs) as [i|] eqn:Ei; [|done]. simpl.
  destruct (truthy i) eqn:T; [|done]. simpl. unfold restored. simpl. rewrite T.
  f_equal. unfold with_queue, with_controller. simpl. rewrite Ei.
  by rewrite (Hs ch cs E).
Qed.

(** The session of a channel as [getChannelSession] makes it when it is
    called without a name. *)
Lemma getChannelSession_unnamed ch s :
  channelSessions s !! ch = None ->
  getChannelSession ch None s
  = ({| controller := None; sessionId := None;
        channelWorkDir := workDir s +:+ "/" +:+ ch;
        channelName := Some ch; messageQueue := [] |},
     set_sessions
       (<[ch := {| controller := None; sessionId := None;
                   channelWorkDir := workDir s +:+ "/" +:+ ch;
                   channelName := Some ch; messageQueue := [] |}]> (channelSessions s)) s).
Proof. intros E. unfold getChannelSession. by rewrite E. Qed.

(** /status on a channel: what it reports and the state it leaves. *)
Lemma status_found ch s cs :
  truthy ch = true -> channelSessions s !! ch = Some cs ->
  status (Some ch) s
  = ({| st_channel := "<#" +:+ ch +:+ ">";
        st_status := if busy cs s then "Running" else "Idle";
        st_session :=
          match sessionId cs with
          | Some i => if truthy i then "`" +:+ substring 0 20 i +:+ "...`"
                      else "No active session"
          | None => "No active session"
          end;
        st_workDir := "`" +:+ channelWorkDir cs +:+ "`" |},
     set_active (Some ch) s).
Proof.
  intros T E. unfold status, setChannel. cbn [js_truthy]. rewrite T.
  unfold getSessionId. rewrite active_set by done.
  rewrite (getChannelSession_found ch None _ cs) by done.
  rewrite (getController_found ch _ cs (active_set ch s T) E).
  unfold getClaudeWorkDir. rewrite active_set by done. cbn [channelSessions set_active].
  rewrite E. unfold busy, isAborted. simpl. by destruct (controller cs).
Qed.

Lemma status_fresh ch s :
  truthy ch = true -> channelSessions s !! ch = None ->
  let cs := {| controller := None; sessionId := None;
               channelWorkDir := workDir s +:+ "/" +:+ ch;
               channelName := Some ch; messageQueue := [] |} in
  status (Some ch) s
  = ({| st_channel := "<#" +:+ ch +:+ ">"; st_status := "Idle";
        st_session := "No active session";
        st_workDir := "`" +:+ (workDir s +:+ "/" +:+ ch) +:+ "`" |},
     set_sessions (<[ch := cs]> (channelSessions s)) (set_active (Some ch) s)).
Proof.
  intros T E cs. unfold status, setChannel. cbn [js_truthy]. rewrite T.
  unfold getSessionId. rewrite active_set by done.
  rewrite getChannelSession_unnamed by done. cbn [workDir set_active channelSessions].
  set (s1 := set_sessions _ (set_active (Some ch) s)).
  rewrite (getController_found ch s1 cs (active_set ch s T));
    [|simpl; apply lookup_insert_eq].
  unfold getClaudeWorkDir, active, s1. simpl. rewrite T, lookup_insert_eq. done.
Qed.

Lemma resume_idle rv ctx p ch s session :
  channelSessions s !! ch = Some session -> busy session s = false ->
  exists c cwd s1,
    processMessage_begin rv ch ctx p s = (c, cwd, s1)
    /\ onMessage_resume rv ctx p ch s
       = (Dispatched (length (activations s1)),
          set_activations
            (activations s1 ++
               [{| a_channel := ch;
                   a_frames := [{| f_ctx := ctx; f_prompt := p |}];
                   a_controller := c; a_currentWorkDir := cwd;
                   a_status := Running |}]) s1).
Proof.
  intros E B. unfold onMessage_resume. rewrite E, B.
  destruct (processMessage_begin rv ch ctx p s) as [[c cwd] s1]. by exists c, cwd, s1.
Qed.

(** X15. /status reports [Running] for a channel exactly when a message sent to
    that channel at this moment would be queued. *)
Theorem status_says_running_when_a_message_would_be_queued rv s ch ctx p name :
  truthy ch = true ->
  st_status (fst (status (Some ch) s)) = "Running"
  <-> exists pos,
        fst (onMessage_resume rv ctx p ch (onMessage_arrive ch name s)) = Queued pos.
Proof.
  intros T. destruct (channelSessions s !! ch) as [cs|] eqn:E.
  - rewrite (status_found ch s cs T E). cbn [fst st_status].
    rewrite (arrive_existing ch name s cs E). unfold onMessage_resume.
    cbn [channelSessions set_active]. rewrite E.
    change (busy cs (set_active (Some ch) s)) with (busy cs s).
    destruct (busy cs s).
    + split; [eauto|done].
    + split; [done|]. intros [pos H].
      destruct (processMessage_begin rv ch ctx p (set_active (Some ch) s)) as [[c cwd] s1].
      discriminate.
  - rewrite (status_fresh ch s T E). cbn [fst st_status].
    split; [done|]. intros [pos H]. exfalso.
    unfold onMessage_arrive, getChannelSession in H. simpl in H. rewrite E in H.
    cbn [snd] in H.
    match type of H with (onMessage_resume _ _ _ _ ?s0).1 = _ =>
      match s0 with set_sessions (<[_ := ?cs]> _) _ =>
        destruct (resume_idle rv ctx p ch s0 cs) as (c & cwd & s1 & _ & R);
          [simpl; apply lookup_insert_eq|reflexivity|]
      end
    end.
    rewrite R in H. discriminate.
Qed.

(** *** The session of the active channel *)

Lemma active_same s s' : activeChannelId s' = activeChannelId s -> active s' = active s.
Proof. intros E. unfold active. by rewrite E. Qed.

Lemma getController_at ch s :
  active s = Some ch ->
  fst (getController s) = controller_of ch s
  /\ active (snd (getController s)) = Some ch.
Proof.
  intros A. split.
  - rewrite controller_of_field.
    rewrite <- (getChannelSession_fst_field controller None ch None s fresh_controller).
    unfold getController. rewrite A.
    by destruct (getChannelSession ch None s) as [cs s1].
  - rewrite <- A. apply active_same. apply getController_rest.
Qed.

Lemma setController_at c ch s :
  active s = Some ch ->
  controller_of ch (setController c s) = c
  /\ active (setController c s) = Some ch.
Proof.
  intros A. split.
  - unfold setController. rewrite A. destruct (getChannelSession ch None s) as [cs s1].
    unfold controller_of. simpl. by rewrite lookup_insert_eq.
  - rewrite <- A. apply active_same. apply setController_rest.
Qed.

Lemma setSessionId_at i ch s :
  active s = Some ch ->
  sessionId_of ch (setSessionId i s) = i
  /\ active (setSessionId i s) = Some ch
  /\ sync (setSessionId i s).
Proof.
  intros A. split; [|split].
  - unfold setSessionId. rewrite A. destruct (getChannelSession ch None s) as [cs s1].
    unfold sessionId_of. simpl. by rewrite lookup_insert_eq.
  - rewrite <- A. apply active_same. apply setSessionId_rest.
  - unfold setSessionId. rewrite A. destruct (getChannelSession ch None s) as [cs s1].
    apply saveSessionState_sync.
Qed.

Lemma setSessionId_controller i s ch :
  controller_of ch (setSessionId i s) = controller_of ch s.
Proof.
  rewrite !controller_of_field. by apply setSessionId_field; [apply fresh_controller|].
Qed.

Lemma setController_sessionId c s ch :
  sessionId_of ch (setController c s) = sessionId_of ch s.
Proof.
  rewrite !sessionId_of_field. by apply setController_field; [apply fresh_sessionId|].
Qed.

(** [onClaudeCancel] with channel [ch] active. *)
Lemma onClaudeCancel_at ch s :
  active s = Some ch ->
  let s' := snd (onClaudeCancel deps s) in
  fst (onClaudeCancel deps s) = bool_decide (is_Some (controller_of ch s))
  /\ controller_of ch s' = None
  /\ active s' = Some ch
  /\ (is_Some (controller_of ch s) -> sessionId_of ch s' = None)
  /\ signals s'
     = match controller_of ch s with
       | Some c => <[c := true]> (signals s)
       | None => signals s
       end
  /\ outputs s' = outputs s.
Proof.
  intros A. unfold onClaudeCancel.
  cbn [deps claudeController setClaudeController setClaudeSessionId].
  destruct (getController_at ch s A) as [G1 G2].
  pose proof (getController_rest s) as (_ & O & Sg & _).
  assert (controller_of ch (snd (getController s)) = controller_of ch s) as Gc
    by (rewrite !controller_of_field; apply getController_field, fresh_controller).
  destruct (getController s) as [cur s0]. simpl in G1, G2, O, Sg, Gc. subst cur.
  destruct (controller_of ch s) as [c|] eqn:C; simpl.
  - set (s1 := abortController c s0).
    assert (active s1 = Some ch) as A1 by exact G2.
    destruct (setController_at None ch s1 A1) as [C2 A2].
    destruct (setSessionId_at None ch _ A2) as (I3 & A3 & _).
    split; [done|]. split; [by rewrite setSessionId_controller|].
    split; [done|]. split; [done|]. split.
    + destruct (setSessionId_rest None (setController None s1)) as (_ & _ & -> & _).
      destruct (setController_rest None s1) as (_ & _ & -> & _). simpl. by rewrite Sg.
    + destruct (setSessionId_rest None (setController None s1)) as (_ & -> & _).
      destruct (setController_rest None s1) as (_ & -> & _). simpl. exact O.
  - split; [done|]. split; [congruence|]. split; [done|]. split; [by intros [? ?]|]. done.
Qed.

Lemma quiet_set_active a s : quiet s (set_active a s).
Proof. by split. Qed.

Lemma quiet_setChannel a s : quiet s (setChannel a s).
Proof. unfold setChannel. destruct (js_truthy a); [by split|apply quiet_refl]. Qed.

Lemma quiet_onClaudeCancel s : quiet s (snd (onClaudeCancel deps s)).
Proof.
  unfold onClaudeCancel. cbn [deps claudeController setClaudeController setClaudeSessionId].
  pose proof (quiet_getController s) as G.
  destruct (getController s) as [[c|] s0]; simpl in G |- *; [|exact G].
  eapply quiet_trans; [exact G|]. eapply quiet_trans; [apply quiet_abortController|].
  eapply quiet_trans; [apply quiet_setController|apply quiet_setSessionId].
Qed.

Lemma quiet_new ctx ch s : quiet s (new ctx ch s).
Proof.
  unfold new. pose proof (quiet_onClaudeCancel (setChannel ch s)) as C.
  destruct (onClaudeCancel deps (setChannel ch s)) as [b s1]. simpl in C |- *.
  eapply quiet_trans; [apply quiet_setChannel|]. eapply quiet_trans; [exact C|].
  eapply quiet_trans; [apply quiet_setSessionId|apply quiet_say].
Qed.

Lemma quiet_cancel ctx ch s : quiet s (snd (cancel ctx ch s)).
Proof.
  unfold cancel. pose proof (quiet_onClaudeCancel (setChannel ch s)) as C.
  destruct (onClaudeCancel deps (setChannel ch s)) as [b s1]. simpl in C |- *.
  eapply quiet_trans; [apply quiet_setChannel|]. eapply quiet_trans; [exact C|].
  apply quiet_say.
Qed.

Lemma quiet_arrive ch name s : quiet s (onMessage_arrive ch name s).
Proof.
  unfold onMessage_arrive. eapply quiet_trans; [apply (quiet_set_active (Some ch))|].
  split.
  - apply getChannelSession_rest.
  - intros c. rewrite !queue_of_field. by apply getChannelSession_field.
  - apply getChannelSession_sessions.
Qed.

(** [onClaude] up to its query, with channel [ch] active. *)
Lemma onClaude_begin_at rv ctx p sid ch s :
  active s = Some ch ->
  exists s1,
    onClaude_begin rv deps ctx p sid None s
    = (length (signals s), getClaudeWorkDir s, s1)
    /\ controller_of ch s1 = Some (length (signals s))
    /\ isAborted (length (signals s)) s1 = false
    /\ length (signals s1) = S (length (signals s))
    /\ active s1 = Some ch
    /\ sessionId_of ch s1 = sessionId_of ch s
    /\ activations s1 = activations s
    /\ outputs s1
       = outputs s ++ [Query ctx (getClaudeWorkDir s) p sid (length (signals s))].
Proof.
  intros A. unfold onClaude_begin.
  cbn [deps deps_workDir claudeController setClaudeController].
  assert (exists s1,
    (let '(cur, s0) := getController s in
     let s2 := match cur with Some c0 => abortController c0 s0 | None => s0 end in
     let '(c, s3) := newController s2 in (c, setController (Some c) s3))
    = (length (signals s), s1)
    /\ controller_of ch s1 = Some (length (signals s))
    /\ isAborted (length (signals s)) s1 = false
    /\ length (signals s1) = S (length (signals s))
    /\ active s1 = Some ch
    /\ sessionId_of ch s1 = sessionId_of ch s
    /\ activations s1 = activations s
    /\ outputs s1 = outputs s) as (s1 & E & H1 & H2 & H3 & H4 & H5 & H6 & H7).
  { destruct (getController_at ch s A) as [_ G2].
    pose proof (getController_rest s) as (Ga & Go & Gs & _).
    assert (sessionId_of ch (snd (getController s)) = sessionId_of ch s) as Gi
      by (rewrite !sessionId_of_field; apply getController_field, fresh_sessionId).
    destruct (getController s) as [cur s0]. simpl in G2, Ga, Go, Gs, Gi.
    set (s2 := match cur with Some c0 => abortController c0 s0 | None => s0 end).
    assert (length (signals s2) = length (signals s)) as Hl.
    { unfold s2. destruct cur; simpl; rewrite ?length_insert; by rewrite Gs. }
    assert (active s2 = Some ch /\ sessionId_of ch s2 = sessionId_of ch s
            /\ activations s2 = activations s /\ outputs s2 = outputs s)
      as (A2 & I2 & Ac2 & O2) by (unfold s2; destruct cur; simpl; done).
    cbn [newController]. set (s3 := set_signals (signals s2 ++ [false]) s2).
    assert (active s3 = Some ch) as A3 by exact A2.
    destruct (setController_at (Some (length (signals s2))) ch s3 A3) as [C4 A4].
    destruct (setController_rest (Some (length (signals s2))) s3) as (Ac4 & O4 & S4 & _).
    exists (setController (Some (length (signals s2))) s3).
    rewrite <- Hl. split; [done|]. split; [done|]. split.
    { unfold isAborted. rewrite S4. simpl. rewrite lookup_app_r by done.
      by rewrite Nat.sub_diag. }
    split; [rewrite S4; simpl; rewrite length_app; simpl; lia|].
    split; [done|]. split; [by rewrite setController_sessionId|].
    split; [by rewrite Ac4|by rewrite O4]. }
  cbv zeta in E. exists (say (Query ctx (getClaudeWorkDir s) p sid (length (signals s))) s1).
  split; [destruct rv; rewrite E; reflexivity|].
  simpl. rewrite H7. done.
Qed.

(** [onClaude] after a task has resolved, with channel [ch] active. *)
Lemma onClaude_end_at rv ctx c cwd r k ch s :
  active s = Some ch ->
  let s1 := snd (onClaude_end rv deps ctx c cwd false (Resolved r k) s) in
  fst (onClaude_end rv deps ctx c cwd false (Resolved r k) s) = Returns
  /\ controller_of ch s1 = None
  /\ sessionId_of ch s1 = Client.sessionId r
  /\ signals s1 = signals s
  /\ activations s1 = activations s
  /\ active s1 = Some ch.
Proof.
  intros A. unfold onClaude_end.
  cbn [deps claudeController setClaudeController setClaudeSessionId].
  destruct (setSessionId_at (Client.sessionId r) ch s A) as (I1 & A1 & _).
  destruct (setController_at None ch _ A1) as [C2 A2].
  destruct (setController_rest None (setSessionId (Client.sessionId r) s)) as (Ac2 & _ & S2 & _).
  destruct (setSessionId_rest (Client.sessionId r) s) as (Ac1 & _ & S1 & _).
  assert (sessionId_of ch (setController None (setSessionId (Client.sessionId r) s))
          = Client.sessionId r) as I2 by (by rewrite setController_sessionId).
  destruct rv; cbn [fst snd]; repeat case_match; simpl;
    (split; [done|]); (split; [done|]); (split; [done|]);
    (split; [congruence|]); (split; [congruence|done]).
Qed.

Lemma setSessionId_session i ch s :
  active s = Some ch -> is_Some (channelSessions (setSessionId i s) !! ch).
Proof.
  intros A. unfold setSessionId. rewrite A. destruct (getChannelSession ch None s) as [cs s1].
  simpl. rewrite lookup_insert_eq. eauto.
Qed.

(** A message for a channel that has a session and no handle starts a
    query under the session id of the channel. *)
Lemma submit_idle rv ctx p ch name s cs :
  truthy ch = true -> channelSessions s !! ch = Some cs -> busy cs s = false ->
  let s' := snd (onMessage_resume rv ctx p ch (onMessage_arrive ch name s)) in
  fst (onMessage_resume rv ctx p ch (onMessage_arrive ch name s))
  = Dispatched (length (activations s))
  /\ activations s'
     = activations s ++
       [{| a_channel := ch; a_frames := [{| f_ctx := ctx; f_prompt := p |}];
           a_controller := length (signals s); a_currentWorkDir := channelWorkDir cs;
           a_status := Running |}]
  /\ outputs s'
     = outputs s ++ [Query ctx (channelWorkDir cs) p
                       (if js_truthy (sessionId cs) then sessionId cs else None)
                       (length (signals s))]
  /\ controller_of ch s' = Some (length (signals s))
  /\ isAborted (length (signals s)) s' = false
  /\ active s' = Some ch.
Proof.
  intros T E B. rewrite (arrive_existing ch name s cs E).
  set (s0 := set_active (Some ch) s).
  destruct (resume_idle rv ctx p ch s0 cs E B) as (c & cwd & s1 & P & R).
  rewrite R. cbn [fst snd]. unfold processMessage_begin in P.
  cbn [channelSessions s0 set_active] in P. rewrite E in P.
  destruct (onClaude_begin_at rv ctx p
              (if js_truthy (sessionId cs) then sessionId cs else None) ch s0
              (active_set ch s T)) as (s1' & P' & H1 & H2 & H3 & H4 & H5 & H6 & H7).
  rewrite P' in P. injection P as <- <- <-.
  assert (getClaudeWorkDir s0 = channelWorkDir cs) as W.
  { unfold getClaudeWorkDir, s0. rewrite (active_set ch s T). simpl. by rewrite E. }
  rewrite W in *. simpl. rewrite H6, H7. done.
Qed.

(** A queued message taken from the queue is queried in the folder of its
    channel. *)
Lemma drain_folder rv t s a session next rest :
  truthy (a_channel a) = true ->
  activations s !! t = Some a -> a_status a = Settled ->
  channelSessions s !! a_channel a = Some session ->
  messageQueue session = next :: rest ->
  outputs (drain rv t s)
  = outputs s ++ [Query (qm_ctx next) (channelWorkDir session) (qm_prompt next)
                    (if js_truthy (sessionId session) then sessionId session else None)
                    (length (signals s))].
Proof.
  intros T Ht Hs Hc Hq. unfold drain. rewrite Ht, Hs, Hc, Hq.
  set (s0 := set_active (Some (a_channel a))
               (set_sessions (<[a_channel a := with_queue rest session]> (channelSessions s)) s)).
  unfold processMessage_begin.
  assert (channelSessions s0 !! a_channel a = Some (with_queue rest session)) as E0
    by (unfold s0; simpl; apply lookup_insert_eq).
  rewrite E0. cbn [sessionId with_queue].
  destruct (onClaude_begin_at rv (qm_ctx next) (qm_prompt next)
              (if js_truthy (sessionId session) then sessionId session else None)
              (a_channel a) s0 (active_set _ _ T))
    as (s1 & P & _ & _ & _ & _ & _ & _ & O).
  rewrite P. cbn [outputs set_activations]. rewrite O.
  assert (getClaudeWorkDir s0 = channelWorkDir session) as ->.
  { unfold getClaudeWorkDir, s0. rewrite active_set by done.
    cbn [channelSessions set_active set_sessions]. by rewrite lookup_insert_eq. }
  done.
Qed.

Lemma arrive_again ch name s :
  onMessage_arrive ch name (onMessage_arrive ch name s) = onMessage_arrive ch name s.
Proof.
  unfold onMessage_arrive, getChannelSession. cbn [channelSessions set_active].
  destruct (channelSessions s !! ch) as [cs|] eqn:E; cbn [snd].
  - cbn [channelSessions set_active]. by rewrite E.
  - cbn [channelSessions set_sessions set_active]. by rewrite lookup_insert_eq.
Qed.

(** X13. A channel keeps the folder and the name its session was created
    with, whatever happens afterwards. A message for it that is handled
    with nothing else in between, on a channel that is not busy, is
    queried in that folder, also when it comes under another channel
    name; and so is a queued message when it is taken from the queue. *)
Theorem channel_keeps_the_folder_of_its_first_use rv s es ch cs :
  channelSessions s !! ch = Some cs ->
  let s' := run rv s es in
  exists cs',
    channelSessions s' !! ch = Some cs'
    /\ channelWorkDir cs' = channelWorkDir cs
    /\ channelName cs' = channelName cs
    /\ (truthy ch = true -> busy cs' s' = false ->
        forall ctx p name,
          outputs (run rv s' (submit ch name {| qm_ctx := ctx; qm_prompt := p |}))
          = outputs s' ++ [Query ctx (channelWorkDir cs) p
                             (if js_truthy (sessionId cs') then sessionId cs' else None)
                             (length (signals s'))])
    /\ (truthy ch = true ->
        forall t a next rest,
          activations s' !! t = Some a -> a_channel a = ch -> a_status a = Settled ->
          messageQueue cs' = next :: rest ->
          outputs (run rv s' [Drain t])
          = outputs s' ++ [Query (qm_ctx next) (channelWorkDir cs) (qm_prompt next)
                             (if js_truthy (sessionId cs') then sessionId cs' else None)
                             (length (signals s'))]).
Proof.
  intros E s'.
  destruct (steady_kept _ _ (steady_run rv es s) ch cs E) as (cs' & E' & Hw & Hn).
  exists cs'. split; [exact E'|]. split; [exact Hw|]. split; [exact Hn|]. split.
  - intros T B ctx p name.
    destruct (submit_idle rv ctx p ch name s' cs' T E' B) as (_ & _ & O & _).
    rewrite <- Hw. exact O.
  - intros T t a next rest Ht Hc Hs Hq. subst ch. rewrite <- Hw.
    exact (drain_folder rv t s' a cs' next rest T Ht Hs E' Hq).
Qed.

(** X14. A channel that /status meets before any message gets a session
    whose folder is named after the channel id, and keeps that folder
    whatever happens afterwards: a message that follows, handled with
    nothing else in between, is queried in WORK_DIR/<channel id>, where
    the same message sent first would have been queried in
    WORK_DIR/<channel name>. *)
Theorem channel_first_met_by_a_command_gets_the_folder_of_its_id rv s ch :
  truthy ch = true -> channelSessions s !! ch = None ->
  let s1 := snd (status (Some ch) s) in
  st_workDir (fst (status (Some ch) s)) = "`" +:+ (workDir s +:+ "/" +:+ ch) +:+ "`"
  /\ (forall es, exists cs',
        channelSessions (run rv s1 es) !! ch = Some cs'
        /\ channelWorkDir cs' = workDir s +:+ "/" +:+ ch)
  /\ (forall ctx p name,
        outputs (run rv s1 (submit ch name {| qm_ctx := ctx; qm_prompt := p |}))
        = outputs s ++ [Query ctx (workDir s +:+ "/" +:+ ch) p None (length (signals s))])
  /\ (forall ctx p name, truthy name = true ->
        outputs (run rv s (submit ch name {| qm_ctx := ctx; qm_prompt := p |}))
        = outputs s ++ [Query ctx (workDir s +:+ "/" +:+ name) p None
                          (length (signals s))]).
Proof.
  intros T E s1. subst s1. rewrite status_fresh by done. cbn [fst snd st_workDir].
  set (cs := {| controller := None; sessionId := None;
                channelWorkDir := workDir s +:+ "/" +:+ ch;
                channelName := Some ch; messageQueue := [] |}).
  set (s1 := set_sessions (<[ch := cs]> (channelSessions s)) (set_active (Some ch) s)).
  assert (channelSessions s1 !! ch = Some cs) as E1 by (simpl; apply lookup_insert_eq).
  split; [done|]. split; [|split].
  - intros es.
    destruct (steady_kept _ _ (steady_run rv es s1) ch cs E1) as (cs' & E' & Hw & _).
    by exists cs'.
  - intros ctx p name.
    destruct (submit_idle rv ctx p ch name s1 cs T E1 eq_refl) as (_ & _ & O & _).
    exact O.
  - intros ctx p name Tn.
    set (cn := {| controller := None; sessionId := None;
                  channelWorkDir := workDir s +:+ "/" +:+ name;
                  channelName := Some name; messageQueue := [] |}).
    assert (onMessage_arrive ch name s
            = set_sessions (<[ch := cn]> (channelSessions s)) (set_active (Some ch) s)) as A.
    { unfold onMessage_arrive, getChannelSession. cbn [channelSessions set_active].
      rewrite E. cbn [snd]. unfold js_or. cbn [js_truthy]. by rewrite Tn. }
    unfold submit. cbn [run fold_left step qm_ctx qm_prompt].
    rewrite <- arrive_again.
    set (s2 := onMessage_arrive ch name s).
    assert (channelSessions s2 !! ch = Some cn) as E2
      by (unfold s2; rewrite A; simpl; apply lookup_insert_eq).
    destruct (submit_idle rv ctx p ch name s2 cn T E2 eq_refl) as (_ & _ & O & _).
    rewrite O. unfold s2. rewrite A. done.
Qed.

(** X16. /new on a channel aborts the controller the channel holds, clears
    handle and session id, removes the channel from the session file and
    keeps the queue; the next message starts a query without resume. *)
Theorem new_clears_the_session_of_its_channel rv ctx ch s ctx' p name :
  truthy ch = true ->
  let s' := new ctx (Some ch) s in
  sessionId_of ch s' = None
  /\ controller_of ch s' = None
  /\ persisted s' !! ch = None
  /\ queue_of ch s' = queue_of ch s
  /\ signals s'
     = match controller_of ch s with
       | Some c => <[c := true]> (signals s)
       | None => signals s
       end
  /\ exists cwd c,
       outputs (snd (onMessage_resume rv ctx' p ch (onMessage_arrive ch name s')))
       = outputs s' ++ [Query ctx' cwd p None c].
Proof.
  intros T s'.
  assert (sessionId_of ch s' = None /\ controller_of ch s' = None
          /\ sync s' /\ is_Some (channelSessions s' !! ch)
          /\ signals s'
             = match controller_of ch s with
               | Some c => <[c := true]> (signals s)
               | None => signals s
               end) as (I & C & S & [cs' E'] & Sg).
  { unfold s', new, setChannel. cbn [js_truthy]. rewrite T.
    destruct (onClaudeCancel_at ch (set_active (Some ch) s) (active_set ch s T))
      as (_ & C1 & A1 & _ & S1 & _).
    destruct (onClaudeCancel deps (set_active (Some ch) s)) as [b s1]. cbn [snd] in *.
    destruct (setSessionId_at None ch s1 A1) as (I2 & A2 & S2).
    pose proof (setSessionId_session None ch s1 A1) as E2.
    destruct (setSessionId_rest None s1) as (_ & _ & Sg2 & _).
    split; [done|]. split; [by rewrite <- C1, <- (setSessionId_controller None s1 ch)|].
    split; [done|]. split; [done|]. simpl. by rewrite Sg2, S1. }
  split; [done|]. split; [done|]. split.
  { rewrite S, E'. simpl. unfold sessionId_of in I. rewrite E' in I. simpl in I.
    unfold saved. by rewrite I. }
  split; [apply quiet_new|]. split; [done|].
  unfold sessionId_of in I. unfold controller_of in C. rewrite E' in I, C. simpl in I, C.
  assert (busy cs' s' = false) as B by (unfold busy; by rewrite C).
  destruct (submit_idle rv ctx' p ch name s' cs' T E' B) as (_ & _ & O & _).
  rewrite O, I. eauto.
Qed.

(** A task that resolves while channel [ch] is the active one. *)
Lemma settle_resolved_at rv t r k ch s a f fs :
  active s = Some ch ->
  activations s !! t = Some a -> a_status a = Running -> a_frames a = f :: fs ->
  let s' := settle rv t (Resolved r k) s in
  controller_of ch s' = None
  /\ sessionId_of ch s' = Client.sessionId r
  /\ signals s' = signals s
  /\ activations s'
     = <[t := {| a_channel := a_channel a; a_frames := a_frames a;
                 a_controller := a_controller a;
                 a_currentWorkDir := a_currentWorkDir a;
                 a_status := Settled |}]> (activations s)
  /\ active s' = Some ch.
Proof.
  intros A Ht Hs Hf. unfold settle. rewrite Ht, Hs, Hf.
  destruct (onClaude_end_at rv (f_ctx f) (a_controller a) (a_currentWorkDir a) r k ch s A)
    as (R & C & I & Sg & Ac & A').
  destruct (onClaude_end rv deps (f_ctx f) (a_controller a) (a_currentWorkDir a) false
              (Resolved r k) s) as [x s1]. cbn [fst snd] in *. subst x.
  assert (match rv with
          | Rev1 | _ =>
              set_activations
                (<[t := {| a_channel := a_channel a; a_frames := f :: fs;
                           a_controller := a_controller a;
                           a_currentWorkDir := a_currentWorkDir a;
                           a_status := Settled |}]> (activations s1)) s1
          end
          = set_activations
              (<[t := {| a_channel := a_channel a; a_frames := f :: fs;
                         a_controller := a_controller a;
                         a_currentWorkDir := a_currentWorkDir a;
                         a_status := Settled |}]> (activations s1)) s1) as ->
    by (by destruct rv).
  simpl. by rewrite Ac.
Qed.

(** X18. When a task of a channel that is no longer busy (cancelled, say) is
    still running and a new message starts a second task, the end of the
    first clears the handle of the second: the second runs on, not
    aborted, /cancel answers that nothing is running, and every further
    message starts one more task beside it. *)
Theorem settling_earlier_task_clears_the_handle_of_the_next
    rv s ch cs t a f fs name ctx p r k :
  truthy ch = true ->
  channelSessions s !! ch = Some cs -> busy cs s = false ->
  activations s !! t = Some a -> a_status a = Running -> a_frames a = f :: fs ->
  let s' := run rv s [Arrive ch name; Resume ctx p ch; Settle t (Resolved r k)] in
  (exists c' cwd,
      activations s' !! length (activations s)
      = Some {| a_channel := ch; a_frames := [{| f_ctx := ctx; f_prompt := p |}];
                a_controller := c'; a_currentWorkDir := cwd; a_status := Running |}
      /\ isAborted c' s' = false)
  /\ controller_of ch s' = None
  /\ (forall ctx2, fst (cancel ctx2 (Some ch) s') = false)
  /\ (forall ctx2 p2 name2,
        exists n, fst (onMessage_resume rv ctx2 p2 ch (onMessage_arrive ch name2 s'))
                  = Dispatched n).
Proof.
  intros T E B Ht Hs Hf s'.
  destruct (submit_idle rv ctx p ch name s cs T E B) as (_ & Ac3 & _ & C3 & B3 & A3).
  set (s3 := snd (onMessage_resume rv ctx p ch (onMessage_arrive ch name s))) in *.
  assert (s' = settle rv t (Resolved r k) s3) as -> by reflexivity.
  assert (activations s3 !! t = Some a) as Ht3.
  { rewrite Ac3. rewrite lookup_app_l; [done|]. by eapply lookup_lt_Some. }
  destruct (settle_resolved_at rv t r k ch s3 a f fs A3 Ht3 Hs Hf)
    as (C4 & _ & Sg4 & Ac4 & A4).
  set (s4 := settle rv t (Resolved r k) s3) in *.
  assert (is_Some (channelSessions s4 !! ch)) as [cs4 E4].
  { pose proof (steady_run rv [Arrive ch name; Resume ctx p ch; Settle t (Resolved r k)] s)
      as St.
    destruct (steady_kept _ _ St ch cs E) as (x & Ex & _). eauto. }
  split; [|split; [done|split]].
  - eexists _, _. split.
    + rewrite Ac4, list_lookup_insert_ne.
      * rewrite Ac3. rewrite lookup_app_r by done. rewrite Nat.sub_diag. reflexivity.
      * apply lookup_lt_Some in Ht. lia.
    + unfold isAborted. rewrite Sg4. exact B3.
  - intros ctx2. unfold cancel, setChannel. cbn [js_truthy]. rewrite T.
    destruct (onClaudeCancel_at ch (set_active (Some ch) s4) (active_set ch s4 T))
      as (F & _).
    destruct (onClaudeCancel deps (set_active (Some ch) s4)) as [b s5]. cbn [fst] in *.
    rewrite F. change (controller_of ch (set_active (Some ch) s4)) with (controller_of ch s4).
    rewrite C4. done.
  - intros ctx2 p2 name2. unfold controller_of in C4. rewrite E4 in C4. simpl in C4.
    assert (busy cs4 s4 = false) as B4 by (unfold busy; by rewrite C4).
    destruct (submit_idle rv ctx2 p2 ch name2 s4 cs4 T E4 B4) as (D & _). eauto.
Qed.

(** *** No message is lost *)

Lemma queued_insert_fresh s ch cs :
  channelSessions s !! ch = None ->
  queued (set_sessions (<[ch := cs]> (channelSessions s)) s)
  ≡ₚ messageQueue cs ++ queued s.
Proof.
  intros E. unfold queued. simpl.
  rewrite (map_to_list_insert _ _ _ E). reflexivity.
Qed.

Lemma queued_delete s ch cs :
  channelSessions s !! ch = Some cs ->
  queued s ≡ₚ messageQueue cs ++ queued (set_sessions (delete ch (channelSessions s)) s).
Proof.
  intros E. unfold queued. simpl.
  rewrite <- (map_to_list_delete _ _ _ E). reflexivity.
Qed.

Lemma queued_update s ch cs cs' :
  channelSessions s !! ch = Some cs ->
  messageQueue cs ++ queued (set_sessions (<[ch := cs']> (channelSessions s)) s)
  ≡ₚ messageQueue cs' ++ queued s.
Proof.
  intros E. rewrite (queued_delete s ch cs E).
  rewrite <- (insert_delete_eq (channelSessions s)).
  assert (delete ch (channelSessions s) !! ch = None) as D by apply lookup_delete_eq.
  pose proof (queued_insert_fresh (set_sessions (delete ch (channelSessions s)) s) ch cs' D)
    as H. simpl in H. unfold queued in *. simpl in *. rewrite H.
  rewrite !app_assoc. f_equiv. apply Permutation_app_comm.
Qed.

Lemma queued_none_waiting (m : gmap string ChannelSession) :
  (forall ch cs, m !! ch = Some cs -> messageQueue cs = []) ->
  concat (messageQueue <$> (map_to_list m).*2) = [].
Proof.
  intros H. assert (Forall (fun x => messageQueue x.2 = []) (map_to_list m)) as F.
  { apply Forall_forall. intros [ch cs] Hin. apply (H ch). by apply elem_of_map_to_list. }
  induction F as [|[ch cs] l Hx _ IH]; [done|].
  rewrite !fmap_cons. cbn [concat snd] in *. by rewrite Hx, IH.
Qed.

(** The queues of all channels, up to order, are given by the queue of
    each channel. *)
Lemma queued_ext_map (m : gmap string ChannelSession) : forall m' : gmap string ChannelSession,
  (forall ch, default [] (messageQueue <$> m' !! ch) = default [] (messageQueue <$> m !! ch)) ->
  concat (messageQueue <$> (map_to_list m').*2)
  ≡ₚ concat (messageQueue <$> (map_to_list m).*2).
Proof.
  induction m as [|ch cs m E IH] using map_ind; intros m' H.
  - rewrite map_to_list_empty. simpl. rewrite queued_none_waiting; [done|].
    intros ch cs Hc. specialize (H ch). rewrite Hc, lookup_empty in H. exact H.
  - rewrite (map_to_list_insert _ _ _ E). simpl.
    pose proof (H ch) as Hch. rewrite lookup_insert_eq in Hch. simpl in Hch.
    destruct (m' !! ch) as [cs'|] eqn:E'.
    + simpl in Hch. rewrite <- (map_to_list_delete _ _ _ E'). simpl. rewrite Hch.
      f_equiv. apply IH. intros c. destruct (decide (ch = c)) as [->|Hne].
      * by rewrite lookup_delete_eq, E.
      * rewrite lookup_delete_ne by done. specialize (H c).
        by rewrite lookup_insert_ne in H.
    + simpl in Hch. rewrite <- Hch. simpl. apply IH. intros c.
      destruct (decide (ch = c)) as [->|Hne].
      * by rewrite E', E.
      * specialize (H c). by rewrite lookup_insert_ne in H.
Qed.

Lemma queued_ext s s' :
  (forall ch, queue_of ch s' = queue_of ch s) -> queued s' ≡ₚ queued s.
Proof.
  intros H. apply queued_ext_map. intros ch. specialize (H ch). unfold queue_of in H.
  by destruct (channelSessions s' !! ch), (channelSessions s !! ch).
Qed.

Lemma quiet_queued s s' : quiet s s' -> queued s' ≡ₚ queued s.
Proof. intros [_ Q _]. by apply queued_ext. Qed.

Lemma outputs_onClaudeCancel s : outputs (snd (onClaudeCancel deps s)) = outputs s.
Proof.
  unfold onClaudeCancel. cbn [deps claudeController setClaudeController setClaudeSessionId].
  pose proof (getController_rest s) as (_ & O & _).
  destruct (getController s) as [[c|] s0]; simpl in O |- *; [|exact O].
  destruct (setSessionId_rest None (setController None (abortController c s0))) as (_ & -> & _).
  destruct (setController_rest None (abortController c s0)) as (_ & -> & _). exact O.
Qed.

(** What a step does to the messages at hand, dispatched or waiting. *)
Lemma step_load rv s e :
  dispatched (outputs (step rv s e)) ++ queued (step rv s e)
  ≡ₚ (dispatched (outputs s) ++ queued s)
     ++ match e with
        | Resume ctx p ch =>
            match channelSessions s !! ch with
            | Some _ => [{| qm_ctx := ctx; qm_prompt := p |}]
            | None => []
            end
        | _ => []
        end.
Proof.
  destruct e as [ch name|ctx p ch|t o|t|ctx ch|ctx ch]; cbn [step].
  - rewrite app_nil_r. rewrite (quiet_queued _ _ (quiet_arrive ch name s)).
    unfold onMessage_arrive.
    destruct (getChannelSession_rest ch (Some name) (set_active (Some ch) s))
      as (_ & -> & _). done.
  - destruct (channelSessions s !! ch) as [cs|] eqn:E.
    2:{ unfold onMessage_resume. rewrite E. simpl. by rewrite app_nil_r. }
    destruct (busy cs s) eqn:B.
    + rewrite (resume_busy rv ctx p ch s cs E B). cbn [snd].
      set (m := {| qm_ctx := ctx; qm_prompt := p |}).
      set (s1 := set_sessions (<[ch := with_queue (messageQueue cs ++ [m]) cs]>
                                 (channelSessions s)) s).
      assert (dispatched (outputs (say (SayQueued ctx (length (messageQueue cs ++ [m]))) s1))
              = dispatched (outputs s)) as ->
        by (simpl; rewrite dispatched_app; simpl; by rewrite app_nil_r).
      change (queued (say _ s1)) with (queued s1).
      rewrite <- app_assoc. f_equiv.
      apply (Permutation_app_inv_l (messageQueue cs)).
      etransitivity; [apply (queued_update s ch cs _ E)|].
      simpl. rewrite <- !app_assoc. f_equiv. apply Permutation_app_comm.
    + destruct (resume_idle rv ctx p ch s cs E B) as (c & cwd & s1 & P & ->).
      unfold processMessage_begin in P.
      destruct (onClaude_begin_spec rv ctx p
                  match channelSessions s !! ch with
                  | Some session => if js_truthy (sessionId session) then sessionId session else None
                  | None => None
                  end s) as (c' & s1' & P' & Q & O).
      rewrite P' in P. injection P as <- <- <-. cbn [snd].
      change (queued (set_activations _ (say _ s1'))) with (queued s1').
      rewrite (quiet_queued _ _ Q). simpl. rewrite dispatched_app, O. simpl.
      rewrite <- !app_assoc. f_equiv. apply Permutation_app_comm.
  - rewrite app_nil_r. unfold settle.
    destruct (activations s !! t) as [a|]; [|done].
    destruct (a_status a); try done.
    destruct (a_frames a) as [|f fs]; [by destruct rv, o|].
    destruct (returns rv o) eqn:R.
    + destruct (onClaude_end_spec rv (f_ctx f) (a_controller a) (a_currentWorkDir a) o s R)
        as (s1 & E & Q & D).
      assert (forall x y : State, (match rv, o with
                       | Rev1, TimedOut => x
                       | _, _ => y
                       end) = y) as Hm
        by (intros x y; destruct rv, o; try done; discriminate R).
      rewrite Hm, E.
      change (queued (set_activations _ s1)) with (queued s1).
      rewrite (quiet_queued _ _ Q). simpl. by rewrite D.
    + destruct rv, o; try discriminate R; [|done]. simpl.
      rewrite dispatched_app. simpl. by rewrite app_nil_r.
  - rewrite app_nil_r. unfold drain.
    destruct (activations s !! t) as [a|]; [|done].
    destruct (a_status a); try done.
    destruct (channelSessions s !! a_channel a) as [cs|] eqn:E; [|done].
    destruct (messageQueue cs) as [|next rest] eqn:Eq; [done|].
    set (s0 := set_active _ _). unfold processMessage_begin.
    match goal with |- context [onClaude_begin rv deps ?x ?y ?i None s0] =>
      destruct (onClaude_begin_spec rv x y i s0) as (c & s1 & P & Q & O) end.
    rewrite P.
    change (queued (set_activations _ (say _ s1))) with (queued s1).
    rewrite (quiet_queued _ _ Q). simpl. rewrite dispatched_app, O. simpl.
    rewrite <- !app_assoc. f_equiv.
    pose proof (queued_update s (a_channel a) cs (with_queue rest cs) E) as H.
    rewrite Eq in H. simpl in H. unfold s0, queued in *. simpl in *.
    destruct next as [nc np]. simpl. apply (Permutation_app_inv_l rest).
    rewrite <- H. symmetry. apply Permutation_middle.
  - rewrite app_nil_r. rewrite (quiet_queued _ _ (quiet_cancel ctx ch s)).
    unfold cancel. pose proof (outputs_onClaudeCancel (setChannel ch s)) as O.
    destruct (onClaudeCancel deps (setChannel ch s)) as [b s1]. simpl in O |- *.
    rewrite dispatched_app, O. simpl. rewrite app_nil_r.
    unfold setChannel. by destruct (js_truthy ch).
  - rewrite app_nil_r. rewrite (quiet_queued _ _ (quiet_new ctx ch s)).
    unfold new. pose proof (outputs_onClaudeCancel (setChannel ch s)) as O.
    destruct (onClaudeCancel deps (setChannel ch s)) as [b s1]. simpl in O |- *.
    rewrite dispatched_app. destruct (setSessionId_rest None s1) as (_ & -> & _).
    rewrite O. simpl. rewrite app_nil_r.
    unfold setChannel. by destruct (js_truthy ch).
Qed.

Lemma run_load rv es : forall seen s,
  (forall ch, ch ∈ seen -> is_Some (channelSessions s !! ch)) ->
  arrivedFirst seen es = true ->
  dispatched (outputs (run rv s es)) ++ queued (run rv s es)
  ≡ₚ (dispatched (outputs s) ++ queued s) ++ messages es.
Proof.
  induction es as [|e es IH]; intros seen s Hs Ha.
  - simpl. by rewrite app_nil_r.
  - assert (forall ch, is_Some (channelSessions s !! ch) ->
                       is_Some (channelSessions (step rv s e) !! ch)) as Hk.
    { intros ch [cs E]. destruct (steady_kept _ _ (steady_step rv s e) ch cs E) as (x & -> & _).
      eauto. }
    pose proof (step_load rv s e) as L.
    change (run rv s (e :: es)) with (run rv (step rv s e) es).
    destruct e as [ch name|ctx p ch|t o|t|ctx ch|ctx ch]; cbn [arrivedFirst messages omap] in *.
    + rewrite (IH (ch :: seen) _); [by rewrite L, app_nil_r| |done].
      intros c [->|Hc]%elem_of_cons; [|by apply Hk, Hs].
      cbn [step]. unfold onMessage_arrive. rewrite getChannelSession_lookup. eauto.
    + apply andb_true_iff in Ha as [Hin Ha]. apply bool_decide_eq_true in Hin.
      destruct (Hs ch Hin) as [cs E]. rewrite E in L.
      rewrite (IH seen _); [|by intros c Hc; apply Hk, Hs|done].
      rewrite L. by rewrite <- !app_assoc.
    + rewrite (IH seen _); [by rewrite L, app_nil_r|by intros c Hc; apply Hk, Hs|done].
    + rewrite (IH seen _); [by rewrite L, app_nil_r|by intros c Hc; apply Hk, Hs|done].
    + rewrite (IH seen _); [by rewrite L, app_nil_r|by intros c Hc; apply Hk, Hs|done].
    + rewrite (IH seen _); [by rewrite L, app_nil_r|by intros c Hc; apply Hk, Hs|done].
Qed.

Lemma loaded_queued dir content : queued (loadSessionState dir content) = [].
Proof.
  destruct content as [state|]; [|done]. apply queued_none_waiting. simpl.
  intros ch cs. rewrite map_lookup_imap. destruct (state !! ch) as [[i n]|]; [|done].
  simpl. unfold restored. simpl. destruct (truthy i); [|done]. by intros [= <-].
Qed.

(** X17. No message is lost or handed over twice: at any moment the messages
    handed to the assistant together with those waiting in the queues are,
    up to order, the messages that came in. *)
Theorem no_message_is_lost_or_doubled rv dir content es :
  arrivedFirst [] es = true ->
  let s := run rv (loadSessionState dir content) es in
  dispatched (outputs s) ++ queued s ≡ₚ messages es.
Proof.
  intros Ha s. unfold s. rewrite (run_load rv es [] _); [| |done].
  - rewrite loaded_queued. by destruct content.
  - intros ch Hc. by apply elem_of_nil in Hc.
Qed.

(** *** Shutdown *)

Lemma tidy_refl s : tidy s s.
Proof. split; [done|]. intros ch c H. by left. Qed.

Lemma tidy_trans s1 s2 s3 : tidy s1 s2 -> tidy s2 s3 -> tidy s1 s3.
Proof.
  intros [L1 C1] [L2 C2]. split; [lia|]. intros ch c H.
  destruct (C2 ch c H) as [H2|H2]; [|by right].
  destruct (C1 ch c H2) as [H1|H1]; [by left|right; lia].
Qed.

Lemma tidy_handled s s' : tidy s s' -> handled s -> handled s'.
Proof.
  intros [L C] H ch c Hc. destruct (C ch c Hc) as [H1|H1]; [|done].
  specialize (H ch c H1). lia.
Qed.

Lemma tidy_same s s' :
  length (signals s) <= length (signals s') ->
  (forall ch, controller_of ch s' = controller_of ch s) -> tidy s s'.
Proof. intros L C. split; [done|]. intros ch c H. left. by rewrite <- C. Qed.

Lemma tidy_getController s : tidy s (snd (getController s)).
Proof.
  apply tidy_same.
  - destruct (getController_rest s) as (_ & _ & -> & _). done.
  - intros ch. rewrite !controller_of_field. apply getController_field, fresh_controller.
Qed.

Lemma tidy_getChannelSession ch n s : tidy s (snd (getChannelSession ch n s)).
Proof.
  apply tidy_same.
  - destruct (getChannelSession_rest ch n s) as (_ & _ & -> & _). done.
  - intros c. rewrite !controller_of_field. apply getChannelSession_field, fresh_controller.
Qed.

Lemma tidy_setSessionId i s : tidy s (setSessionId i s).
Proof.
  apply tidy_same.
  - destruct (setSessionId_rest i s) as (_ & _ & -> & _). done.
  - intros ch. apply setSessionId_controller.
Qed.

Lemma setController_controller c s ch :
  controller_of ch (setController c s)
  = if decide (active s = Some ch) then c else controller_of ch s.
Proof.
  destruct (active s) as [a|] eqn:A.
  - case_decide as D.
    + injection D as ->. by apply setController_at.
    + unfold setController. rewrite A.
      destruct (getChannelSession a None s) as [cs s1] eqn:E.
      rewrite !controller_of_field.
      rewrite (update_field controller None _ _ _ _ _ _ fresh_controller E).
      case_decide; [congruence|done].
  - case_decide; [done|]. unfold setController. by rewrite A.
Qed.

Lemma tidy_setController c s :
  (forall c', c = Some c' -> c' < length (signals s)) -> tidy s (setController c s).
Proof.
  intros H. destruct (setController_rest c s) as (_ & _ & Sg & _).
  split; [by rewrite Sg|]. intros ch c' Hc. rewrite setController_controller in Hc.
  case_decide; [right; rewrite Sg; by apply H|by left].
Qed.

Lemma tidy_abortController c s : tidy s (abortController c s).
Proof. apply tidy_same; [simpl; by rewrite length_insert|done]. Qed.

Lemma tidy_newController s : tidy s (snd (newController s)).
Proof. apply tidy_same; [simpl; rewrite length_app; lia|done]. Qed.

Lemma tidy_requeue a cs q s :
  channelSessions s !! a = Some cs ->
  tidy s (set_sessions (<[a := with_queue q cs]> (channelSessions s)) s).
Proof.
  intros E. apply tidy_same; [done|]. intros ch. rewrite !controller_of_field.
  by apply requeue_field.
Qed.

Lemma tidy_onClaude_begin rv ctx p sid s :
  tidy s (snd (onClaude_begin rv deps ctx p sid None s)).
Proof.
  unfold onClaude_begin. cbn [deps deps_workDir claudeController setClaudeController].
  assert (forall x : Controller * State,
    x = (let '(cur, s0) := getController s in
         let '(c, s3) := newController
            match cur with Some c0 => abortController c0 s0 | None => s0 end in
         (c, setController (Some c) s3)) ->
    tidy s (snd x)) as H.
  { intros x ->. pose proof (tidy_getController s) as G.
    destruct (getController s) as [cur s0]. simpl in G. simpl.
    eapply tidy_trans; [exact G|].
    eapply tidy_trans; [|apply tidy_setController].
    - eapply tidy_trans; [|apply tidy_newController].
      destruct cur; [apply tidy_abortController|apply tidy_refl].
    - intros c' [= <-]. simpl. rewrite length_app. simpl. lia. }
  destruct rv;
    set (x := let '(cur, s0) := getController s in _);
    specialize (H x eq_refl); destruct x as [c s1]; simpl;
    (eapply tidy_trans; [exact H|by apply tidy_same]).
Qed.

Lemma tidy_say o s : tidy s (say o s).
Proof. by apply tidy_same. Qed.

Ltac tidy_chain :=
  repeat first
    [ apply tidy_refl
    | apply tidy_say
    | apply tidy_setSessionId | apply tidy_abortController
    | apply tidy_setController; discriminate
    | eapply tidy_trans; [|first
        [ apply tidy_say
        | apply tidy_setController; discriminate | apply tidy_setSessionId ]] ].

Lemma tidy_onClaude_end rv ctx c cwd ext o s :
  tidy s (snd (onClaude_end rv deps ctx c cwd ext o s)).
Proof.
  unfold onClaude_end. cbn [deps claudeController setClaudeController setClaudeSessionId].
  destruct rv, o as [r n|e|]; simpl; repeat case_match; tidy_chain.
Qed.

Lemma tidy_onClaudeCancel s : tidy s (snd (onClaudeCancel deps s)).
Proof.
  unfold onClaudeCancel. cbn [deps claudeController setClaudeController setClaudeSessionId].
  pose proof (tidy_getController s) as G.
  destruct (getController s) as [[c|] s0]; simpl in G |- *; [|exact G].
  eapply tidy_trans; [exact G|]. tidy_chain.
Qed.

Lemma tidy_setChannel a s : tidy s (setChannel a s).
Proof. unfold setChannel. destruct (js_truthy a); [by apply tidy_same|apply tidy_refl]. Qed.

Lemma tidy_step rv s e : tidy s (step rv s e).
Proof.
  destruct e as [ch name|ctx p ch|t o|t|ctx ch|ctx ch]; cbn [step].
  - unfold onMessage_arrive. eapply tidy_trans; [|apply tidy_getChannelSession].
    by apply tidy_same.
  - unfold onMessage_resume. destruct (channelSessions s !! ch) as [cs|] eqn:E;
      [|apply tidy_refl].
    destruct (busy cs s).
    + simpl. eapply tidy_trans; [by apply (tidy_requeue ch cs)|by apply tidy_same].
    + pose proof (tidy_onClaude_begin rv ctx p
                    match channelSessions s !! ch with
                    | Some session => if js_truthy (sessionId session) then sessionId session else None
                    | None => None
                    end s) as B.
      unfold processMessage_begin.
      destruct (onClaude_begin rv deps ctx p _ None s) as [[c cwd] s1]. simpl in B |- *.
      eapply tidy_trans; [exact B|by apply tidy_same].
  - unfold settle. destruct (activations s !! t) as [a|]; [|apply tidy_refl].
    destruct (a_status a); try apply tidy_refl.
    destruct (a_frames a) as [|f fs]; [destruct rv, o; apply tidy_refl|].
    pose proof (tidy_onClaude_end rv (f_ctx f) (a_controller a) (a_currentWorkDir a)
                  false o s) as E.
    destruct (onClaude_end rv deps (f_ctx f) (a_controller a) (a_currentWorkDir a) false o s)
      as [[|msg] s0]; simpl in E;
      destruct rv, o; try apply tidy_refl;
      (eapply tidy_trans; [exact E|by apply tidy_same]).
  - unfold drain. destruct (activations s !! t) as [a|]; [|apply tidy_refl].
    destruct (a_status a); try apply tidy_refl.
    destruct (channelSessions s !! a_channel a) as [cs|] eqn:E; [|apply tidy_refl].
    destruct (messageQueue cs) as [|next rest]; [by apply tidy_same|].
    set (s0 := set_active _ _).
    assert (tidy s s0) as H0.
    { unfold s0. eapply tidy_trans; [by apply (tidy_requeue (a_channel a) cs)|].
      by apply tidy_same. }
    unfold processMessage_begin.
    match goal with |- context [onClaude_begin rv deps ?x ?y ?i None s0] =>
      pose proof (tidy_onClaude_begin rv x y i s0) as B;
      destruct (onClaude_begin rv deps x y i None s0) as [[c cwd] s1] end.
    simpl in B. eapply tidy_trans; [exact H0|].
    eapply tidy_trans; [exact B|by apply tidy_same].
  - unfold cancel. pose proof (tidy_onClaudeCancel (setChannel ch s)) as C.
    destruct (onClaudeCancel deps (setChannel ch s)) as [b s1]. simpl in C |- *.
    eapply tidy_trans; [apply tidy_setChannel|].
    eapply tidy_trans; [exact C|by apply tidy_same].
  - unfold new. pose proof (tidy_onClaudeCancel (setChannel ch s)) as C.
    destruct (onClaudeCancel deps (setChannel ch s)) as [b s1]. simpl in C |- *.
    eapply tidy_trans; [apply tidy_setChannel|].
    eapply tidy_trans; [exact C|]. tidy_chain.
Qed.

Lemma tidy_run rv es : forall s, tidy s (run rv s es).
Proof.
  induction es as [|e es IH]; intros s; [apply tidy_refl|].
  simpl. eapply tidy_trans; [apply tidy_step|apply IH].
Qed.

Lemma loaded_handled dir content : handled (loadSessionState dir content).
Proof.
  intros ch c. unfold controller_of. destruct content as [state|]; [|done]. simpl.
  rewrite map_lookup_imap. destruct (state !! ch) as [[i n]|]; [|done].
  simpl. unfold restored. simpl. by destruct (truthy i).
Qed.

(** [abortAllSessions] sets the signal of every handle and nothing else. *)
Lemma abortAllSessions_spec s :
  let s' := abortAllSessions s in
  channelSessions s' = channelSessions s
  /\ length (signals s') = length (signals s)
  /\ forall ch cs c,
       channelSessions s !! ch = Some cs -> controller cs = Some c ->
       c < length (signals s) -> signals s' !! c = Some true.
Proof.
  unfold abortAllSessions.
  apply (map_fold_weak_ind
           (fun (r : State) (m : gmap string ChannelSession) =>
              channelSessions r = channelSessions s
              /\ length (signals r) = length (signals s)
              /\ forall ch cs c, m !! ch = Some cs -> controller cs = Some c ->
                   c < length (signals s) -> signals r !! c = Some true)).
  - split; [done|]. split; [done|]. intros ch cs c H. by rewrite lookup_empty in H.
  - intros i x m r E (H1 & H2 & H3).
    assert (forall c, signals r !! c = Some true ->
              signals match controller x with
                      | Some c0 => abortController c0 r
                      | None => r
                      end !! c = Some true) as Hkeep.
    { intros c Hc. destruct (controller x) as [c0|]; [|done]. simpl.
      destruct (decide (c0 = c)) as [->|Hne].
      - apply list_lookup_insert_eq. by eapply lookup_lt_Some.
      - by rewrite list_lookup_insert_ne. }
    split; [by destruct (controller x)|].
    split; [destruct (controller x); simpl; rewrite ?length_insert; done|].
    intros ch cs c Hl Hc Hlt. destruct (decide (i = ch)) as [->|Hne].
    + rewrite lookup_insert_eq in Hl. injection Hl as ->. rewrite Hc. simpl.
      apply list_lookup_insert_eq. by rewrite H2.
    + rewrite lookup_insert_ne in Hl by done. apply Hkeep. by eapply H3.
Qed.

(** X19. [abortAllSessions] leaves the sessions as they are and no channel
    busy: every controller a session holds is aborted. *)
Theorem shutdown_leaves_no_channel_busy rv dir content es :
  let s := run rv (loadSessionState dir content) es in
  channelSessions (abortAllSessions s) = channelSessions s
  /\ forall ch cs,
       channelSessions (abortAllSessions s) !! ch = Some cs ->
       busy cs (abortAllSessions s) = false.
Proof.
  intros s. destruct (abortAllSessions_spec s) as (H1 & H2 & H3).
  split; [done|]. intros ch cs E. rewrite H1 in E.
  unfold busy, isAborted. destruct (controller cs) as [c|] eqn:C; [|done].
  rewrite (H3 ch cs c E C); [done|].
  apply (tidy_handled _ _ (tidy_run rv es _) (loaded_handled dir content) ch c).
  change (controller_of ch s = Some c). unfold controller_of. by rewrite E.
Qed.

End LifecycleFacts.

Section LifecycleCases.
Import Client Bot Scenario Lifecycle SessionSamples.

Lemma fileA_ids state :
  Some fileA = Some state -> map_Forall (fun _ entry => truthy (fst entry) = true) state.
Proof. intros [= <-]. by apply map_Forall_singleton. Qed.

Lemma session_file_lists_the_session_ids_witness :
  let s := run Rev2 (loadSessionState "/w" (Some fileA))
             (submit "B" "beta" mb ++ [Settle 0 (Resolved (done_with (Some "s1")) 2)]) in
  fst <$> persisted s !! "A" = Some "s0" /\ fst <$> persisted s !! "B" = Some "s1".
Proof.
  intros s.
  destruct (session_file_lists_the_session_ids Rev2 "/w" (Some fileA)
              (submit "B" "beta" mb ++ [Settle 0 (Resolved (done_with (Some "s1")) 2)])
              fileA_ids) as [_ H].
  split.
  - etransitivity; [apply (H "A")|]. vm_compute. reflexivity.
  - etransitivity; [apply (H "B")|]. vm_compute. reflexivity.
Defined.

Lemma restart_restores_the_sessions_that_have_an_id_witness :
  let s := run Rev2 (loadSessionState "/w" (Some fileA)) (submit "B" "beta" mb) in
  channelSessions (restart s) !! "A"
  = Some {| controller := None; sessionId := Some "s0"; channelWorkDir := "/w/alpha";
            channelName := Some "alpha"; messageQueue := [] |}
  /\ channelSessions (restart s) !! "B" = None.
Proof.
  intros s.
  destruct (restart_restores_the_sessions_that_have_an_id Rev2 "/w" (Some fileA)
              (submit "B" "beta" mb) fileA_ids) as [_ H].
  split.
  - etransitivity; [apply (H "A")|]. vm_compute. reflexivity.
  - etransitivity; [apply (H "B")|]. vm_compute. reflexivity.
Defined.

Lemma restingA_session :
  channelSessions (InputSamples.restingA Rev2) !! "A"
  = Some (sessionA None (Some "s0") []).
Proof. vm_compute. reflexivity. Qed.

Lemma channel_keeps_the_folder_of_its_first_use_witness :
  outputs (run Rev2 (InputSamples.restingA Rev2) (submit "A" "renamed" m1))
  = outputs (InputSamples.restingA Rev2) ++ [Query 2 "/w/alpha" "p1" (Some "s0") 1].
Proof.
  destruct (channel_keeps_the_folder_of_its_first_use Rev2 (busyA Rev2)
              [Settle 0 (Resolved (done_with (Some "s0")) 2); Drain 0] "A" _
              (busyA_session Rev2)) as (cs' & E' & _ & _ & H & _).
  change (run Rev2 (busyA Rev2) [Settle 0 (Resolved (done_with (Some "s0")) 2); Drain 0])
    with (InputSamples.restingA Rev2) in *.
  rewrite restingA_session in E'. injection E' as <-.
  exact (H eq_refl eq_refl 2 "p1" "renamed").
Defined.

Lemma busyA_unseen : channelSessions (busyA Rev2) !! "B" = None.
Proof. vm_compute. reflexivity. Qed.

Lemma channel_first_met_by_a_command_gets_the_folder_of_its_id_witness :
  outputs (run Rev2 (snd (status (Some "B") (busyA Rev2))) (submit "B" "beta" mb))
  = outputs (busyA Rev2) ++ [Query 4 "/w/B" "pb" None 1]
  /\ outputs (run Rev2 (busyA Rev2) (submit "B" "beta" mb))
     = outputs (busyA Rev2) ++ [Query 4 "/w/beta" "pb" None 1].
Proof.
  destruct (channel_first_met_by_a_command_gets_the_folder_of_its_id Rev2 (busyA Rev2) "B"
              eq_refl busyA_unseen) as (_ & _ & H1 & H2).
  split; [exact (H1 4 "pb" "beta")|exact (H2 4 "pb" "beta" eq_refl)].
Defined.

Lemma status_says_running_when_a_message_would_be_queued_witness :
  st_status (fst (status (Some "A") (busyA Rev2))) = "Running".
Proof.
  apply (status_says_running_when_a_message_would_be_queued Rev2 (busyA Rev2) "A" 2 "p1"
           "alpha" eq_refl).
  exists 1. vm_compute. reflexivity.
Defined.

Lemma new_clears_the_session_of_its_channel_witness :
  let s' := new 9 (Some "A") (resumedA Rev2) in
  sessionId_of "A" s' = None /\ persisted s' !! "A" = None
  /\ signals s' = <[1 := true]> (signals (resumedA Rev2)).
Proof.
  intros s'.
  destruct (new_clears_the_session_of_its_channel Rev2 9 "A" (resumedA Rev2) 2 "p1" "alpha"
              eq_refl) as (H1 & _ & H3 & _ & H5 & _).
  split; [exact H1|]. split; [exact H3|].
  etransitivity; [exact H5|]. vm_compute. reflexivity.
Defined.

Lemma no_message_is_lost_or_doubled_witness :
  let s := run Rev2 (init "/w")
             (submit "A" "alpha" m0 ++ submit "A" "alpha" m1 ++ submit "B" "beta" mb) in
  dispatched (outputs s) ++ queued s ≡ₚ [m0; m1; mb].
Proof.
  apply (no_message_is_lost_or_doubled Rev2 "/w" None
           (submit "A" "alpha" m0 ++ submit "A" "alpha" m1 ++ submit "B" "beta" mb)).
  vm_compute. reflexivity.
Defined.

Lemma settling_earlier_task_clears_the_handle_of_the_next_witness :
  let s' := run Rev2 (cancelledA Rev2)
              [Arrive "A" "alpha"; Resume 2 "p1" "A";
               Settle 0 (Resolved (done_with None) 0)] in
  controller_of "A" s' = None /\ fst (cancel 9 (Some "A") s') = false.
Proof.
  intros s'.
  destruct (settling_earlier_task_clears_the_handle_of_the_next Rev2 (cancelledA Rev2)
              "A" (sessionA None None []) 0
              {| a_channel := "A"; a_frames := [frame_of m0]; a_controller := 0;
                 a_currentWorkDir := "/w/alpha"; a_status := Running |}
              (frame_of m0) [] "alpha" 2 "p1" (done_with None) 0)
    as (_ & H2 & H3 & _).
  - reflexivity.
  - vm_compute. reflexivity.
  - vm_compute. reflexivity.
  - vm_compute. reflexivity.
  - reflexivity.
  - reflexivity.
  - split; [exact H2|exact (H3 9)].
Defined.

End LifecycleCases.

(** ** Buttons *)

Section ButtonFacts.

Import Buttons.

Lemma length_append (a b : string) :
  String.length (a +:+ b) = String.length a + String.length b.
Proof. induction a as [|c a IH]; [done|]. simpl. by rewrite IH. Qed.

Lemma length_substring_le n s : String.length (substring 0 n s) <= n.
Proof.
  revert s. induction n as [|n IH]; intros [|c s]; simpl; try lia.
  specialize (IH s). lia.
Qed.

Lemma maxLength_value : maxLength = 4082.
Proof. reflexivity. Qed.

(** X20. Whatever [createExpandButtonHandler] shows, the description is at most
    4094 characters long, and every button it offers has a handler in
    [createButtonHandlers]. *)
Theorem expanded_view_fits_and_can_be_collapsed expandableContent customId u :
  createExpandButtonHandler expandableContent customId = Some u ->
  String.length (e_description (u_embed u)) <= 4094
  /\ forall b, b ∈ u_buttons u ->
       createButtonHandlers expandableContent !! b_customId b = Some collapsed.
Proof.
  unfold createExpandButtonHandler.
  destruct (startsWith "expand:" customId); [|discriminate]. cbn [negb].
  assert (String.length (e_description (u_embed notAvailable)) <= 4094
          /\ forall b, b ∈ u_buttons notAvailable ->
               createButtonHandlers expandableContent !! b_customId b = Some collapsed)
    as HN by (split; [vm_compute; lia|intros b Hb; by apply elem_of_nil in Hb]).
  generalize (substringFrom 7 customId). intros expandId.
  destruct (expandableContent !! expandId) as [fullContent|];
    [|by intros [= <-]].
  destruct (truthy fullContent); cbn [negb]; [|by intros [= <-]].
  assert (forall b, b ∈ [collapseButton] ->
            createButtonHandlers expandableContent !! b_customId b = Some collapsed) as HB.
  { intros b ->%list_elem_of_singleton. reflexivity. }
  destruct (String.length fullContent <=? maxLength) eqn:L; intros [= <-];
    (split; [|exact HB]); cbn [e_description u_embed].
  - apply Nat.leb_le in L. rewrite maxLength_value in L.
    destruct (startsWith "result-" expandId);
      simpl; rewrite ?length_append; simpl; lia.
  - pose proof (length_substring_le (maxLength - 100) fullContent) as H.
    change (maxLength - 100) with 3982 in H.
    destruct (startsWith "result-" expandId);
      simpl; rewrite ?length_append; simpl; lia.
Qed.

(** X21. As the bot is wired, an expand button always gets the answer [Content
    Not Available]: none of the four command handlers has [handleButton],
    so the loop of [handleButton] finds no taker, whatever is stored. *)
Theorem expand_button_always_answers_not_available
    handlePaginationInteraction expandableContent rest :
  handleButton handlePaginationInteraction createAllCommandHandlers
    (createButtonHandlers expandableContent) true ("expand:" +:+ rest)
  = Some [DoUpdate notAvailableFallback].
Proof.
  unfold handleButton, createButtonHandlers. cbn [negb].
  change (startsWith "pagination:" ("expand:" +:+ rest)) with false.
  change (startsWith "continue:" ("expand:" +:+ rest)) with false.
  change (startsWith "copy-session:" ("expand:" +:+ rest)) with false.
  assert (startsWith "expand:" ("expand:" +:+ rest) = true) as ->
    by (unfold startsWith; simpl; by destruct rest).
  rewrite lookup_singleton_ne by discriminate. reflexivity.
Qed.

End ButtonFacts.

(** ** The message listener *)

Section ListenerFacts.

Import Bot Lifecycle Text Listener.

(** X22. A message with no text whose attachments are all files other than
    images is not skipped: the listener relays it, [onMessage] has no
    parameter for the files, and on an idle channel the assistant is
    queried with the empty prompt. *)
Theorem message_with_files_only_is_relayed_as_an_empty_prompt
    rv message ctx s cs paths :
  authorIsBot message = false -> inCategory message = true ->
  trimString (content message) = "" ->
  attachments message <> [] ->
  Forall (fun a => isImage a = false) (attachments message) ->
  truthy (channelId message) = true ->
  channelSessions s !! channelId message = Some cs -> busy cs s = false ->
  exists relay,
    messageCreate message = Some relay
    /\ r_imageUrls relay = None
    /\ buildPrompt (r_content relay) (r_imageUrls relay) paths = ""
    /\ outputs (run rv s [Arrive (r_channelId relay) (r_channelName relay);
                          Resume ctx (buildPrompt (r_content relay) (r_imageUrls relay) paths)
                            (r_channelId relay)])
       = outputs s ++ [Query ctx (channelWorkDir cs) ""
                         (if Client.js_truthy (sessionId cs) then sessionId cs else None)
                         (length (signals s))].
Proof.
  intros Hb Hc Ht Hne Hf T E B.
  assert (filter (fun a => isImage a) (attachments message) = []) as F1
    by (by apply filter_drops).
  assert (filter (fun a => negb (isImage a)) (attachments message) = attachments message)
    as F2.
  { apply (filter_keeps (fun a => negb (isImage a))).
    eapply Forall_impl; [exact Hf|]. intros a Ha. simpl. by rewrite Ha. }
  unfold messageCreate. rewrite Hb, Hc, Ht, F1, F2. cbn [negb truthy fmap list_fmap length].
  destruct (attachments message) as [|a l] eqn:Ea; [done|]. cbn [length fmap list_fmap Nat.eqb andb].
  eexists. split; [reflexivity|]. cbn [r_imageUrls r_content r_channelId r_channelName Nat.ltb Nat.leb].
  split; [done|]. split; [done|]. cbn [buildPrompt].
  destruct (submit_idle rv ctx "" (channelId message) (channelName message) s cs T E B)
    as (_ & _ & O & _).
  exact O.
Qed.

End ListenerFacts.

(** ** The environment file *)

Section EnvFacts.

Import Client Text Env.

Variables (badKey badValue : string -> bool).

Lemma loadLines_keeps lines : forall env k v,
  env !! k = Some v -> truthy v = true ->
  fst (loadLines badKey badValue lines env) !! k = Some v.
Proof.
  induction lines as [|line rest IH]; intros env k v E T; [done|].
  simpl. destruct (parseLine line) as [[key value]|]; [|by apply IH].
  unfold envGet, envSet. destruct (badKey key); [done|]. simpl.
  destruct (negb (js_truthy (env !! key)) && truthy key && truthy value) eqn:C;
    [|by apply IH].
  destruct (badValue value); [done|]. apply IH; [|done].
  destruct (decide (key = k)) as [->|Hne]; [|by rewrite lookup_insert_ne].
  rewrite E in C. simpl in C. by rewrite T in C.
Qed.

Lemma loadLines_app l1 l2 env :
  fst (loadLines badKey badValue (l1 ++ l2) env)
  = if snd (loadLines badKey badValue l1 env)
    then fst (loadLines badKey badValue l2 (fst (loadLines badKey badValue l1 env)))
    else fst (loadLines badKey badValue l1 env).
Proof.
  revert env. induction l1 as [|line rest IH]; intros env; [done|].
  simpl. destruct (parseLine line) as [[key value]|]; [|by apply IH].
  destruct (envGet badKey env key) as [current|]; [|done].
  destruct (negb (js_truthy current) && truthy key && truthy value); [|by apply IH].
  destruct (envSet badKey badValue env key value); [by apply IH|done].
Qed.

Lemma splitOn_cons c s : exists h t, splitOn c s = h :: t.
Proof.
  induction s as [|a r (h & t & IH)]; simpl; [by eexists _, _|].
  destruct (Ascii.eqb a c); [by eexists _, _|]. rewrite IH. by eexists _, _.
Qed.

Lemma splitOn_app c s1 s2 :
  splitOn c (s1 +:+ String c s2) = splitOn c s1 ++ splitOn c s2.
Proof.
  induction s1 as [|a r IH]; simpl; [by rewrite Ascii.eqb_refl|].
  destruct (Ascii.eqb a c); [by rewrite IH|].
  rewrite IH. by destruct (splitOn_cons c r) as (h & t & ->).
Qed.

(** X23. [loadEnvFile] never changes a variable that has a non-empty value: the
    environment takes precedence over the file, and of two assignments in
    the file the first wins. *)
Theorem variable_once_set_is_not_overridden file env content more k v :
  truthy v = true ->
  (env !! k = Some v -> loadEnvFile badKey badValue file env !! k = Some v)
  /\ (loadEnvFile badKey badValue (Some content) env !! k = Some v ->
      loadEnvFile badKey badValue (Some (content +:+ String lf more)) env !! k = Some v).
Proof.
  intros T. split.
  - intros E. destruct file as [c|]; [|done]. by apply loadLines_keeps.
  - unfold loadEnvFile. intros E. rewrite splitOn_app, loadLines_app.
    destruct (snd _); [|done]. by apply loadLines_keeps.
Qed.

(** X24. After [loadEnvFile] a variable either has the value it had, or it was
    unset or empty and has the non-empty value that a line of the file
    assigns to it. *)
Theorem env_file_sets_only_what_its_lines_assign content env k v :
  loadEnvFile badKey badValue (Some content) env !! k = Some v ->
  env !! k = Some v
  \/ (js_truthy (env !! k) = false /\ truthy k = true /\ truthy v = true
      /\ exists line, line ∈ splitOn lf content /\ parseLine line = Some (k, v)).
Proof.
  unfold loadEnvFile. generalize (splitOn lf content). intros lines.
  revert env. induction lines as [|line rest IH]; intros env H; [by left|].
  simpl in H.
  assert (forall env', fst (loadLines badKey badValue rest env') !! k = Some v ->
            env' !! k = Some v
            \/ (js_truthy (env' !! k) = false /\ truthy k = true /\ truthy v = true
                /\ exists l, l ∈ line :: rest /\ parseLine l = Some (k, v))) as IH'.
  { intros env' H'. destruct (IH env' H') as [?|(? & ? & ? & l & Hl & P)]; [by left|].
    right. split; [done|]. split; [done|]. split; [done|]. exists l. split; [by right|done]. }
  destruct (parseLine line) as [[key value]|] eqn:P; [|by apply IH'].
  unfold envGet, envSet in H. destruct (badKey key); [by left|]. simpl in H.
  destruct (negb (js_truthy (env !! key)) && truthy key && truthy value) eqn:C;
    [|by apply IH'].
  destruct (badValue value); [by left|].
  apply andb_true_iff in C as [C Tv]. apply andb_true_iff in C as [Cg Tk].
  apply negb_true_iff in Cg.
  destruct (IH' _ H) as [E|(G & ? & ? & l & Hl & Pl)].
  - destruct (decide (key = k)) as [->|Hne].
    + rewrite lookup_insert_eq in E. injection E as ->. right.
      split; [done|]. split; [done|]. split; [done|]. exists line. split; [by left|done].
    + rewrite lookup_insert_ne in E by done. by left.
  - destruct (decide (key = k)) as [->|Hne].
    + rewrite lookup_insert_eq in G. simpl in G. congruence.
    + rewrite lookup_insert_ne in G by done. right.
      split; [done|]. split; [done|]. split; [done|]. by exists l.
Qed.

(** X26. A line that assigns a non-empty value to a variable not yet defined
    sets it, whatever lines follow, provided the loop reached the line and
    the runtime accepts key and value. *)
Theorem env_line_sets_a_variable_not_yet_defined before line after env k v :
  parseLine line = Some (k, v) ->
  truthy k = true -> truthy v = true ->
  badKey k = false -> badValue v = false ->
  snd (loadLines badKey badValue before env) = true ->
  js_truthy (fst (loadLines badKey badValue before env) !! k) = false ->
  fst (loadLines badKey badValue (before ++ line :: after) env) !! k = Some v.
Proof.
  intros P Tk Tv Bk Bv F G. rewrite loadLines_app, F.
  cbn [loadLines]. rewrite P. unfold envGet, envSet. rewrite Bk, Bv, G, Tk, Tv. simpl.
  apply loadLines_keeps; [|done]. by rewrite lookup_insert_eq.
Qed.

(** X27. A line whose key the runtime refuses ends the loading: the exception
    leaves the loop, and no later line of the file takes effect. *)
Theorem refused_key_ends_the_loading before line after env k v :
  parseLine line = Some (k, v) ->
  badKey k = true ->
  fst (loadLines badKey badValue (before ++ line :: after) env)
  = fst (loadLines badKey badValue before env).
Proof.
  intros P B. rewrite loadLines_app. destruct (snd _); [|done].
  cbn [loadLines]. rewrite P. unfold envGet. by rewrite B.
Qed.

End EnvFacts.

Section EnvLine.
Import Client Text Env.

Lemma dropWhile_stop {A} (f : A -> bool) l1 x l2 :
  f x = false -> dropWhile f (l1 ++ x :: l2) = dropWhile f l1 ++ x :: l2.
Proof.
  intros H. induction l1 as [|a l1 IH]; simpl; [by rewrite H|].
  by destruct (f a).
Qed.

Lemma dropWhileEnd_stop {A} (f : A -> bool) l1 x l2 :
  f x = false -> dropWhileEnd f (l1 ++ x :: l2) = l1 ++ x :: dropWhileEnd f l2.
Proof.
  intros H. unfold dropWhileEnd. rewrite rev_app_distr. simpl rev at 1.
  rewrite <- app_assoc. simpl. rewrite dropWhile_stop by done.
  rewrite rev_app_distr. simpl. by rewrite rev_involutive, <- app_assoc.
Qed.

Lemma string_list_app l1 l2 :
  string_of_list_ascii (l1 ++ l2) = string_of_list_ascii l1 +:+ string_of_list_ascii l2.
Proof. induction l1 as [|a l1 IH]; [done|]. simpl. by rewrite IH. Qed.

Lemma breakAtEquals_first l r :
  Forall (fun a => a <> equals) l ->
  breakAtEquals (string_of_list_ascii (l ++ equals :: r))
  = Some (string_of_list_ascii l, string_of_list_ascii r).
Proof.
  induction 1 as [|a l Ha _ IH]; simpl; [done|].
  destruct (Ascii.eqb_spec a equals) as [->|_]; [done|]. by rewrite IH.
Qed.

Lemma whitespace_not_equals a : isWhitespace a = true -> a <> equals.
Proof. intros H ->. discriminate H. Qed.

Lemma trim_padded p1 m p2 :
  Forall (fun a => isWhitespace a = true) p1 ->
  Forall (fun a => isWhitespace a = true) p2 ->
  (forall a, head m = Some a -> isWhitespace a = false) ->
  (forall a, last m = Some a -> isWhitespace a = false) ->
  trim (p1 ++ m ++ p2) = m.
Proof.
  intros H1 H2 Hh Hl. unfold trim. rewrite dropWhile_all by done.
  destruct m as [|a m].
  - simpl. rewrite <- (app_nil_r p2). rewrite dropWhile_all by done. done.
  - change ((a :: m) ++ p2) with (a :: (m ++ p2)).
    rewrite dropWhile_none by (by apply Hh).
    change (a :: m ++ p2) with ((a :: m) ++ p2). rewrite dropWhileEnd_all by done.
    by apply dropWhileEnd_fixed.
Qed.

Lemma visible_not_whitespace a : visible a -> isWhitespace a = false.
Proof.
  intros [H1 H2]. unfold isWhitespace. apply orb_false_iff.
  split; [apply Nat.eqb_neq; lia|]. apply andb_false_iff. right. apply Nat.leb_gt. lia.
Qed.

(** X25. A line KEY=VALUE, with ASCII white space allowed around the line,
    the key and the value, is read as this key and this value, and a
    value wrapped in a pair of single or double quotes is read without
    them; for a key that is not empty, has no equals sign and does not
    start with a hash sign, and a key and a value that start and end with
    a printable ASCII character other than the space, so that no [trim]
    of JavaScript takes anything off them. *)
Theorem env_line_gives_its_key_and_value p1 k p2 p3 v p4 :
  Forall (fun a => isWhitespace a = true) (p1 ++ p2 ++ p3 ++ p4) ->
  k <> [] ->
  Forall (fun a => a <> equals) k ->
  (forall a, head k = Some a -> visible a /\ a <> "#"%char) ->
  (forall a, last k = Some a -> visible a) ->
  (forall a, head v = Some a -> visible a) ->
  (forall a, last v = Some a -> visible a) ->
  parseLine (string_of_list_ascii (p1 ++ k ++ p2 ++ equals :: p3 ++ v ++ p4))
  = Some (string_of_list_ascii k, unquote (string_of_list_ascii v))
  /\ forall q w, q = dquoteChar \/ q = squote -> v = q :: w ++ [q] ->
       unquote (string_of_list_ascii v) = string_of_list_ascii w.
Proof.
  intros Hp Hk He Hh0 Hl0 Hvh0 Hvl0.
  assert (forall a, head k = Some a -> isWhitespace a = false /\ a <> "#"%char) as Hh.
  { intros a Ha. destruct (Hh0 a Ha) as [V N]. split; [by apply visible_not_whitespace|done]. }
  assert (forall a, last k = Some a -> isWhitespace a = false) as Hl
    by (intros a Ha; by apply visible_not_whitespace, Hl0).
  assert (forall a, head v = Some a -> isWhitespace a = false) as Hvh
    by (intros a Ha; by apply visible_not_whitespace, Hvh0).
  assert (forall a, last v = Some a -> isWhitespace a = false) as Hvl
    by (intros a Ha; by apply visible_not_whitespace, Hvl0).
  clear Hh0 Hl0 Hvh0 Hvl0.
  apply Forall_app in Hp as [Hp1 Hp]. apply Forall_app in Hp as [Hp2 Hp].
  apply Forall_app in Hp as [Hp3 Hp4].
  split.
  - unfold parseLine, trimString. rewrite list_ascii_of_string_of_list_ascii.
    assert (trim (p1 ++ k ++ p2 ++ equals :: p3 ++ v ++ p4)
            = (k ++ p2) ++ equals :: dropWhileEnd isWhitespace (p3 ++ v ++ p4)) as ->.
    { unfold trim. rewrite dropWhile_all by done.
      destruct k as [|a k]; [done|].
      change ((a :: k) ++ p2 ++ equals :: p3 ++ v ++ p4)
        with (a :: (k ++ p2 ++ equals :: p3 ++ v ++ p4)).
      rewrite dropWhile_none by (by apply Hh).
      change (a :: k ++ p2 ++ equals :: p3 ++ v ++ p4)
        with ((a :: k) ++ p2 ++ equals :: p3 ++ v ++ p4).
      rewrite app_assoc. by apply dropWhileEnd_stop. }
    destruct k as [|a k]; [done|].
    destruct (Hh a eq_refl) as [Hw Hc].
    assert (startsWith "#"
              (string_of_list_ascii (((a :: k) ++ p2) ++ equals
                 :: dropWhileEnd isWhitespace (p3 ++ v ++ p4))) = false) as ->.
    { unfold startsWith. cbn [app string_of_list_ascii String.prefix].
      destruct (ascii_dec "#" a) as [E|E]; [by destruct Hc|done]. }
    simpl truthy. cbv beta iota. simpl negb. simpl orb. cbv iota.
    rewrite breakAtEquals_first.
    2:{ apply Forall_app. split; [done|].
        eapply Forall_impl; [exact Hp2|]. intros. by apply whitespace_not_equals. }
    rewrite !list_ascii_of_string_of_list_ascii.
    assert (trim ((a :: k) ++ p2) = a :: k) as ->.
    { rewrite <- (app_nil_l ((a :: k) ++ p2)). apply trim_padded; try done.
      intros b Hb. by apply Hh. }
    assert (trim (dropWhileEnd isWhitespace (p3 ++ v ++ p4)) = v) as ->; [|done].
    destruct v as [|b v].
    + simpl app. rewrite <- (app_nil_l (p3 ++ p4)).
      rewrite dropWhileEnd_all; [done|]. by apply Forall_app.
    + rewrite app_assoc, dropWhileEnd_all by done.
      rewrite dropWhileEnd_fixed.
      * rewrite <- (app_nil_r (b :: v)) at 1. apply trim_padded; [done|constructor|done|done].
      * intros c Hc'. apply Hvl. rewrite last_app in Hc'.
        destruct (last (b :: v)) eqn:L; [done|]. by apply last_None in L.
  - intros q w Hq ->. unfold unquote.
    assert (forall l, endsWithChar q (string_of_list_ascii (l ++ [q])) = true) as E.
    { induction l as [|b l IH]; simpl; [apply Ascii.eqb_refl|].
      rewrite IH. by destruct l. }
    assert (forall l, dropLast (string_of_list_ascii (l ++ [q])) = string_of_list_ascii l) as D.
    { induction l as [|b l IH]; simpl; [done|].
      rewrite IH. by destruct l. }
    specialize (E (q :: w)). change ((q :: w) ++ [q]) with (q :: w ++ [q]) in E.
    destruct Hq as [-> | ->].
    + rewrite E. simpl. by rewrite D.
    + rewrite E. simpl. by rewrite D.
Qed.
End EnvLine.

Section InputCases.
Import Client Bot Scenario Lifecycle Buttons Text Listener Env InputSamples.

Lemma expanded_view_fits_and_can_be_collapsed_witness :
  exists u, createExpandButtonHandler {[ "result-1" := "done" ]} "expand:result-1" = Some u
            /\ String.length (e_description (u_embed u)) <= 4094.
Proof.
  assert (exists u, createExpandButtonHandler {[ "result-1" := "done" ]} "expand:result-1"
                    = Some u) as [u E] by (eexists; vm_compute; reflexivity).
  exists u. split; [exact E|].
  by destruct (expanded_view_fits_and_can_be_collapsed _ _ u E) as [H _].
Defined.

Lemma message_with_files_only_is_relayed_as_an_empty_prompt_witness :
  exists relay,
    messageCreate fileOnly = Some relay
    /\ outputs (run Rev2 (restingA Rev2)
                  [Arrive (r_channelId relay) (r_channelName relay);
                   Resume 7 (buildPrompt (r_content relay) (r_imageUrls relay) [])
                     (r_channelId relay)])
       = outputs (restingA Rev2) ++ [Query 7 "/w/alpha" "" (Some "s0") 1].
Proof.
  destruct (message_with_files_only_is_relayed_as_an_empty_prompt Rev2 fileOnly 7
              (restingA Rev2) (sessionA None (Some "s0") []) [])
    as (relay & M & _ & _ & O).
  - reflexivity.
  - reflexivity.
  - reflexivity.
  - discriminate.
  - repeat constructor.
  - reflexivity.
  - vm_compute. reflexivity.
  - vm_compute. reflexivity.
  - exists relay. split; [exact M|]. exact O.
Defined.

Lemma variable_once_set_is_not_overridden_witness :
  loadEnvFile emptyKey anyValue (Some ("TOKEN=xyz" +:+ nl +:+ "OTHER=1"))
    {[ "TOKEN" := "abc" ]} !! "TOKEN" = Some "abc"
  /\ loadEnvFile emptyKey anyValue (Some ("TOKEN=xyz" +:+ nl +:+ "TOKEN=uvw")) ∅ !! "TOKEN"
     = Some "xyz".
Proof.
  destruct (variable_once_set_is_not_overridden emptyKey anyValue
              (Some ("TOKEN=xyz" +:+ nl +:+ "OTHER=1")) {[ "TOKEN" := "abc" ]}
              "TOKEN=xyz" "TOKEN=uvw" "TOKEN" "abc" eq_refl) as [H _].
  destruct (variable_once_set_is_not_overridden emptyKey anyValue None ∅
              "TOKEN=xyz" "TOKEN=uvw" "TOKEN" "xyz" eq_refl) as [_ H'].
  split.
  - apply H. vm_compute. reflexivity.
  - apply H'. vm_compute. reflexivity.
Defined.

Lemma env_file_sets_only_what_its_lines_assign_witness :
  exists line, line ∈ splitOn lf ("A=1" +:+ nl +:+ "B=2")
               /\ parseLine line = Some ("B", "2").
Proof.
  destruct (env_file_sets_only_what_its_lines_assign emptyKey anyValue
              ("A=1" +:+ nl +:+ "B=2") ∅ "B" "2")
    as [E|(_ & _ & _ & H)].
  - vm_compute. reflexivity.
  - discriminate E.
  - exact H.
Defined.

Lemma env_line_gives_its_key_and_value_witness :
  parseLine "  TOKEN = 'a b'  " = Some ("TOKEN", "a b").
Proof.
  destruct (env_line_gives_its_key_and_value
              (list_ascii_of_string "  ") (list_ascii_of_string "TOKEN")
              (list_ascii_of_string " ") (list_ascii_of_string " ")
              (list_ascii_of_string "'a b'") (list_ascii_of_string "  ")) as [H U].
  - repeat constructor.
  - discriminate.
  - repeat (constructor; [discriminate|]). constructor.
  - intros a [= <-]. split; [unfold visible; vm_compute; lia|discriminate].
  - intros a [= <-]. unfold visible. vm_compute. lia.
  - intros a [= <-]. unfold visible. vm_compute. lia.
  - intros a [= <-]. unfold visible. vm_compute. lia.
  - rewrite (U squote (list_ascii_of_string "a b") (or_intror eq_refl) eq_refl) in H.
    exact H.
Defined.

Lemma env_line_sets_a_variable_not_yet_defined_witness :
  fst (loadLines emptyKey anyValue ["# settings"; "A=1"; "B=2"; "B=3"] ∅) !! "B" = Some "2".
Proof.
  apply (env_line_sets_a_variable_not_yet_defined emptyKey anyValue ["# settings"; "A=1"]
           "B=2" ["B=3"] ∅ "B" "2"); vm_compute; reflexivity.
Defined.

Lemma refused_key_ends_the_loading_witness :
  fst (loadLines emptyKey anyValue ["A=1"; "=x"; "B=2"] ∅) = {[ "A" := "1" ]}.
Proof.
  etransitivity.
  - apply (refused_key_ends_the_loading emptyKey anyValue ["A=1"] "=x" ["B=2"] ∅ "" "x");
      reflexivity.
  - vm_compute. reflexivity.
Defined.

End InputCases.

(** ** The write guard, on segments *)

Section GuardMore.

Import Guard.

Lemma split_sep_trailing ps z :
  Forall (fun x => clean x = true) ps -> ps <> [] ->
  split_sep (join sep ps +:+ sep +:+ z) = ps ++ split_sep z.
Proof.
  induction ps as [|a ps IH]; intros H Hne; [done|].
  inversion H as [|? ? Ha H']; subst. destruct (clean_parts a Ha) as (_ & Na & _).
  destruct ps as [|b ps].
  - by apply split_sep_segment.
  - rewrite join_cons2, append_assoc, append_assoc, split_sep_segment by done.
    by rewrite IH.
Qed.

Lemma fold_normalize_skip z acc :
  fold_left (normalize_step false) (split_sep (sep +:+ z)) acc
  = fold_left (normalize_step false) (split_sep z) acc.
Proof.
  change (sep +:+ z) with (String slash z). cbn [split_sep]. by rewrite Ascii.eqb_refl.
Qed.

Lemma fold_normalize_segments ps z acc :
  Forall (fun x => clean x = true) ps ->
  fold_left (normalize_step false) (split_sep (join sep ps +:+ sep +:+ z)) acc
  = fold_left (normalize_step false) (split_sep z) (rev ps ++ acc).
Proof.
  intros H. destruct ps as [|a ps].
  - apply fold_normalize_skip.
  - rewrite split_sep_trailing by done. rewrite fold_left_app.
    by rewrite (fold_normalize_id (a :: ps)) by done.
Qed.

Lemma relative_segments ps :
  Forall (fun x => clean x = true) ps -> ps <> [] ->
  truthy (join sep ps) = true /\ isAbsolute (join sep ps) = false.
Proof.
  intros H Hne. split; [by apply join_clean|].
  destruct ps as [|a ps]; [done|]. inversion H as [|? ? Ha _]; subst.
  destruct (clean_parts a Ha) as (Ta & Na & _).
  destruct a as [|c a]; [done|]. simpl in Na. apply andb_true_iff in Na as [Nc _].
  apply negb_true_iff in Nc.
  assert (exists r, join sep (String c a :: ps) = String c r) as [r ->].
  { destruct ps; [by eexists|]. rewrite join_cons2. by eexists. }
  unfold isAbsolute, startsWith. change sep with (String slash "").
  rewrite prefix_cons. rewrite Ascii.eqb_sym. by rewrite Nc.
Qed.

Lemma isAbsolute_rooted z : isAbsolute (sep +:+ z) = true.
Proof.
  unfold isAbsolute, startsWith.
  change (String.prefix (String slash "") (String slash z) = true).
  by rewrite prefix_cons, Ascii.eqb_refl, prefix_empty_l.
Qed.

(** An absolute path of clean segments names these segments, whatever
    comes before it. *)
Lemma location_absolute pcwd before ps :
  Forall (fun x => clean x = true) ps ->
  location pcwd (before ++ [sep +:+ join sep ps]) = ps.
Proof.
  intros H. unfold location.
  cbn [rev]. rewrite rev_app_distr. cbn [rev app resolve_loop].
  change (truthy (sep +:+ join sep ps)) with true.
  rewrite isAbsolute_rooted. cbn [fst].
  unfold normalizeSegments. rewrite append_assoc, fold_normalize_skip.
  rewrite fold_normalize_segments by done. cbn [split_sep fold_left].
  unfold normalize_step. cbn [String.eqb orb]. by rewrite app_nil_r, rev_involutive.
Qed.

(** A relative path of clean segments, taken from an absolute directory
    of clean segments, names the segments of both. *)
Lemma location_relative pcwd cs ps :
  Forall (fun x => clean x = true) cs ->
  Forall (fun x => clean x = true) ps -> ps <> [] ->
  location pcwd [sep +:+ join sep cs; join sep ps] = cs ++ ps.
Proof.
  intros Hc Hp Hne. destruct (relative_segments ps Hp Hne) as [T A].
  unfold location. cbn [rev app resolve_loop]. rewrite T, A.
  change (truthy (sep +:+ join sep cs)) with true.
  rewrite isAbsolute_rooted. cbn [fst].
  unfold normalizeSegments. rewrite append_assoc, fold_normalize_skip.
  rewrite !fold_normalize_segments by done. cbn [split_sep fold_left].
  unfold normalize_step. cbn [String.eqb orb].
  by rewrite app_nil_r, rev_app_distr, !rev_involutive.
Qed.

(** X9. With a workspace root other than the root of the file system, a write
    tool called with a path is allowed exactly when the segments of the
    resolved workspace root are a prefix of those of the resolved path, and
    is denied with the message naming root and path otherwise. *)
Theorem guard_allows_exactly_the_paths_below_the_root
    pcwd root cwd tool key input filePath :
  isAbsolute pcwd = true -> location pcwd [root] <> [] ->
  writeToolPaths tool = Some key -> input !! key = Some filePath ->
  truthy filePath = true ->
  createWorkspaceWriteGuard pcwd root cwd tool input
  = if insideWorkspace pcwd root cwd filePath then Allow input
    else Deny (denyMessage root filePath).
Proof.
  intros A Hne K I T. rewrite guard_decides_below_root by done. rewrite K, I, T.
  by destruct (insideWorkspace pcwd root cwd filePath).
Qed.

(** X10. The guard compares whole path segments. For a workspace root, a
    working directory and a path with plain segments (no [.], [..] or empty
    segment): an absolute path is allowed exactly when the segments of the
    root are a prefix of its own, so a folder whose name merely starts like
    the root is denied; a relative path is allowed exactly when they are a
    prefix of the segments of the working directory followed by its own. *)
Theorem guard_compares_whole_segments pcwd rs cs ps tool key input :
  isAbsolute pcwd = true ->
  Forall (fun x => clean x = true) rs -> rs <> [] ->
  Forall (fun x => clean x = true) cs ->
  Forall (fun x => clean x = true) ps -> ps <> [] ->
  writeToolPaths tool = Some key ->
  let root := sep +:+ join sep rs in
  (forall cwd, input !! key = Some (sep +:+ join sep ps) ->
     createWorkspaceWriteGuard pcwd root cwd tool input
     = if segs_prefix rs ps then Allow input
       else Deny (denyMessage root (sep +:+ join sep ps)))
  /\ (input !! key = Some (join sep ps) ->
      createWorkspaceWriteGuard pcwd root (sep +:+ join sep cs) tool input
      = if segs_prefix rs (cs ++ ps) then Allow input
        else Deny (denyMessage root (join sep ps))).
Proof.
  intros A Hr Hne Hc Hp Hpe K root.
  assert (location pcwd [root] = rs) as Lr by (by apply (location_absolute pcwd [])).
  split.
  - intros cwd I. rewrite guard_decides_below_root; [|done|by rewrite Lr].
    rewrite K, I. change (truthy (sep +:+ join sep ps)) with true. cbn [andb].
    unfold insideWorkspace. rewrite Lr.
    change [cwd; sep +:+ join sep ps] with ([cwd] ++ [sep +:+ join sep ps]).
    rewrite (location_absolute pcwd [cwd]) by done.
    by destruct (segs_prefix rs ps).
  - intros I. rewrite guard_decides_below_root; [|done|by rewrite Lr].
    rewrite K, I. destruct (relative_segments ps Hp Hpe) as [-> _]. cbn [andb].
    unfold insideWorkspace. rewrite Lr, location_relative by done.
    by destruct (segs_prefix rs (cs ++ ps)).
Qed.

End GuardMore.

Section GuardCases.
Import Guard.

Lemma guard_allows_exactly_the_paths_below_the_root_witness :
  createWorkspaceWriteGuard "/srv" "/work" "/work/chan" "Write"
    {[ "file_path" := "../../etc/passwd" ]}
  = Deny (denyMessage "/work" "../../etc/passwd")
  /\ createWorkspaceWriteGuard "/srv" "/work" "/work/chan" "Write"
       {[ "file_path" := "../other/a.txt" ]}
     = Allow {[ "file_path" := "../other/a.txt" ]}.
Proof.
  split.
  - etransitivity.
    + apply (guard_allows_exactly_the_paths_below_the_root "/srv" "/work" "/work/chan"
               "Write" "file_path" {[ "file_path" := "../../etc/passwd" ]}
               "../../etc/passwd");
        [reflexivity|vm_compute; discriminate|reflexivity|vm_compute; reflexivity
        |reflexivity].
    + vm_compute. reflexivity.
  - etransitivity.
    + apply (guard_allows_exactly_the_paths_below_the_root "/srv" "/work" "/work/chan"
               "Write" "file_path" {[ "file_path" := "../other/a.txt" ]}
               "../other/a.txt");
        [reflexivity|vm_compute; discriminate|reflexivity|vm_compute; reflexivity
        |reflexivity].
    + vm_compute. reflexivity.
Defined.

Lemma guard_compares_whole_segments_witness :
  createWorkspaceWriteGuard "/srv" "/work" "/tmp" "Edit"
    {[ "file_path" := "/workspace/x" ]}
  = Deny (denyMessage "/work" "/workspace/x")
  /\ createWorkspaceWriteGuard "/srv" "/work" "/work/chan" "Edit"
       {[ "file_path" := "notes/a.txt" ]}
     = Allow {[ "file_path" := "notes/a.txt" ]}.
Proof.
  split.
  - destruct (guard_compares_whole_segments "/srv" ["work"] [] ["workspace"; "x"] "Edit"
                "file_path" {[ "file_path" := "/workspace/x" ]}) as [H _];
      [reflexivity|repeat constructor|discriminate|constructor|repeat constructor
      |discriminate|reflexivity|].
    apply (H "/tmp"). vm_compute. reflexivity.
  - destruct (guard_compares_whole_segments "/srv" ["work"] ["work"; "chan"]
                ["notes"; "a.txt"] "Edit"
                "file_path" {[ "file_path" := "notes/a.txt" ]}) as [_ H];
      [reflexivity|repeat constructor|discriminate|repeat constructor|repeat constructor
      |discriminate|reflexivity|].
    apply H. vm_compute. reflexivity.
Defined.

End GuardCases.
